(** * merge_vars: a shallow embedding of the clusterverse action plugin

    The plugin [plugins/action/merge_vars.py] merges variable files and
    literal dotted-path assignments into the host variables.  Its Python
    objects (dicts and lists) are mutable and shared by reference, so the
    embedding keeps an explicit heap of objects; values parsed from files
    and task arguments are pure trees that are materialised on the heap
    when they are read. *)

From stdpp Require Import gmap strings list fin_maps sorting.
From Stdlib Require Import ZArith Ascii.
From Stdlib Require String.

(** ** Python strings: [str.split], [os.path] helpers and [list.sort] *)

Module PyStr.

Definition is_dot (c : ascii) : bool := Ascii.eqb c "."%char.
Definition is_sep (c : ascii) : bool := Ascii.eqb c "/"%char.

(** [s.split('.')]: never returns the empty list; [''.split('.')] is
    [['']]. *)
Fixpoint split_dot (s : string) : list string :=
  match s with
  | EmptyString => [EmptyString]
  | String c r =>
      if is_dot c then EmptyString :: split_dot r
      else match split_dot r with
           | x :: xs => String c x :: xs
           | [] => [String c EmptyString]
           end
  end.

Fixpoint contains (p : ascii → bool) (s : string) : bool :=
  match s with
  | EmptyString => false
  | String c r => p c || contains p r
  end.

Definition startswith_sep (s : string) : bool :=
  match s with String c _ => is_sep c | EmptyString => false end.

Fixpoint endswith_sep (s : string) : bool :=
  match s with
  | EmptyString => false
  | String c EmptyString => is_sep c
  | String _ r => endswith_sep r
  end.

(** [posixpath.join(a, b)] for one component [b]. *)
Definition join (a b : string) : string :=
  if startswith_sep b then b
  else match a with
       | EmptyString => b
       | _ => if endswith_sep a then a +:+ b else a +:+ "/" +:+ b
       end.

(** The part of [p] after its last ['/'] ([p[sepIndex+1:]] in
    [genericpath._splitext]). *)
Fixpoint basename (p : string) : string :=
  match p with
  | EmptyString => EmptyString
  | String c r =>
      if contains is_sep r then basename r
      else if is_sep c then r else p
  end.

(** The extension that [_splitext] finds in a base name, without its
    leading dot: the text after the last dot, provided some character
    before that dot is not a dot. *)
Fixpoint ext_from (seen_nondot : bool) (b : string) : string :=
  match b with
  | EmptyString => EmptyString
  | String c r =>
      if is_dot c then
        if contains is_dot r then ext_from seen_nondot r
        else if seen_nondot then r else EmptyString
      else ext_from true r
  end.

(** [path.splitext(filename)[-1][1:]]. *)
Definition splitext_ext (filename : string) : string :=
  ext_from false (basename filename).

(** Code-point order of [str], the order [list.sort] uses. *)
Definition str_le : relation string := λ a b, String.leb a b.

#[global] Instance str_le_dec a b : Decision (str_le a b).
Proof. unfold str_le. apply _. Defined.

(** [l.sort()] on a list of strings; Python's sort is a merge sort, and
    on a total order every sort returns the same list. *)
Definition list_sort (l : list string) : list string := merge_sort str_le l.

End PyStr.


(** ** Python values and the object heap *)

Module Py.

(** Object identities: the index of the object in the heap. *)
Abbreviation loc := nat (only parsing).

(** A [float] that is a number: an infinity, or [m * 2 ^ e] (every finite
    IEEE double is of this form; the sign of a zero is not kept). *)
Inductive pyfloat :=
  | FInf (neg : bool)
  | FFin (m e : Z).

#[global] Instance pyfloat_eq_dec : EqDecision pyfloat.
Proof. solve_decision. Defined.

(** A value is an immutable scalar or a reference to a container object.
    The float NaN is the one scalar whose identity shows ([nan != nan], but
    a container equals itself even when it holds a NaN): [VNaN l] is the NaN
    object of identity [l]. *)
Inductive val :=
  | VNone
  | VBool (b : bool)
  | VInt (n : Z)
  | VFloat (f : pyfloat)
  | VNaN (l : loc)
  | VStr (s : string)
  | VRef (l : loc).

(** The objects of the heap: the containers, and a cell for every NaN made,
    so that no two of them share an identity. *)
Inductive obj :=
  | ODict (d : gmap string val)
  | OList (l : list val)
  | ONaN.

Abbreviation heap := (list obj).

#[global] Instance val_eq_dec : EqDecision val.
Proof. solve_decision. Defined.

(** Creating a new object appends it to the heap. *)
Definition alloc (o : obj) (h : heap) : loc * heap := (length h, h ++ [o]).

(** [isinstance(v, dict)], returning the entries. *)
Definition get_dict (h : heap) (v : val) : option (gmap string val) :=
  match v with
  | VRef l => match h !! l with Some (ODict d) => Some d | _ => None end
  | _ => None
  end.

Definition dict_at (h : heap) (l : loc) : option (gmap string val) :=
  get_dict h (VRef l).

(** [d[k] = v] on the dict object at [l] (in place). *)
Definition dict_set (l : loc) (k : string) (v : val) (h : heap) : heap :=
  match h !! l with
  | Some (ODict d) => <[l := ODict (<[k := v]> d)]> h
  | _ => h
  end.

(** *** Parsed data: the trees that the loader and the task arguments hold *)

Inductive scalar :=
  | SNull
  | SBool (b : bool)
  | SInt (n : Z)
  | SFloat (f : pyfloat)
  | SNaN
  | SStr (s : string).

#[warnings="-register-all"]
Inductive Tree :=
  | Scalar (s : scalar)
  | Sequence (l : list Tree)
  | Mapping (m : gmap string Tree).

(** The value of a scalar; a NaN gets its identity where it is made (in
    [alloc_tree]), here it has the identity [0]. *)
Definition val_of_scalar (s : scalar) : val :=
  match s with
  | SNull => VNone
  | SBool b => VBool b
  | SInt n => VInt n
  | SFloat f => VFloat f
  | SNaN => VNaN 0
  | SStr s => VStr s
  end.

(** Materialise a tree as fresh objects: children first, then the
    container that holds them. *)
Fixpoint alloc_tree (t : Tree) (h : heap) : val * heap :=
  match t with
  | Scalar SNaN => (VNaN (length h), h ++ [ONaN])
  | Scalar s => (val_of_scalar s, h)
  | Sequence ts =>
      let '(vs, h1) :=
        foldl (λ '(vs, h0) t, let '(v, h') := alloc_tree t h0 in (vs ++ [v], h'))
              ([], h) ts in
      (VRef (length h1), h1 ++ [OList vs])
  | Mapping m =>
      let '(d, h1) :=
        map_fold (λ k t '(d, h0), let '(v, h') := alloc_tree t h0 in (<[k := v]> d, h'))
                 (∅, h) m in
      (VRef (length h1), h1 ++ [ODict d])
  end.

(** *** Equality [==] *)

(** The number that a value is, if it is one: [bool] is a subclass of
    [int], and an [int] is compared with a [float] by its exact value. *)
Definition num_of (v : val) : option pyfloat :=
  match v with
  | VBool b => Some (FFin (if b then 1 else 0) 0)
  | VInt n => Some (FFin n 0)
  | VFloat f => Some f
  | _ => None
  end.

(** The order of the numbers. *)
Definition float_cmp (a b : pyfloat) : comparison :=
  match a, b with
  | FInf true, FInf true | FInf false, FInf false => Eq
  | FInf true, _ | _, FInf false => Lt
  | FInf false, _ | _, FInf true => Gt
  | FFin m1 e1, FFin m2 e2 =>
      let e := Z.min e1 e2 in
      (m1 * 2 ^ (e1 - e) ?= m2 * 2 ^ (e2 - e))%Z
  end.

Definition num_eqb (a b : pyfloat) : bool :=
  match float_cmp a b with Eq => true | _ => false end.

Definition num_leb (a b : pyfloat) : bool :=
  match float_cmp a b with Gt => false | _ => true end.

Definition is_nan (v : val) : bool :=
  match v with VNaN _ => true | _ => false end.

(** [x is y] for two NaNs. *)
Definition same_nan (x y : val) : bool :=
  match x, y with
  | VNaN a, VNaN b => bool_decide (a = b)
  | _, _ => false
  end.

(** Short-circuit conjunction of fallible tests. *)
Fixpoint allM {A} (p : A → option bool) (l : list A) : option bool :=
  match l with
  | [] => Some true
  | x :: r => match p x with Some true => allM p r | o => o end
  end.

(** [v1 == v2].  [bool] is a subclass of [int], so [True == 1]; a NaN
    equals nothing, not even itself; a container equals itself; dicts
    compare by key set and values, lists pointwise, and the items of
    containers are equal when they are one object or compare equal
    ([PyObject_RichCompareBool]).  [None] is fuel exhausted (Python:
    RecursionError on structures nested too deep). *)
Fixpoint py_eq (fuel : nat) (h : heap) (v1 v2 : val) : option bool :=
  match v1, v2 with
  | VRef l1, VRef l2 =>
      if decide (l1 = l2) then Some true
      else match fuel with
           | 0 => None
           | S f =>
               let item_eq x y := if same_nan x y then Some true else py_eq f h x y in
               match h !! l1, h !! l2 with
               | Some (ODict d1), Some (ODict d2) =>
                   if decide (size d1 = size d2) then
                     allM (λ '(k, x),
                            match d2 !! k with
                            | Some y => item_eq x y
                            | None => Some false
                            end) (map_to_list d1)
                   else Some false
               | Some (OList a), Some (OList b) =>
                   if decide (length a = length b) then
                     allM (λ '(x, y), item_eq x y) (zip a b)
                   else Some false
               | _, _ => Some false
               end
           end
  | VRef _, _ | _, VRef _ => Some false
  | VNaN _, _ | _, VNaN _ => Some false
  | VNone, VNone => Some true
  | VStr a, VStr b => Some (bool_decide (a = b))
  | _, _ =>
      match num_of v1, num_of v2 with
      | Some a, Some b => Some (num_eqb a b)
      | _, _ => Some false
      end
  end.

(** [v1 != v2]. *)
Definition py_ne (fuel : nat) (h : heap) (v1 v2 : val) : option bool :=
  negb <$> py_eq fuel h v1 v2.

(** *** [copy.deepcopy] *)

(** [deepcopy(v, memo)]: a scalar is returned as it is (a NaN keeps its
    identity, also when it is given by its cell); a container is copied once; [memo] maps the
    identity of an original to the identity of its copy, so sharing inside
    the original is kept inside the copy.  The empty copy is created and
    registered before its items are copied. *)
Fixpoint deepcopy (fuel : nat) (memo : gmap loc loc) (v : val) (h : heap)
  : option (val * gmap loc loc * heap) :=
  match v with
  | VRef l =>
      match memo !! l with
      | Some l' => Some (VRef l', memo, h)
      | None =>
          match fuel with
          | 0 => None
          | S f =>
              match h !! l with
              | Some (ODict d) =>
                  let l' := length h in
                  '(d', memo', h') ←
                    foldl (λ acc '(k, x),
                             '(d0, memo0, h0) ← acc;
                             '(x', memo1, h1) ← deepcopy f memo0 x h0;
                             Some (<[k := x']> d0, memo1, h1))
                          (Some (∅, <[l := l']> memo, h ++ [ODict ∅]))
                          (map_to_list d);
                  Some (VRef l', memo', <[l' := ODict d']> h')
              | Some (OList xs) =>
                  let l' := length h in
                  '(xs', memo', h') ←
                    foldl (λ acc x,
                             '(xs0, memo0, h0) ← acc;
                             '(x', memo1, h1) ← deepcopy f memo0 x h0;
                             Some (xs0 ++ [x'], memo1, h1))
                          (Some ([], <[l := l']> memo, h ++ [OList []]))
                          xs;
                  Some (VRef l', memo', <[l' := OList xs']> h')
              | Some ONaN => Some (VNaN l, memo, h)
              | None => Some (v, memo, h)
              end
          end
      end
  | _ => Some (v, memo, h)
  end.

(** *** Reading a value back as a tree *)

(** The tree that a value denotes in a heap ([None]: fuel exhausted or a
    reference to no object). *)
Fixpoint reify (fuel : nat) (h : heap) (v : val) : option Tree :=
  match v with
  | VNone => Some (Scalar SNull)
  | VBool b => Some (Scalar (SBool b))
  | VInt n => Some (Scalar (SInt n))
  | VFloat f => Some (Scalar (SFloat f))
  | VNaN _ => Some (Scalar SNaN)
  | VStr s => Some (Scalar (SStr s))
  | VRef l =>
      match fuel with
      | 0 => None
      | S f =>
          match h !! l with
          | Some (ODict d) =>
              Mapping <$> map_fold (λ k x acc, m ← acc; t ← reify f h x; Some (<[k := t]> m))
                                   (Some ∅) d
          | Some (OList xs) => Sequence <$> mapM (reify f h) xs
          | Some ONaN => Some (Scalar SNaN)
          | None => None
          end
      end
  end.

End Py.

Import PyStr Py.

(** ** Deep merge *)

(** Modelled from the spec: [merge_hash] is imported from
    [ansible.utils.vars], which is not part of this repository.  Section 4.2
    of the specification: two Mappings merge key-wise (keys of one side only
    are kept, shared keys are merged recursively); in every other case the
    overlay wins. *)
Fixpoint merge (base overlay : Tree) : Tree :=
  match base, overlay with
  | Mapping mb, Mapping mo =>
      Mapping (union_with (λ b o, Some (merge b o)) mb mo)
  | _, _ => overlay
  end.

(** Modelled from the spec: the same merge on heap objects, as the plugin
    calls it on two dicts.  The result is a new dict ([x] and [y] are not
    modified); every merged nested dict is a new object, all other values
    are shared with the inputs.  Returns the entries of the result. *)
Fixpoint merge_hash (fuel : nat) (x y : gmap string val) (h : heap)
  : option (gmap string val * heap) :=
  match fuel with
  | 0 => None
  | S f =>
      foldl (λ acc '(k, vy),
               '(d, h0) ← acc;
               match x !! k with
               | Some vx =>
                   match get_dict h0 vx, get_dict h0 vy with
                   | Some dx, Some dy =>
                       '(dm, h1) ← merge_hash f dx dy h0;
                       Some (<[k := VRef (length h1)]> d, h1 ++ [ODict dm])
                   | _, _ => Some (<[k := vy]> d, h0)
                   end
               | None => Some (<[k := vy]> d, h0)
               end)
            (Some (x, h)) (map_to_list y)
  end.

(** ** Structural diff: [deep_diff] *)

Definition diff_entry : Type := string * val * val.

(** [f"{path}.{key}" if path else str(key)]. *)
Definition new_path (path key : string) : string :=
  if decide (path = "") then key else path +:+ "." +:+ key.

(** The body of the loop over the keys, with the recursive call [rec]. *)
Definition diff_key (rec : gmap string val → gmap string val → string → option (list diff_entry))
    (fuel : nat) (h : heap) (d1 d2 : gmap string val) (path key : string)
  : option (list diff_entry) :=
  match d1 !! key, d2 !! key with
  | None, Some v2 => Some [(new_path path key, VNone, v2)]
  | Some v1, None => Some [(new_path path key, v1, VNone)]
  | Some v1, Some v2 =>
      match get_dict h v1, get_dict h v2 with
      | Some a, Some b => rec a b (new_path path key)
      | _, _ =>
          ne ← py_ne fuel h v1 v2;
          Some (if ne : bool then [(new_path path key, v1, v2)] else [])
      end
  | None, None => Some []
  end.

(** [d1.keys() | d2.keys()] is a set; its iteration order is not specified
    by Python, the model enumerates it in the order of [elements]. *)
Definition key_union (d1 d2 : gmap string val) : list string :=
  elements (dom d1 ∪ dom d2).

Fixpoint deep_diff (fuel : nat) (h : heap) (d1 d2 : gmap string val) (path : string)
  : option (list diff_entry) :=
  match fuel with
  | 0 => None
  | S f =>
      foldl (λ acc key,
               diffs ← acc;
               e ← diff_key (deep_diff f h) f h d1 d2 path key;
               Some (diffs ++ e))
            (Some []) (key_union d1 d2)
  end.

(** ** The action plugin *)

Module MergeVars.

(** Failures of a run.  The first five are [AnsibleActionFail] with the
    message quoted; the last four are Python exceptions of the same name
    (and the loader's own failure). *)
Inductive error :=
  | InvalidOptionsError (invalid_args : list string)
      (* "The following are not valid options in merge_vars '...'" *)
  | MissingOptionsError
      (* "At least one of 'files' or 'literals' should be present." *)
  | SourceNotFoundError (source : string)
      (* "Source file/dir '...' does not exist" *)
  | InvalidLiteralError
      (* "The 'literals' argument ... must be a list of dictionaries ..." and
         "Each item in 'literals' must be a dict with 'path' and 'value' keys" *)
  | InvalidPathError
      (* "Path cannot be empty in vars update" *)
  | LoaderError (filename : string)
  | PyKeyError (key : string)
  | PyTypeError
  | PyAttributeError.

(** What a run shows to its surroundings besides the result: the warnings
    and the [-v] message of [self._display] (without their timestamps), and
    the calls of the loader.  The [vvv] debug output is left out. *)
Inductive event :=
  | EvMissingIgnored (source : string)
  | EvExtFiltered (filename : string)
  | EvLoad (filename : string)
  | EvProtected (key : string).

#[global] Instance event_eq_dec : EqDecision event.
Proof. solve_decision. Defined.

Inductive outcome (A : Type) :=
  | Done (a : A)
  | Raise (e : error)
  | Timeout.
Arguments Done {A} a.
Arguments Raise {A} e.
Arguments Timeout {A}.

(** What a computation leaves: the heap, and the events it gave out. *)
Record state := { st_heap : heap; st_trace : list event }.

(** Heap-passing computations that may fail and that give out events. *)
Definition M (A : Type) : Type := heap → outcome A * state.

#[global] Instance M_ret : MRet M := λ A a h,
  (Done a, {| st_heap := h; st_trace := [] |}).
#[global] Instance M_bind : MBind M := λ A B f m h,
  match m h with
  | (Done a, st) =>
      let r := f a (st_heap st) in
      (r.1, {| st_heap := st_heap r.2; st_trace := st_trace st ++ st_trace r.2 |})
  | (Raise e, st) => (Raise e, st)
  | (Timeout, st) => (Timeout, st)
  end.

Definition raise {A} (e : error) : M A := λ h,
  (Raise e, {| st_heap := h; st_trace := [] |}).
Definition timeout {A} : M A := λ h,
  (Timeout, {| st_heap := h; st_trace := [] |}).
Definition emit (ev : event) : M unit := λ h,
  (Done (), {| st_heap := h; st_trace := [ev] |}).
Definition get_heap : M heap := λ h,
  (Done h, {| st_heap := h; st_trace := [] |}).
Definition put_heap (h : heap) : M unit := λ _,
  (Done (), {| st_heap := h; st_trace := [] |}).
Definition new_obj (o : obj) : M loc :=
  h ← get_heap; let '(l, h') := alloc o h in put_heap h';; mret l.
Definition lift_fuel {A} (o : option A) : M A :=
  match o with Some a => mret a | None => timeout end.

(** Use of the object at [l] as a dict. *)
Definition expect_dict (l : loc) : M (gmap string val) :=
  h ← get_heap;
  match dict_at h l with Some d => mret d | None => raise PyTypeError end.

Fixpoint foldM {A B} (f : B → A → M B) (b : B) (l : list A) : M B :=
  match l with
  | [] => mret b
  | x :: r => b' ← f b x; foldM f b' r
  end.

(** *** The surroundings of a run *)

(** File system and loader ([self._loader.load_from_file]; [None] is a
    loader failure). *)
Record env := {
  isfile : string → bool;
  isdir : string → bool;
  listdir : string → list string;
  load_from_file : string → option Tree;
}.

(** [task_vars] and the extra-vars dict of the variable manager: two dict
    objects of the heap the run starts in. *)
Record context := { task_vars : loc; extra_vars : loc }.

(** [self._task.args]. [opt_other] holds the names of all further keys. *)
Record options := {
  opt_files : option (list string);
  opt_literals : option Tree;
  opt_ignore_missing_files : bool;
  opt_extensions : option (list string);
  opt_other : list string;
}.

Definition VALID_ARGUMENTS : list string :=
  ["files"; "literals"; "ignore_missing_files"; "extensions"].

Record result := {
  ansible_facts : loc;
  changed : bool;
  ansible_included_var_files : option (list string);
}.

(** *** Source resolution (lines 126-137) *)

(** The two names of line 126, [self._result['ansible_included_var_files']]
    and the local [files], start as one list object.  [files_own = None]
    says that [files] still is that object; [files = files + dirfiles]
    binds [files] to a new list. *)
Record file_lists := { included : list string; files_own : option (list string) }.

Definition files_of (ls : file_lists) : list string :=
  default (included ls) (files_own ls).

(** [files.append(source)] *)
Definition files_append (source : string) (ls : file_lists) : file_lists :=
  match files_own ls with
  | None => {| included := included ls ++ [source]; files_own := None |}
  | Some l => {| included := included ls; files_own := Some (l ++ [source]) |}
  end.

(** [files = files + dirfiles] *)
Definition files_rebind (dirfiles : list string) (ls : file_lists) : file_lists :=
  {| included := included ls; files_own := Some (files_of ls ++ dirfiles) |}.

(** [self._result['ansible_included_var_files'].append(filename)] *)
Definition included_append (filename : string) (ls : file_lists) : file_lists :=
  {| included := included ls ++ [filename]; files_own := files_own ls |}.

(** Lines 131-132: the files directly in [source], sorted. *)
Definition dirfiles (e : env) (source : string) : list string :=
  list_sort (filter (λ p, Is_true (isfile e p)) (join source <$> listdir e source)).

Definition resolve_source (e : env) (ignore_missing_files : bool)
    (ls : file_lists) (source : string) : M file_lists :=
  if isfile e source then mret (files_append source ls)
  else if isdir e source then mret (files_rebind (dirfiles e source) ls)
  else if negb (isfile e source || isdir e source) && ignore_missing_files
       then emit (EvMissingIgnored source);; mret ls
  else raise (SourceNotFoundError source).

Definition resolve (e : env) (ignore_missing_files : bool) (sources : list string)
  : M file_lists :=
  foldM (resolve_source e ignore_missing_files)
        {| included := []; files_own := None |} sources.

(** *** Loading and merging the files (lines 140-164) *)

(** [(not self.valid_extensions) or ext in self.valid_extensions] *)
Definition ext_allowed (extensions : option (list string)) (filename : string) : bool :=
  match extensions with
  | None | Some [] => true
  | Some l => bool_decide (splitext_ext filename ∈ l)
  end.

(** [v == n] and [v >= n] for an [int] constant [n]; [None] is the
    TypeError of an ordering that is not defined, and a NaN is neither equal
    to a number nor in order with it. *)
Definition eq_int (v : val) (n : Z) : bool :=
  match num_of v with Some a => num_eqb a (FFin n 0) | None => false end.

Definition ge_int (v : val) (n : Z) : option bool :=
  match v with
  | VNaN _ => Some false
  | _ => a ← num_of v; Some (num_leb (FFin n 0) a)
  end.

(** [(major, minor) >= (2, 19)]: tuples compare by their first differing
    items. *)
Definition version_ge_2_19 (major minor : val) : option bool :=
  if eq_int major 2 then
    if eq_int minor 19 then Some true else ge_int minor 19
  else ge_int major 2.

(** Lines 143-146; the keyword arguments chosen for the loader do not show
    in the model of the loader. *)
Definition ansible_version_tuple (c : context) : M bool :=
  tv ← expect_dict (task_vars c);
  h ← get_heap;
  match tv !! "ansible_version" with
  | None => raise (PyKeyError "ansible_version")
  | Some av =>
      match get_dict h av with
      | None => raise PyTypeError
      | Some d =>
          match d !! "major" with
          | None => raise (PyKeyError "major")
          | Some major =>
              match d !! "minor" with
              | None => raise (PyKeyError "minor")
              | Some minor =>
                  match version_ge_2_19 major minor with
                  | Some b => mret b
                  | None => raise PyTypeError
                  end
              end
          end
      end
  end.

(** Lines 155-157 and 196-197: if [k] is not in [hostvars_to_update] (the
    dict at [t]) and is in [task_vars], store a deep copy of [task_vars[k]]
    under [k].  Returns [task_vars[k]] when it did so. *)
Definition seed (depth : nat) (c : context) (t : loc) (k : string) : M (option val) :=
  dt ← expect_dict t;
  match dt !! k with
  | Some _ => mret None
  | None =>
      tv ← expect_dict (task_vars c);
      match tv !! k with
      | None => mret None
      | Some v =>
          h ← get_heap;
          '(v', _, h') ← lift_fuel (deepcopy depth ∅ v h);
          put_heap (dict_set t k v' h');;
          mret (Some v)
      end
  end.

(** Lines 153-157: the pre-seeding loop over the keys of the loaded file.
    [orig] holds the entries of [hostvars_to_update_files_orig], a dict that
    the run makes (line 140), fills here with the values of [task_vars]
    themselves (line 156) and only reads again in [deep_diff] (line 172); no
    other object refers to it, and the model keeps its entries as a map
    beside the heap. *)
Definition seed_file_key (depth : nat) (c : context) (t : loc)
    (orig : gmap string val) (k : string) : M (gmap string val) :=
  s ← seed depth c t k;
  mret (match s with Some v => <[k := v]> orig | None => orig end).

(** Lines 143-160 for one file: returns the new [orig] and the new object
    bound to [hostvars_to_update]. *)
Definition load_file (depth : nat) (e : env) (c : context) (filename : string)
    (orig : gmap string val) (t : loc) : M (gmap string val * loc) :=
  ansible_version_tuple c;;
  emit (EvLoad filename);;
  m ← match load_from_file e filename with
      | None => raise (LoaderError filename)
      | Some (Mapping m) => mret m
      | Some _ => raise PyAttributeError
      end;
  h ← get_heap;
  let '(cur, h') := alloc_tree (Mapping m) h in
  put_heap h';;
  cur_file_vars ← match get_dict h' cur with
                  | Some d => mret d
                  | None => raise PyAttributeError
                  end;
  orig' ← foldM (seed_file_key depth c t) orig (map_to_list cur_file_vars).*1;
  dt ← expect_dict t;
  h2 ← get_heap;
  '(dm, h3) ← lift_fuel (merge_hash depth dt cur_file_vars h2);
  put_heap h3;;
  t' ← new_obj (ODict dm);
  mret (orig', t').

(** The loop of line 141, [for filename in files], reads the list object of
    [files] at the next index in every round; [i] is that index. *)
Fixpoint load_loop (depth fuel : nat) (e : env) (extensions : option (list string))
    (c : context) (i : nat) (ls : file_lists) (orig : gmap string val) (t : loc)
  : M (file_lists * gmap string val * loc) :=
  match fuel with
  | 0 => timeout
  | S f =>
      match files_of ls !! i with
      | None => mret (ls, orig, t)
      | Some filename =>
          if ext_allowed extensions filename then
            '(orig', t') ← load_file depth e c filename orig t;
            load_loop depth f e extensions c (S i) (included_append filename ls) orig' t'
          else
            emit (EvExtFiltered filename);;
            load_loop depth f e extensions c (S i) ls orig t
      end
  end.

(** Lines 166-168. *)
Definition protect_key (c : context) (t : loc) (_ : unit) (unmergable : string) : M unit :=
  emit (EvProtected unmergable);;
  ev ← expect_dict (extra_vars c);
  match ev !! unmergable with
  | None => raise (PyKeyError unmergable)
  | Some v => h ← get_heap; put_heap (dict_set t unmergable v h)
  end.

Definition protect (c : context) (t : loc) : M unit :=
  dt ← expect_dict t;
  unmergables ←
    (if decide (dt = ∅) then mret []
     else ev ← expect_dict (extra_vars c);
          mret (filter (λ k, k ∈ dom ev) (map_to_list dt).*1));
  foldM (protect_key c t) () unmergables.

(** Lines 126-175: returns the lists, the object bound to
    [hostvars_to_update] and whether the diff is not empty. *)
Definition files_phase (depth : nat) (e : env) (o : options) (c : context)
    (sources : list string) (t : loc) : M (file_lists * loc * bool) :=
  ls ← resolve e (opt_ignore_missing_files o) sources;
  '(ls', orig, t') ← load_loop depth depth e (opt_extensions o) c 0 ls ∅ t;
  protect c t';;
  dt ← expect_dict t';
  h ← get_heap;
  diffs ← lift_fuel (deep_diff depth h orig dt "");
  mret (ls', t', bool_decide (0 < length diffs)).

(** *** Literal assignments (lines 177-211) *)

(** Lines 203-206, one round. *)
Definition walk_step (current : loc) (key : string) : M loc :=
  d ← expect_dict current;
  h ← get_heap;
  match d !! key ≫= get_dict h, d !! key with
  | Some _, Some (VRef l) => mret l
  | _, _ =>
      l ← new_obj (ODict ∅);
      h' ← get_heap;
      put_heap (dict_set current key (VRef l) h');;
      mret l
  end.

(** Lines 200-211: walk [keys[:-1]] from the dict at [t], then set
    [keys[-1]].  Returns whether the value compared unequal to the one that
    [current.get(keys[-1])] found. *)
Definition apply_literal (depth : nat) (t : loc) (keys : list string) (new_value : val)
  : M bool :=
  current ← foldM walk_step t (removelast keys);
  d ← expect_dict current;
  h ← get_heap;
  let k := default "" (last keys) in
  ne ← lift_fuel (py_ne depth h (default VNone (d !! k)) new_value);
  put_heap (dict_set current k new_value h);;
  mret ne.

(** One item of [literals] (lines 182-211).  The templar is the identity. *)
Definition literal_item (depth : nat) (c : context) (t : loc)
    (changed : bool) (item : Tree) : M bool :=
  match item with
  | Mapping m =>
      match m !! "path", m !! "value" with
      | Some p, Some v =>
          h ← get_heap;
          let '(new_value, h') := alloc_tree v h in
          put_heap h';;
          match p with
          | Scalar (SStr path_str) =>
              match split_dot path_str with
              | [] => raise InvalidPathError
              | k0 :: ks =>
                  ev ← expect_dict (extra_vars c);
                  if decide (k0 ∈ dom ev) then
                    emit (EvProtected k0);; mret changed
                  else
                    seed depth c t k0;;
                    ne ← apply_literal depth t (k0 :: ks) new_value;
                    mret (ne || changed)
              end
          | _ => raise PyAttributeError
          end
      | _, _ => raise InvalidLiteralError
      end
  | _ => raise InvalidLiteralError
  end.

Definition literals_phase (depth : nat) (c : context) (t : loc)
    (changed : bool) (literals : Tree) : M bool :=
  match literals with
  | Sequence items => foldM (literal_item depth c t) changed items
  | _ => raise InvalidLiteralError
  end.

(** *** [ActionModule.run] *)

Definition run (fuel : nat) (e : env) (o : options) (c : context) : M result :=
  let invalid_args := filter (λ arg, arg ∉ VALID_ARGUMENTS) (opt_other o) in
  if decide (invalid_args ≠ []) then raise (InvalidOptionsError invalid_args)
  else if decide (opt_files o = None ∧ opt_literals o = None)
       then raise MissingOptionsError
  else
    t0 ← new_obj (ODict ∅);
    '(inc, t1, ch1) ←
      match opt_files o with
      | Some sources =>
          '(ls, t', ch) ← files_phase fuel e o c sources t0;
          mret (Some (included ls), t', ch)
      | None => mret (None, t0, false)
      end;
    ch2 ← match opt_literals o with
          | Some literals => literals_phase fuel c t1 ch1 literals
          | None => mret ch1
          end;
    mret {| ansible_facts := t1; changed := ch2;
            ansible_included_var_files := inc |}.

End MergeVars.

Import MergeVars.

(** * Specification-side definitions and example inputs *)

Definition outcome_map {A B} (f : A → B) (o : outcome A) : outcome B :=
  match o with
  | Done a => Done (f a)
  | Raise e => Raise e
  | Timeout => Timeout
  end.

Definition source_exists (e : env) (source : string) : bool :=
  isfile e source || isdir e source.

(** Section 4.1: what one entry of the source list stands for.  A
    directory stands for its direct file children, sorted by name. *)
Definition entry_files (e : env) (source : string) : list string :=
  if isfile e source then [source]
  else if isdir e source then
    join source <$>
      list_sort (filter (λ n, Is_true (isfile e (join source n))) (listdir e source))
  else [].

(** Section 4.1: the resolved list, entry by entry in list order; the first
    missing entry fails the resolution unless missing entries are
    tolerated. *)
Fixpoint resolve_spec (e : env) (ignore_missing : bool) (sources : list string)
  : outcome (list string) :=
  match sources with
  | [] => Done []
  | s :: r =>
      if source_exists e s || ignore_missing
      then outcome_map (app (entry_files e s)) (resolve_spec e ignore_missing r)
      else Raise (SourceNotFoundError s)
  end.

(** The text that [join] puts in front of a name of directory [a]. *)
Definition dir_prefix (a : string) : string :=
  match a with
  | EmptyString => EmptyString
  | _ => if endswith_sep a then a else a +:+ "/"
  end.

(** An example file system: the file [f1.yml] and the directory [d1] with
    the files [b.yml], [a.yml] and a subdirectory [sub]. *)
Definition fs_example : env := {|
  isfile := λ p, bool_decide (p ∈ ["f1.yml"; "d1/a.yml"; "d1/b.yml"; "d1/sub/c.yml"]);
  isdir := λ p, bool_decide (p ∈ ["d1"; "d1/sub"]);
  listdir := λ p, if bool_decide (p = "d1") then ["b.yml"; "sub"; "a.yml"]
                  else if bool_decide (p = "d1/sub") then ["c.yml"] else [];
  load_from_file := λ p,
    if bool_decide (p = "d1/a.yml") then
      Some (Mapping {[ "a" := Mapping {[ "x" := Scalar (SInt 1) ]} ]})
    else if bool_decide (p = "d1/b.yml") then
      Some (Mapping (<[ "b" := Scalar (SInt 3) ]>
                       {[ "a" := Mapping {[ "y" := Scalar (SInt 2) ]} ]}))
    else if bool_decide (p = "f1.yml") then
      Some (Mapping {[ "c" := Scalar (SStr "z") ]})
    else None;
|}.

(** An example heap: [task_vars] (object 1) holds [ansible_version]
    (object 0), the extra-vars dict (object 2) is empty. *)
Definition heap_example : heap :=
  [ODict (<[ "major" := VInt 2 ]> {[ "minor" := VInt 19 ]});
   ODict {[ "ansible_version" := VRef 0 ]};
   ODict ∅].
Definition context_example : context := {| task_vars := 1; extra_vars := 2 |}.

(** The entries that [deep_diff] records for a list of keys, in order. *)
Definition diff_keys (fuel : nat) (h : heap) (d1 d2 : gmap string val)
    (path : string) (keys : list string) : option (list diff_entry) :=
  @concat _ <$> mapM (diff_key (deep_diff fuel h) fuel h d1 d2 path) keys.

(** One literal assignment, as an item of [literals]. *)
Definition literal (path : string) (value : Tree) : Tree :=
  Mapping (<[ "path" := Scalar (SStr path) ]> {[ "value" := value ]}).

Definition options_files (files : list string) : options :=
  {| opt_files := Some files; opt_literals := None;
     opt_ignore_missing_files := false; opt_extensions := None; opt_other := [] |}.

Definition options_literals (literals : list Tree) : options :=
  {| opt_files := None; opt_literals := Some (Sequence literals);
     opt_ignore_missing_files := false; opt_extensions := None; opt_other := [] |}.

(** The [EvLoad] events of a trace: the files given to the loader. *)
Definition loaded (tr : list event) : list string :=
  omap (λ ev, match ev with EvLoad f => Some f | _ => None end) tr.

(** [o] with another source list. *)
Definition set_files (files : list string) (o : options) : options :=
  {| opt_files := Some files; opt_literals := opt_literals o;
     opt_ignore_missing_files := opt_ignore_missing_files o;
     opt_extensions := opt_extensions o; opt_other := opt_other o |}.

(** The option keys are all recognised. *)
Definition valid_options (o : options) : Prop :=
  filter (λ arg, arg ∉ VALID_ARGUMENTS) (opt_other o) = [].

(** Two results that agree but for the events given out. *)
Definition same_result {A} (r r' : outcome A * state) : Prop :=
  r.1 = r'.1 ∧ st_heap r.2 = st_heap r'.2.

(** Every path in the two lists names an existing file. *)
Definition all_files (e : env) (ls : file_lists) : Prop :=
  Forall (λ p, isfile e p = true) (included ls) ∧
  Forall (λ p, isfile e p = true) (files_of ls).

(** Example options: a source list with a missing entry between a directory
    and a file, with and without tolerance. *)
Definition options_tolerant : options :=
  {| opt_files := Some ["d1"; "nope"; "f1.yml"]; opt_literals := None;
     opt_ignore_missing_files := true; opt_extensions := None; opt_other := [] |}.

Definition options_strict : options := options_files ["d1"; "nope"; "f1.yml"].

(** Example options: a file and a missing entry, no directory, with
    tolerance. *)
Definition options_tolerant_file : options :=
  {| opt_files := Some ["f1.yml"; "nope"]; opt_literals := None;
     opt_ignore_missing_files := true; opt_extensions := None; opt_other := [] |}.

(** ** Shapes of heaps *)

(** [o] holds a reference to the object [l']. *)
Definition obj_refs (o : obj) (l' : loc) : Prop :=
  match o with
  | ODict d => ∃ k, d !! k = Some (VRef l')
  | OList xs => VRef l' ∈ xs
  | ONaN => False
  end.

(** No reference leaves the heap. *)
Definition heap_wf (h : heap) : Prop :=
  ∀ l o l', h !! l = Some o → obj_refs o l' → l' < length h.

(** The dict [a] holds the dict [b] under the key [k]. *)
Definition link (h : heap) (a : loc) (k : string) (b : loc) : Prop :=
  ∃ d, dict_at h a = Some d ∧ d !! k = Some (VRef b) ∧ is_Some (dict_at h b).

(** [keys] lead from the dict [a] to the dict [b] through nested dicts. *)
Inductive path (h : heap) : loc → list string → loc → Prop :=
  | path_nil a : path h a [] a
  | path_cons a k b ks c : link h a k b → path h b ks c → path h a (k :: ks) c.

(** No dict is nested in itself. *)
Definition acyclic (h : heap) : Prop :=
  ∀ a ks, ks ≠ [] → ¬ path h a ks a.

(** [o] holds the value [v]. *)
Definition obj_holds (o : obj) (v : val) : Prop :=
  match o with
  | ODict d => ∃ k, d !! k = Some v
  | OList xs => v ∈ xs
  | ONaN => False
  end.

(** The container [l'] is reached from the value [v]: [v] refers to it, or
    it is reached from a value that the container of [v] holds. *)
Inductive reaches (h : heap) : val → loc → Prop :=
  | reaches_here l : reaches h (VRef l) l
  | reaches_step l o v l' :
      h !! l = Some o → obj_holds o v → reaches h v l' → reaches h (VRef l) l'.

(** ** A program logic for runs *)

(** From a heap in [P], the computation ends in [Q] when it returns and in
    [E] when it fails or runs out of fuel. *)
Definition triple {A} (P : heap → Prop) (m : M A) (Q : A → heap → Prop)
    (E : heap → Prop) : Prop :=
  ∀ h, P h →
    match (m h).1 with
    | Done a => Q a (st_heap (m h).2)
    | _ => E (st_heap (m h).2)
    end.

(** ** Old and new objects *)

(** [v] is a scalar or refers to a container among [lo .. hi - 1]. *)
Definition in_range (lo hi : nat) (v : val) : Prop :=
  match v with VRef l => lo ≤ l ∧ l < hi | _ => True end.

(** [v] is a scalar or refers to a container that the run made ([n0]
    objects were there before), other than the dict [t]. *)
Definition good (n0 t n : nat) (v : val) : Prop :=
  match v with VRef l => n0 ≤ l ∧ l < n ∧ l ≠ t | _ => True end.

Definition obj_all (P : val → Prop) (o : obj) : Prop :=
  match o with
  | ODict d => map_Forall (λ _, P) d
  | OList xs => Forall P xs
  | ONaN => True
  end.

(** The objects that were there before the run are as they were. *)
Definition frozen (h0 h : heap) : Prop :=
  ∀ l, l < length h0 → h !! l = h0 !! l.

(** The objects that the run made, but for [t], hold only such objects. *)
Definition closed (n0 t : nat) (h : heap) : Prop :=
  ∀ l o, n0 ≤ l → l ≠ t → h !! l = Some o → obj_all (good n0 t (length h)) o.

(** In [hostvars_to_update] (the dict [t]) a key of [ev] holds the value
    that [ev] has for it, and every other key holds objects that the run
    made. *)
Definition target_weak (n0 : nat) (ev : gmap string val) (t : nat) (h : heap) : Prop :=
  n0 ≤ t ∧ ∃ dt, dict_at h t = Some dt ∧
    map_Forall (λ k v, match ev !! k with
                       | Some pv => v = pv
                       | None => good n0 t (length h) v
                       end) dt.

(** The invariant of a run from the heap [h0], once the keys of [ev] are
    pinned. *)
Definition inv_weak (h0 : heap) (ev : gmap string val) (t : nat) (h : heap) : Prop :=
  frozen h0 h ∧ heap_wf h ∧ closed (length h0) t h ∧ target_weak (length h0) ev t h.

(** While the files are merged no key is pinned yet. *)
Definition inv_strong (h0 : heap) (t : nat) (h : heap) : Prop :=
  inv_weak h0 ∅ t h.

(** ** Deep copies *)

(** The first [n0] objects refer to each other only. *)
Definition region_closed (n0 : nat) (h : heap) : Prop :=
  ∀ l o, l < n0 → h !! l = Some o → obj_all (in_range 0 n0) o.

(** What [deepcopy] starts from: originals among the first [n0] objects,
    copies from [base] on. *)
Definition copy_pre (n0 base : nat) (memo : gmap loc loc) (h : heap) : Prop :=
  n0 ≤ base ∧ base ≤ length h ∧ region_closed n0 h ∧
  map_Forall (λ _ l', base ≤ l' ∧ l' < length h) memo.

(** What [deepcopy] leaves: the objects of [h] as they were, and new objects
    that refer to copies only. *)
Definition copy_post (base : nat) (h : heap) (memo' : gmap loc loc) (h' : heap) : Prop :=
  length h ≤ length h' ∧ (∀ l, l < length h → h' !! l = h !! l) ∧
  map_Forall (λ _ l', base ≤ l' ∧ l' < length h') memo' ∧
  (∀ l o, length h ≤ l → h' !! l = Some o → obj_all (in_range base (length h')) o).

(** The number of nodes of a tree. *)
Fixpoint tree_size (t : Tree) : nat :=
  match t with
  | Scalar _ => 1
  | Sequence l => S (foldr (λ t n, tree_size t + n) 0 l)
  | Mapping m => S (map_fold (λ _ t n, tree_size t + n) 0 m)
  end.

(** Some leaf of the tree is a NaN. *)
Fixpoint has_nan (t : Tree) : bool :=
  match t with
  | Scalar SNaN => true
  | Scalar _ => false
  | Sequence l => existsb has_nan l
  | Mapping m => map_fold (λ _ t b, has_nan t || b) false m
  end.

(** [h'] is [h] with new objects appended that refer to new objects only,
    and [v] is a scalar or one of the new objects. *)
Definition allocates (h h' : heap) (v : val) : Prop :=
  ∃ new, h' = h ++ new ∧ in_range (length h) (length h') v ∧
         Forall (obj_all (in_range (length h) (length h'))) new.

(** One round of the loops of [deepcopy] over the items of a container:
    [proj] is the value of an item, [upd] adds its copy to the new
    container. *)
Definition copy_items {Y Acc} (copy : gmap loc loc → val → heap → option (val * gmap loc loc * heap))
    (proj : Y → val) (upd : Acc → Y → val → Acc)
    (acc : option (Acc * gmap loc loc * heap)) (y : Y) : option (Acc * gmap loc loc * heap) :=
  '(a0, memo0, h0) ← acc;
  '(x', memo1, h1) ← copy memo0 (proj y) h0;
  Some (upd a0 y x', memo1, h1).

(** ** Merges *)

(** One round of the loop of [merge_hash] over the items of [y], with the
    recursive call [rec]. *)
Definition merge_item (rec : gmap string val → gmap string val → heap → option (gmap string val * heap))
    (x : gmap string val) (acc : option (gmap string val * heap)) (kv : string * val)
  : option (gmap string val * heap) :=
  '(d, h0) ← acc;
  match x !! kv.1 with
  | Some vx =>
      match get_dict h0 vx, get_dict h0 kv.2 with
      | Some dx, Some dy =>
          '(dm, h1) ← rec dx dy h0;
          Some (<[kv.1 := VRef (length h1)]> d, h1 ++ [ODict dm])
      | _, _ => Some (<[kv.1 := kv.2]> d, h0)
      end
  | None => Some (<[kv.1 := kv.2]> d, h0)
  end.

(** [h'] is [h] with new objects appended that hold only objects that the
    run made, other than the dict [t]. *)
Definition grows (n0 t : nat) (h h' : heap) : Prop :=
  ∃ new, h' = h ++ new ∧ Forall (obj_all (good n0 t (length h'))) new.

(** What holds of the run of [m] from the heap [h]: [Q] when it returns,
    [E] when it fails or runs out of fuel. *)
Definition wp {A} (m : M A) (Q : A → heap → Prop) (E : heap → Prop) (h : heap) : Prop :=
  match (m h).1 with
  | Done a => Q a (st_heap (m h).2)
  | _ => E (st_heap (m h).2)
  end.

(** The invariant while the keys [todo] are pinned (lines 166-168), the
    keys [done] already: a key of [ev] holds the value of [ev], or still
    waits for it. *)
Definition pinning (h0 : heap) (ev : gmap string val) (todo done : list string)
    (t : nat) (h : heap) : Prop :=
  frozen h0 h ∧ heap_wf h ∧ closed (length h0) t h ∧ length h0 ≤ t ∧
  ∃ dt, dict_at h t = Some dt ∧
    map_Forall (λ k v, match ev !! k with
                       | Some p => v = p ∨ ((k ∉ done) ∧ k ∈ todo ∧
                                            good (length h0) t (length h) v)
                       | None => good (length h0) t (length h) v
                       end) dt.

(** The example heap with an extra-vars dict that pins [b]. *)
Definition heap_pinned_example : heap :=
  [ODict (<[ "major" := VInt 2 ]> {[ "minor" := VInt 19 ]});
   ODict {[ "ansible_version" := VRef 0 ]};
   ODict {[ "b" := VInt 7 ]}].

(** ** Events of a run *)

(** Every event that [m] gives out, from whatever heap, is in [P]. *)
Definition emits {A} (P : event → Prop) (m : M A) : Prop :=
  ∀ h, Forall P (st_trace (m h).2).

(** The event is no use of the loader. *)
Definition no_load (ev : event) : Prop :=
  match ev with EvLoad _ => False | _ => True end.

(** The event is no use of the loader, or one on a regular file that the
    extension filter lets pass. *)
Definition load_allowed (e : env) (exts : option (list string)) (ev : event) : Prop :=
  match ev with
  | EvLoad f => isfile e f = true ∧ ext_allowed exts f = true
  | _ => True
  end.

(** The file entries of a source list that come before its first directory
    entry: the ones that [files.append] adds while [files] still is the list
    of the result (line 126). *)
Fixpoint before_first_dir (e : env) (sources : list string) : list string :=
  match sources with
  | [] => []
  | s :: r =>
      if isfile e s then s :: before_first_dir e r
      else if isdir e s then []
      else before_first_dir e r
  end.

(** ** Errors of a run *)

(** Every error that [m] raises, from whatever heap, is in [P]. *)
Definition raises {A} (P : error → Prop) (m : M A) : Prop :=
  ∀ h err, (m h).1 = Raise err → P err.

(** An item of [literals] that line 183 accepts. *)
Definition literal_wellformed (item : Tree) : Prop :=
  match item with
  | Mapping m => is_Some (m !! "path") ∧ is_Some (m !! "value")
  | _ => False
  end.

(** What must hold of the file system and of the options for a run to raise
    the error: the errors of the plugin itself have one cause each, and
    the path error has none. *)
Definition error_cause (e : env) (o : options) (err : error) : Prop :=
  match err with
  | InvalidOptionsError l =>
      l = filter (λ arg, arg ∉ VALID_ARGUMENTS) (opt_other o) ∧ l ≠ []
  | MissingOptionsError =>
      valid_options o ∧ opt_files o = None ∧ opt_literals o = None
  | SourceNotFoundError s =>
      opt_ignore_missing_files o = false ∧ isfile e s = false ∧ isdir e s = false ∧
      ∃ sources, opt_files o = Some sources ∧ s ∈ sources
  | LoaderError f =>
      isfile e f = true ∧ ext_allowed (opt_extensions o) f = true ∧
      load_from_file e f = None
  | InvalidLiteralError =>
      ∃ literals, opt_literals o = Some literals ∧
        match literals with
        | Sequence items => ∃ item, item ∈ items ∧ ¬ literal_wellformed item
        | _ => True
        end
  | InvalidPathError => False
  | _ => True
  end.

(** ** The keys of the result *)

(** The top-level keys of a file, as the loader reads it. *)
Definition file_keys (e : env) (f : string) : gset string :=
  match load_from_file e f with
  | Some (Mapping m) => dom m
  | _ => ∅
  end.

Definition keys_of_files (e : env) (files : list string) : gset string :=
  ⋃ (file_keys e <$> files).

(** The top-level key that an item of [literals] sets (lines 188-211): the
    first key of its path, unless extra-vars has it (line 192). *)
Definition literal_key (ev : gmap string val) (item : Tree) : gset string :=
  match item with
  | Mapping m =>
      match m !! "path" with
      | Some (Scalar (SStr path_str)) =>
          match split_dot path_str with
          | k0 :: _ => if decide (k0 ∈ dom ev) then ∅ else {[ k0 ]}
          | [] => ∅
          end
      | _ => ∅
      end
  | _ => ∅
  end.

Definition keys_of_literals (ev : gmap string val) (literals : option Tree) : gset string :=
  match literals with
  | Some (Sequence items) => ⋃ (literal_key ev <$> items)
  | _ => ∅
  end.

(** The keys of the dict [t] are between [lo] and [hi]. *)
Definition keys_between (t : loc) (lo hi : gset string) (h : heap) : Prop :=
  ∃ dt, dict_at h t = Some dt ∧ lo ⊆ dom dt ∧ dom dt ⊆ hi.

(** [f] is an entry of the source list, or a name listed in a directory
    that is an entry of the source list. *)
Definition from_sources (e : env) (sources : list string) (f : string) : Prop :=
  f ∈ sources ∨
  ∃ s n, s ∈ sources ∧ isdir e s = true ∧ n ∈ listdir e s ∧ f = join s n.

(** * Properties *)

Section string_order.
Lemma ascii_compare_refl c : Ascii.compare c c = Eq.
Proof. unfold Ascii.compare. apply N.compare_refl. Qed.

Lemma str_compare_prefix p a b :
  String.compare (p +:+ a) (p +:+ b) = String.compare a b.
Proof. induction p as [|c p IH]; simpl; [done|]. by rewrite ascii_compare_refl. Qed.

Lemma ascii_compare_trans x y z :
  Ascii.compare x y ≠ Gt → Ascii.compare y z ≠ Gt →
  Ascii.compare x z ≠ Gt ∧
  (Ascii.compare x z = Eq → Ascii.compare x y = Eq ∧ Ascii.compare y z = Eq).
Proof.
  unfold Ascii.compare.
  destruct (N.compare_spec (N_of_ascii x) (N_of_ascii y)),
           (N.compare_spec (N_of_ascii y) (N_of_ascii z)),
           (N.compare_spec (N_of_ascii x) (N_of_ascii z)); intros; split; intros;
    try done; lia.
Qed.

Lemma str_compare_trans a b c :
  String.compare a b ≠ Gt → String.compare b c ≠ Gt → String.compare a c ≠ Gt.
Proof.
  revert b c. induction a as [|x a IH]; intros [|y b] [|z c]; simpl; try done.
  intros Hab Hbc.
  destruct (ascii_compare_trans x y z) as [H1 H2].
  - by destruct (Ascii.compare x y).
  - by destruct (Ascii.compare y z).
  - destruct (Ascii.compare x z) eqn:Hxz; try done.
    destruct H2 as [Hxy Hyz]; [done|]. rewrite Hxy in Hab. rewrite Hyz in Hbc.
    by apply (IH b c).
Qed.

#[global] Instance str_le_total : Total str_le.
Proof.
  intros a b. unfold str_le. destruct (String.leb_total a b) as [->| ->]; [by left|by right].
Qed.

#[global] Instance str_le_trans : Transitive str_le.
Proof.
  intros a b c. unfold str_le, String.leb. intros Hab Hbc.
  pose proof (str_compare_trans a b c) as H.
  destruct (String.compare a b), (String.compare b c), (String.compare a c);
    try done; exfalso; by apply H.
Qed.

#[global] Instance str_le_antisymm : AntiSymm (=) str_le.
Proof.
  intros a b Hab Hba. apply String.leb_antisym; by apply Is_true_true.
Qed.

Lemma str_le_prefix p a b : str_le (p +:+ a) (p +:+ b) ↔ str_le a b.
Proof. unfold str_le, String.leb. by rewrite str_compare_prefix. Qed.

Lemma list_sort_sorted l : Sorted str_le (list_sort l).
Proof. apply (Sorted_merge_sort str_le). Qed.

Lemma list_sort_perm l : list_sort l ≡ₚ l.
Proof. apply (merge_sort_Permutation str_le). Qed.

Lemma list_sort_unique l l' : Sorted str_le l' → l' ≡ₚ l → list_sort l = l'.
Proof.
  intros Hs Hp. apply (Sorted_unique str_le).
  - apply list_sort_sorted.
  - done.
  - by rewrite list_sort_perm.
Qed.

Lemma list_sort_prefix p l :
  list_sort ((λ n, p +:+ n) <$> l) = (λ n, p +:+ n) <$> list_sort l.
Proof.
  apply list_sort_unique.
  - apply (Sorted_fmap _ str_le str_le); [|apply list_sort_sorted].
    intros x y. by rewrite str_le_prefix.
  - by rewrite list_sort_perm.
Qed.
End string_order.

(** ** The source resolver *)

Ltac munfold :=
  unfold mbind, M_bind, mret, M_ret, raise, timeout, emit, get_heap, put_heap,
    lift_fuel in *.

Lemma files_of_append s ls : files_of (files_append s ls) = files_of ls ++ [s].
Proof. unfold files_of, files_append. by destruct (files_own ls). Qed.

Lemma files_of_rebind d ls : files_of (files_rebind d ls) = files_of ls ++ d.
Proof. done. Qed.

Lemma str_app_assoc a b c : (a +:+ b) +:+ c = a +:+ (b +:+ c).
Proof.
  induction a as [|x a IH]; [done|].
  change (String x ((a +:+ b) +:+ c) = String x (a +:+ (b +:+ c))). by rewrite IH.
Qed.

Lemma join_dir_prefix a n : startswith_sep n = false → join a n = dir_prefix a +:+ n.
Proof.
  intros Hn. unfold join, dir_prefix. rewrite Hn.
  destruct a as [|c a]; [done|].
  destruct (endswith_sep (String c a)); [done|].
  by rewrite str_app_assoc.
Qed.

Lemma filter_join_prefix (e : env) (s : string) (l : list string) :
  (∀ n, n ∈ l → startswith_sep n = false) →
  filter (λ p, Is_true (isfile e p)) (join s <$> l) =
  (λ n, dir_prefix s +:+ n) <$> filter (λ n, Is_true (isfile e (join s n))) l.
Proof.
  induction l as [|n l IH]; intros Hl; [done|].
  rewrite fmap_cons, !filter_cons.
  rewrite IH by (intros; apply Hl; by right).
  destruct (decide _); [|done].
  rewrite fmap_cons. f_equal. apply join_dir_prefix, Hl. by left.
Qed.

Lemma dirfiles_by_name (e : env) (s : string) :
  (∀ n, n ∈ listdir e s → startswith_sep n = false) →
  dirfiles e s =
  join s <$> list_sort (filter (λ n, Is_true (isfile e (join s n))) (listdir e s)).
Proof.
  intros Hnames. unfold dirfiles.
  rewrite filter_join_prefix, list_sort_prefix by done.
  apply list_fmap_ext. intros i n Hin. symmetry.
  apply join_dir_prefix, Hnames.
  apply list_elem_of_lookup_2 in Hin. rewrite list_sort_perm in Hin.
  by apply list_elem_of_filter in Hin as [_ Hin].
Qed.

Lemma resolve_from (e : env) (ign : bool)
    (Hnames : ∀ s n, n ∈ listdir e s → startswith_sep n = false)
    (sources : list string) (ls : file_lists) (h : heap) :
  outcome_map files_of (foldM (resolve_source e ign) ls sources h).1 =
  outcome_map (app (files_of ls)) (resolve_spec e ign sources).
Proof.
  revert ls h. induction sources as [|s r IH]; intros ls h; simpl.
  { by rewrite app_nil_r. }
  unfold resolve_source, source_exists, entry_files. munfold.
  destruct (isfile e s) eqn:Hf; simpl.
  - rewrite IH, files_of_append.
    destruct (resolve_spec e ign r); simpl; by rewrite <- ?app_assoc.
  - destruct (isdir e s) eqn:Hd; simpl.
    + rewrite IH, files_of_rebind. rewrite dirfiles_by_name by (intros; by eapply Hnames).
      destruct (resolve_spec e ign r); simpl; by rewrite <- ?app_assoc.
    + destruct ign; simpl; [|done].
      rewrite IH. by destruct (resolve_spec e true r).
Qed.

(** C8.  Given that the names listed in a directory do not start with a
    slash, the list that the resolver leaves in [files] is the source list
    resolved entry by entry in list order: an existing file as it is, an
    existing directory as its direct file children sorted by name, and a
    missing entry as nothing when tolerated and as a failure otherwise. *)
Theorem resolve_sources_in_order (e : env) (ign : bool) (sources : list string)
    (h : heap)
    (Hnames : ∀ s n, n ∈ listdir e s → startswith_sep n = false) :
  outcome_map files_of (resolve e ign sources h).1 = resolve_spec e ign sources.
Proof.
  unfold resolve. rewrite resolve_from by done.
  by destruct (resolve_spec e ign sources).
Qed.

Lemma resolve_sources_in_order_witness :
  (∀ s n, n ∈ listdir fs_example s → startswith_sep n = false) ∧
  outcome_map files_of (resolve fs_example false ["d1"; "f1.yml"] heap_example).1
  = Done ["d1/a.yml"; "d1/b.yml"; "f1.yml"].
Proof.
  assert (H : ∀ s n, n ∈ listdir fs_example s → startswith_sep n = false).
  { intros s n. simpl. repeat case_bool_decide; intros Hn;
      repeat (apply elem_of_cons in Hn as [->|Hn]; [done|]);
      by apply elem_of_nil in Hn. }
  split; [exact H|].
  rewrite (resolve_sources_in_order fs_example false ["d1"; "f1.yml"] heap_example H).
  vm_compute. reflexivity.
Defined.

(** ** Deep merge *)

Lemma merge_mapping_lookup (A B : gmap string Tree) (k : string) :
  union_with (λ b o, Some (merge b o)) A B !! k =
  match A !! k, B !! k with
  | Some a, Some b => Some (merge a b)
  | Some a, None => Some a
  | None, Some b => Some b
  | None, None => None
  end.
Proof. rewrite lookup_union_with. by destruct (A !! k), (B !! k). Qed.

(** C5.  The merge of two mappings holds the keys of either side alone
    with their values and the shared keys with the recursively merged
    values; the empty mapping is neutral on both sides; and as soon as one
    side is not a mapping the overlay is the result. *)
Theorem merge_contract :
  (∀ A B : gmap string Tree,
     ∃ R, merge (Mapping A) (Mapping B) = Mapping R ∧
          ∀ k, R !! k = match A !! k, B !! k with
                        | Some a, Some b => Some (merge a b)
                        | Some a, None => Some a
                        | None, Some b => Some b
                        | None, None => None
                        end) ∧
  (∀ A, merge (Mapping A) (Mapping ∅) = Mapping A) ∧
  (∀ B, merge (Mapping ∅) (Mapping B) = Mapping B) ∧
  (∀ s Y, merge (Scalar s) Y = Y) ∧
  (∀ l Y, merge (Sequence l) Y = Y) ∧
  (∀ X s, merge X (Scalar s) = Scalar s) ∧
  (∀ X l, merge X (Sequence l) = Sequence l).
Proof.
  repeat split.
  - intros A B. eexists. split; [done|]. apply merge_mapping_lookup.
  - intros A. simpl. f_equal. apply map_eq. intros k.
    rewrite merge_mapping_lookup, lookup_empty. by destruct (A !! k).
  - intros B. simpl. f_equal. apply map_eq. intros k.
    rewrite merge_mapping_lookup, lookup_empty. by destruct (B !! k).
  - by intros [].
  - by intros [].
Qed.

(** ** Structural diff *)

Lemma foldl_option_None {A B} (f : option B → A → option B) (l : list A) :
  (∀ x, f None x = None) → foldl f None l = None.
Proof. intros Hf. induction l as [|x l IH]; simpl; [done|]. by rewrite Hf. Qed.

Lemma foldl_collect {A B} (g : A → option (list B)) (init : list B) (l : list A) :
  foldl (λ acc x, diffs ← acc; e ← g x; Some (diffs ++ e)) (Some init) l =
  (λ es, init ++ concat es) <$> mapM g l.
Proof.
  revert init. induction l as [|x l IH]; intros init; simpl.
  { by rewrite app_nil_r. }
  destruct (g x) as [e|]; simpl.
  - rewrite IH. destruct (mapM g l); simpl; [|done]. by rewrite app_assoc.
  - by apply foldl_option_None.
Qed.

Lemma deep_diff_unfold fuel h d1 d2 path :
  deep_diff (S fuel) h d1 d2 path = diff_keys fuel h d1 d2 path (key_union d1 d2).
Proof. unfold diff_keys. simpl. by rewrite foldl_collect. Qed.





(** ** Literal paths *)

Lemma split_dot_nonempty (s : string) : split_dot s ≠ [].
Proof.
  induction s as [|c r IH]; simpl; [done|].
  destruct (is_dot c); [done|]. by destruct (split_dot r).
Qed.

(** C2 (defect).  [str.split] never returns an empty list, so the test of
    line 189 cannot fire: a literal with the empty path sets the key with
    the empty name in the result, and the run reports a change. *)
Theorem empty_path_is_applied :
  (∀ s, split_dot s ≠ []) ∧
  ∃ st,
    run 1 fs_example (options_literals [literal "" (Scalar (SInt 9))])
        context_example heap_example
    = (Done {| ansible_facts := 3; changed := true;
               ansible_included_var_files := None |}, st) ∧
    dict_at (st_heap st) 3 = Some {[ "" := VInt 9 ]}.
Proof.
  split; [apply split_dot_nonempty|].
  eexists. split; [vm_compute; reflexivity|]. vm_compute. reflexivity.
Qed.

(** ** The list of included files *)

(** C3 (defect).  A file entry that comes before the first directory entry
    is listed twice: once by [files.append], while [files] still is the
    list of the result, and once when it is loaded. *)
Theorem included_files_duplicates :
  ∃ r st,
    run 4 fs_example (options_files ["f1.yml"; "d1"]) context_example heap_example
    = (Done r, st) ∧
    ansible_included_var_files r = Some ["f1.yml"; "f1.yml"; "d1/a.yml"; "d1/b.yml"] ∧
    loaded (st_trace st) = ["f1.yml"; "d1/a.yml"; "d1/b.yml"].
Proof.
  eexists _, _. split; [vm_compute; reflexivity|]. split; vm_compute; reflexivity.
Qed.

Lemma bind_done_inv {A B} (m : M A) (f : A → M B) h b st :
  (m ≫= f) h = (Done b, st) →
  ∃ a st1 st2, m h = (Done a, st1) ∧ f a (st_heap st1) = (Done b, st2) ∧
    st = {| st_heap := st_heap st2; st_trace := st_trace st1 ++ st_trace st2 |}.
Proof.
  unfold mbind, M_bind. destruct (m h) as [[a| |] st1]; [|done..].
  destruct (f a (st_heap st1)) as [o st2] eqn:Hf. simpl. intros [= -> <-].
  exists a, st1, st2. by rewrite Hf.
Qed.

Lemma bind_not_done {A B} (m : M A) (f : A → M B) h :
  (∀ a st1, m h = (Done a, st1) → ∀ b st2, f a (st_heap st1) ≠ (Done b, st2)) →
  ∀ b st, (m ≫= f) h ≠ (Done b, st).
Proof.
  intros H b st Hb. apply bind_done_inv in Hb as (a & st1 & st2 & Hm & Hf & _).
  by eapply H.
Qed.

(** While [files] is the list of the result, a file that passes the
    extension filter keeps the loop of line 141 from ending: every round
    that loads a file appends one more to the list that the loop reads. *)
Lemma load_loop_no_end depth fuel e exts c i ls orig t h j f :
  files_own ls = None →
  i ≤ j → included ls !! j = Some f → ext_allowed exts f = true →
  ∀ r st', load_loop depth fuel e exts c i ls orig t h ≠ (Done r, st').
Proof.
  revert i ls orig t h j f.
  induction fuel as [|fuel IH]; intros i ls orig t h j f Hown Hij Hj Hf r st'; [done|].
  simpl. unfold files_of. rewrite Hown. simpl.
  destruct (included ls !! i) as [filename|] eqn:Hi.
  2:{ apply lookup_ge_None in Hi. apply lookup_lt_Some in Hj. lia. }
  destruct (ext_allowed exts filename) eqn:Hext.
  - apply bind_not_done. intros [orig' t'] st1 _ r' st2.
    apply (IH _ _ _ _ _ (length (included ls)) filename); simpl; [done| |..|done].
    + apply lookup_lt_Some in Hi. lia.
    + by rewrite lookup_app_r, Nat.sub_diag by lia.
  - apply bind_not_done. intros [] st1 _ r' st2.
    apply (IH _ _ _ _ _ j f); [done| |done..].
    destruct (decide (i = j)) as [->|]; [|lia]. congruence.
Qed.

(** ** Steps of the monad *)

Lemma bind_done {A B} (m : M A) (f : A → M B) h a st1 :
  m h = (Done a, st1) →
  (m ≫= f) h =
  ((f a (st_heap st1)).1,
   {| st_heap := st_heap (f a (st_heap st1)).2;
      st_trace := st_trace st1 ++ st_trace (f a (st_heap st1)).2 |}).
Proof. unfold mbind, M_bind. by intros ->. Qed.

Lemma bind_raise {A B} (m : M A) (f : A → M B) h e st1 :
  m h = (Raise e, st1) → (m ≫= f) h = (Raise e, st1).
Proof. unfold mbind, M_bind. by intros ->. Qed.

Lemma bind_timeout {A B} (m : M A) (f : A → M B) h st1 :
  m h = (Timeout, st1) → (m ≫= f) h = (Timeout, st1).
Proof. unfold mbind, M_bind. by intros ->. Qed.

(** The events of the first part of a sequence stay in front. *)
Lemma bind_trace_l {A B} (m : M A) (f : A → M B) h ev :
  ev ∈ st_trace (m h).2 → ev ∈ st_trace ((m ≫= f) h).2.
Proof.
  unfold mbind, M_bind. destruct (m h) as [[a| |] st1]; simpl; [|done..].
  intros. apply elem_of_app. by left.
Qed.

Lemma bind_same_l {A B} (m m' : M A) (f : A → M B) h :
  same_result (m h) (m' h) → same_result ((m ≫= f) h) ((m' ≫= f) h).
Proof.
  unfold same_result, mbind, M_bind.
  destruct (m h) as [o st], (m' h) as [o' st']. simpl. intros [<- Hh].
  destruct o; simpl; [|done..]. by rewrite Hh.
Qed.

Lemma bind_same_r {A B} (m : M A) (f f' : A → M B) h :
  (∀ a h', same_result (f a h') (f' a h')) →
  same_result ((m ≫= f) h) ((m ≫= f') h).
Proof.
  unfold same_result, mbind, M_bind. intros H.
  destruct (m h) as [[a| |] st]; simpl; [|done..]. apply H.
Qed.

(** ** Missing sources *)

Lemma resolve_source_heap e ign ls s h :
  st_heap (resolve_source e ign ls s h).2 = h.
Proof.
  unfold resolve_source.
  destruct (isfile e s); [done|]. destruct (isdir e s); [done|].
  by destruct ign.
Qed.

Lemma resolve_from_heap e ign sources ls h :
  st_heap (foldM (resolve_source e ign) ls sources h).2 = h.
Proof.
  revert ls h. induction sources as [|s r IH]; intros ls h; [done|].
  simpl. unfold mbind, M_bind.
  pose proof (resolve_source_heap e ign ls s h) as Hs.
  destruct (resolve_source e ign ls s h) as [[ls'| |] st]; simpl in *; [|done..].
  by rewrite Hs, IH.
Qed.

(** With tolerance off, the first missing entry stops the resolver, which
    has given out nothing until then. *)
Lemma resolve_from_missing e sources s ls h :
  s ∈ sources → source_exists e s = false →
  ∃ s' l1 l2, sources = l1 ++ s' :: l2 ∧ source_exists e s' = false ∧
    Forall (λ x, source_exists e x = true) l1 ∧
    foldM (resolve_source e false) ls sources h =
    (Raise (SourceNotFoundError s'), {| st_heap := h; st_trace := [] |}).
Proof.
  revert ls h. induction sources as [|x r IH]; intros ls h Hin Hs.
  { by apply elem_of_nil in Hin. }
  destruct (source_exists e x) eqn:Hx.
  - assert (Hr : s ∈ r).
    { apply elem_of_cons in Hin as [->|]; [congruence|done]. }
    assert (Hstep : ∃ ls', resolve_source e false ls x h =
                           (Done ls', {| st_heap := h; st_trace := [] |})).
    { unfold resolve_source, source_exists in *.
      destruct (isfile e x); [by eexists|]. destruct (isdir e x); [by eexists|done]. }
    destruct Hstep as [ls' Hstep].
    destruct (IH ls' h Hr Hs) as (s' & l1 & l2 & -> & Hs' & Hl1 & Hrun).
    exists s', (x :: l1), l2. split; [done|]. split; [done|].
    split; [by constructor|].
    simpl. rewrite (bind_done _ _ _ _ _ Hstep). simpl. by rewrite Hrun.
  - exists x, [], r. split; [done|]. split; [done|]. split; [done|].
    simpl. apply bind_raise.
    unfold resolve_source, source_exists in *.
    destruct (isfile e x); [done|]. by destruct (isdir e x).
Qed.

Lemma resolve_source_tolerant e ls x h :
  ∃ ls' tr, resolve_source e true ls x h =
            (Done ls', {| st_heap := h; st_trace := tr |}).
Proof.
  unfold resolve_source.
  destruct (isfile e x); [by eexists _, _|].
  destruct (isdir e x); by eexists _, _.
Qed.

(** A tolerated missing entry changes nothing but the events. *)
Lemma resolve_from_skip e l1 s l2 ls h :
  source_exists e s = false →
  same_result (foldM (resolve_source e true) ls (l1 ++ s :: l2) h)
              (foldM (resolve_source e true) ls (l1 ++ l2) h) ∧
  EvMissingIgnored s ∈ st_trace (foldM (resolve_source e true) ls (l1 ++ s :: l2) h).2.
Proof.
  intros Hs. revert ls h. induction l1 as [|x l1 IH]; intros ls h.
  - assert (Hstep : resolve_source e true ls s h =
                    (Done ls, {| st_heap := h; st_trace := [EvMissingIgnored s] |})).
    { unfold resolve_source, source_exists in *.
      destruct (isfile e s); [done|]. by destruct (isdir e s). }
    simpl. rewrite (bind_done _ _ _ _ _ Hstep). simpl. split; [done|by left].
  - destruct (resolve_source_tolerant e ls x h) as (ls' & tr & Hstep).
    simpl. rewrite !(bind_done _ _ _ _ _ Hstep). simpl.
    destruct (IH ls' h) as [[H1 H2] H3]. split; [done|].
    apply elem_of_app. by right.
Qed.

Lemma dirfiles_are_files e s : Forall (λ p, isfile e p = true) (dirfiles e s).
Proof.
  apply Forall_forall. intros p Hp. unfold dirfiles in Hp.
  rewrite list_sort_perm in Hp. apply list_elem_of_filter in Hp as [Hp _].
  by apply Is_true_true.
Qed.

Lemma resolve_source_all_files e ign ls s h ls' st :
  all_files e ls → resolve_source e ign ls s h = (Done ls', st) → all_files e ls'.
Proof.
  intros [Hi Hf]. unfold resolve_source.
  destruct (isfile e s) eqn:Hs.
  - intros [= <- _]. unfold all_files, files_of, files_append in *.
    destruct (files_own ls); simpl in *; (split; [|apply Forall_app; split]);
      try done; try (apply Forall_app; split); try done; by repeat constructor.
  - destruct (isdir e s).
    + intros [= <- _]. split; [done|]. simpl. apply Forall_app. split; [done|].
      apply dirfiles_are_files.
    + destruct ign; simpl; [|done]. by intros [= <- _].
Qed.

Lemma resolve_from_all_files e ign sources ls h ls' st :
  all_files e ls → foldM (resolve_source e ign) ls sources h = (Done ls', st) →
  all_files e ls'.
Proof.
  revert ls h ls' st. induction sources as [|s r IH]; intros ls h ls' st Hls; simpl.
  { by intros [= <- _]. }
  intros H. apply bind_done_inv in H as (ls1 & st1 & st2 & H1 & H2 & _).
  eapply IH; [|exact H2]. by eapply resolve_source_all_files.
Qed.

Lemma load_loop_all_files depth fuel e exts c i ls orig t h ls' orig' t' st :
  all_files e ls →
  load_loop depth fuel e exts c i ls orig t h = (Done (ls', orig', t'), st) →
  all_files e ls'.
Proof.
  revert i ls orig t h st. induction fuel as [|fuel IH]; intros i ls orig t h st Hls;
    [done|].
  simpl. destruct (files_of ls !! i) as [filename|] eqn:Hi.
  2:{ by intros [= <- _ _]. }
  assert (Hfile : isfile e filename = true).
  { destruct Hls as [_ Hf]. rewrite Forall_forall in Hf.
    apply Hf. by eapply list_elem_of_lookup_2. }
  destruct (ext_allowed exts filename).
  - intros H. apply bind_done_inv in H as ([orig1 t1] & st1 & st2 & _ & H2 & _).
    eapply IH; [|exact H2].
    destruct Hls as [Hinc Hf]. unfold all_files, files_of, included_append in *.
    simpl. destruct (files_own ls); simpl in *.
    + split; [|done]. apply Forall_app. split; [done|]. by repeat constructor.
    + split; apply Forall_app; (split; [done|]); by repeat constructor.
  - intros H. apply bind_done_inv in H as ([] & st1 & st2 & _ & H2 & _).
    by eapply IH.
Qed.

Lemma files_phase_all_files depth e o c sources t h ls t' ch st :
  files_phase depth e o c sources t h = (Done (ls, t', ch), st) → all_files e ls.
Proof.
  unfold files_phase. intros H.
  apply bind_done_inv in H as (ls0 & st1 & st2 & Hres & H & _).
  apply bind_done_inv in H as ([[ls1 orig] t1] & st3 & st4 & Hload & H & _).
  apply bind_done_inv in H as ([] & st5 & st6 & _ & H & _).
  apply bind_done_inv in H as (dt & st7 & st8 & _ & H & _).
  apply bind_done_inv in H as (h' & st9 & st10 & _ & H & _).
  apply bind_done_inv in H as (diffs & st11 & st12 & _ & H & _).
  injection H as <- <- <- _.
  eapply load_loop_all_files; [|exact Hload].
  eapply resolve_from_all_files; [|exact Hres]. by split.
Qed.

Lemma run_included_are_files fuel e o c h r st inc p :
  run fuel e o c h = (Done r, st) → ansible_included_var_files r = Some inc →
  p ∈ inc → isfile e p = true.
Proof.
  unfold run. destruct (decide _); [done|]. destruct (decide _); [done|].
  intros H. apply bind_done_inv in H as (t0 & st1 & st2 & _ & H & _).
  apply bind_done_inv in H as ([[inc' t1] ch1] & st3 & st4 & Hfiles & H & _).
  apply bind_done_inv in H as (ch2 & st5 & st6 & _ & H & _).
  injection H as <- _. simpl. intros ->.
  destruct (opt_files o) as [sources|]; [|done].
  apply bind_done_inv in Hfiles as ([[ls t'] ch] & st7 & st8 & Hphase & H & _).
  injection H as <- _ _ _.
  apply files_phase_all_files in Hphase as [Hinc _].
  rewrite Forall_forall in Hinc. apply Hinc.
Qed.

Lemma new_obj_run o h :
  new_obj o h = (Done (length h), {| st_heap := h ++ [o]; st_trace := [] |}).
Proof. done. Qed.

(** With tolerance off, a run whose source list has a missing entry stops
    in the resolver, at the first missing entry. *)
Lemma run_missing_fails fuel e o c h sources s :
  valid_options o → opt_files o = Some sources →
  opt_ignore_missing_files o = false →
  s ∈ sources → source_exists e s = false →
  ∃ s' k1 k2, sources = k1 ++ s' :: k2 ∧ source_exists e s' = false ∧
    Forall (λ x, source_exists e x = true) k1 ∧
    run fuel e o c h =
    (Raise (SourceNotFoundError s'), {| st_heap := h ++ [ODict ∅]; st_trace := [] |}).
Proof.
  intros Hvalid Hfiles Hign Hin Hs.
  destruct (resolve_from_missing e sources s {| included := []; files_own := None |}
              (h ++ [ODict ∅]) Hin Hs) as (s' & k1 & k2 & Hsplit & Hs' & Hk1 & Hres).
  exists s', k1, k2. repeat (split; [done|]).
  unfold run. unfold valid_options in Hvalid. rewrite Hvalid.
  destruct (decide ([] ≠ [])); [done|].
  destruct (decide _) as [[Hnone _]|_]; [congruence|].
  rewrite (bind_done _ _ _ _ _ (new_obj_run _ _)). simpl.
  rewrite Hfiles.
  assert (Hphase : files_phase fuel e o c sources (length h) (h ++ [ODict ∅]) =
            (Raise (SourceNotFoundError s'),
             {| st_heap := h ++ [ODict ∅]; st_trace := [] |})).
  { unfold files_phase. apply bind_raise. unfold resolve. rewrite Hign. exact Hres. }
  by rewrite (bind_raise _ _ _ _ _ (bind_raise _ _ _ _ _ Hphase)).
Qed.

Lemma first_missing_unique e (l1 l2 k1 k2 : list string) s s' :
  l1 ++ s :: l2 = k1 ++ s' :: k2 →
  source_exists e s = false → source_exists e s' = false →
  Forall (λ x, source_exists e x = true) l1 →
  Forall (λ x, source_exists e x = true) k1 → s' = s.
Proof.
  revert k1. induction l1 as [|x l1 IH]; intros [|y k1] Heq Hs Hs' Hl1 Hk1;
    simplify_eq/=.
  - done.
  - apply Forall_cons in Hk1 as [? _]. congruence.
  - apply Forall_cons in Hl1 as [? _]. congruence.
  - apply Forall_cons in Hl1 as [_ ?]. apply Forall_cons in Hk1 as [_ ?].
    by eapply IH.
Qed.

(** X15: what lines 134-137 do with a source entry that is neither a file
    nor a directory, in a run with recognised options.  With
    [ignore_missing_files] on, the entry leaves nothing but its diagnostic:
    the run ends as the run without the entry does (same result, failure or
    lack of an end, same heap), and the entry is not in the list of included
    files.  With it off, the run fails with the error for the first missing
    entry -- this entry, when the ones before it exist -- and returns no
    result. *)
Theorem missing_source_policy (fuel : nat) (e : env) (o : options) (c : context)
    (h : heap) (l1 : list string) (s : string) (l2 : list string)
    (Hvalid : valid_options o)
    (Hfiles : opt_files o = Some (l1 ++ s :: l2))
    (Hmissing : source_exists e s = false) :
  if opt_ignore_missing_files o then
    same_result (run fuel e o c h) (run fuel e (set_files (l1 ++ l2) o) c h) ∧
    EvMissingIgnored s ∈ st_trace (run fuel e o c h).2 ∧
    (∀ r inc, (run fuel e o c h).1 = Done r →
              ansible_included_var_files r = Some inc → s ∉ inc)
  else
    ∃ s', s' ∈ l1 ++ [s] ∧ source_exists e s' = false ∧
      (Forall (λ x, source_exists e x = true) l1 → s' = s) ∧
      run fuel e o c h =
      (Raise (SourceNotFoundError s'),
       {| st_heap := h ++ [ODict ∅]; st_trace := [] |}).
Proof.
  destruct (opt_ignore_missing_files o) eqn:Hign.
  - destruct (resolve_from_skip e l1 s l2 {| included := []; files_own := None |}
                (h ++ [ODict ∅]) Hmissing) as [Hsame Hev].
    split; [|split].
    + unfold run. simpl. unfold valid_options in Hvalid. rewrite Hvalid.
      destruct (decide ([] ≠ [])); [done|].
      destruct (decide (opt_files o = None ∧ _)) as [[Hnone _]|_]; [congruence|].
      rewrite Hfiles. apply bind_same_r. intros t0 h'.
      do 2 apply bind_same_l. unfold files_phase. simpl. rewrite Hign.
      apply bind_same_l. by apply resolve_from_skip.
    + unfold run. unfold valid_options in Hvalid. rewrite Hvalid.
      destruct (decide ([] ≠ [])); [done|].
      destruct (decide (opt_files o = None ∧ _)) as [[Hnone _]|_]; [congruence|].
      rewrite (bind_done _ _ _ _ _ (new_obj_run _ _)). simpl. rewrite Hfiles.
      do 2 apply bind_trace_l. unfold files_phase. apply bind_trace_l.
      unfold resolve. by rewrite Hign.
    + intros r inc Hr Hinc Hin.
      destruct (run fuel e o c h) as [o' st] eqn:Hrun. simpl in Hr. subst o'.
      pose proof (run_included_are_files _ _ _ _ _ _ _ _ _ Hrun Hinc Hin) as Hf.
      unfold source_exists in Hmissing. by rewrite Hf in Hmissing.
  - destruct (run_missing_fails fuel e o c h (l1 ++ s :: l2) s Hvalid Hfiles Hign)
      as (s' & k1 & k2 & Hsplit & Hs' & Hk1 & Hrun); [|done|].
    { apply elem_of_app. right. by left. }
    exists s'. split; [|split; [done|split; [|done]]].
    + destruct (decide (s' = s)) as [->|Hne].
      { apply elem_of_app. right. by left. }
      apply elem_of_app. left.
      clear Hrun Hfiles. revert k1 Hsplit Hk1. induction l1 as [|x l1 IH]; intros [|y k1] Heq Hk1;
        simplify_eq/=.
      * apply Forall_cons in Hk1 as [? _]. congruence.
      * by left.
      * apply Forall_cons in Hk1 as [_ ?]. right. by eapply IH.
    + intros Hl1. by eapply first_missing_unique.
Qed.
Lemma missing_source_policy_witness :
  same_result (run 4 fs_example options_tolerant context_example heap_example)
              (run 4 fs_example (set_files (["d1"] ++ ["f1.yml"]) options_tolerant)
                   context_example heap_example) ∧
  EvMissingIgnored "nope"
    ∈ st_trace (run 4 fs_example options_tolerant context_example heap_example).2 ∧
  (∀ r inc,
     (run 4 fs_example options_tolerant context_example heap_example).1 = Done r →
     ansible_included_var_files r = Some inc → "nope" ∉ inc).
Proof.
  exact (missing_source_policy 4 fs_example options_tolerant context_example
           heap_example ["d1"] "nope" ["f1.yml"] eq_refl eq_refl eq_refl).
Defined.

(** ** Resolution comes before loading *)

Lemma bind_trace_prefix {A B} (m : M A) (f : A → M B) h :
  ∃ rest, st_trace ((m ≫= f) h).2 = st_trace (m h).2 ++ rest.
Proof.
  unfold mbind, M_bind. destruct (m h) as [[a| |] st1]; simpl.
  - by eexists.
  - exists []. by rewrite app_nil_r.
  - exists []. by rewrite app_nil_r.
Qed.

Lemma resolve_from_trace e ign sources ls h :
  loaded (st_trace (foldM (resolve_source e ign) ls sources h).2) = [].
Proof.
  revert ls h. induction sources as [|s r IH]; intros ls h; [done|].
  simpl. unfold mbind, M_bind.
  assert (Hs : loaded (st_trace (resolve_source e ign ls s h).2) = []).
  { unfold resolve_source. destruct (isfile e s); [done|].
    destruct (isdir e s); [done|]. by destruct ign. }
  destruct (resolve_source e ign ls s h) as [[ls'| |] st]; simpl in *; [|done..].
  unfold loaded in *. by rewrite omap_app, Hs, IH.
Qed.

(** C10.  In a run with a source list and recognised options, the events
    of resolving the whole list come first, and no file is loaded among
    them.  Hence, with tolerance off, a missing entry anywhere in the list
    fails the run with the resolver's error before the loader is called for
    any file and before anything is merged: the heap holds nothing new but
    the empty dict of line 124. *)
Theorem resolve_before_load (fuel : nat) (e : env) (o : options) (c : context)
    (h : heap) (sources : list string)
    (Hvalid : valid_options o)
    (Hfiles : opt_files o = Some sources) :
  (∃ rest,
     st_trace (run fuel e o c h).2 =
     st_trace (resolve e (opt_ignore_missing_files o) sources (h ++ [ODict ∅])).2
     ++ rest ∧
     loaded (st_trace (resolve e (opt_ignore_missing_files o) sources
                               (h ++ [ODict ∅])).2) = []) ∧
  (opt_ignore_missing_files o = false →
   ∀ s, s ∈ sources → source_exists e s = false →
   ∃ s', s' ∈ sources ∧ source_exists e s' = false ∧
     run fuel e o c h =
     (Raise (SourceNotFoundError s'),
      {| st_heap := h ++ [ODict ∅]; st_trace := [] |}) ∧
     loaded (st_trace (run fuel e o c h).2) = []).
Proof.
  split.
  - assert (Hrun : ∃ rest,
      st_trace (run fuel e o c h).2 =
      st_trace (resolve e (opt_ignore_missing_files o) sources (h ++ [ODict ∅])).2
      ++ rest).
    { unfold run. unfold valid_options in Hvalid. rewrite Hvalid.
      destruct (decide ([] ≠ [])); [done|].
      destruct (decide (opt_files o = None ∧ _)) as [[Hnone _]|_]; [congruence|].
      rewrite (bind_done _ _ _ _ _ (new_obj_run _ _)). simpl. rewrite Hfiles.
      match goal with |- context [((?m ≫= ?f) ≫= ?g) ?h'] =>
        destruct (bind_trace_prefix (m ≫= f) g h') as [r1 ->];
        destruct (bind_trace_prefix m f h') as [r2 ->]
      end.
      unfold files_phase.
      match goal with |- context [(?m ≫= ?f) ?h'] =>
        destruct (bind_trace_prefix m f h') as [r3 ->]
      end.
      exists ((r3 ++ r2) ++ r1). by rewrite <- !app_assoc. }
    destruct Hrun as [rest Hrun]. exists rest. split; [done|].
    apply resolve_from_trace.
  - intros Hign s Hin Hs.
    destruct (run_missing_fails fuel e o c h sources s Hvalid Hfiles Hign Hin Hs)
      as (s' & k1 & k2 & -> & Hs' & _ & Hrun).
    exists s'. split; [|split; [done|]].
    + apply elem_of_app. right. by left.
    + by rewrite Hrun.
Qed.

Lemma resolve_before_load_witness :
  ∃ s', s' ∈ ["d1"; "nope"; "f1.yml"] ∧ source_exists fs_example s' = false ∧
    run 4 fs_example options_strict context_example heap_example =
    (Raise (SourceNotFoundError s'),
     {| st_heap := heap_example ++ [ODict ∅]; st_trace := [] |}) ∧
    loaded (st_trace (run 4 fs_example options_strict context_example heap_example).2)
    = [].
Proof.
  apply (proj2 (resolve_before_load 4 fs_example options_strict context_example
                  heap_example ["d1"; "nope"; "f1.yml"] eq_refl eq_refl)
           eq_refl "nope").
  - repeat constructor.
  - reflexivity.
Defined.

(** ** Walking a dotted path *)

Lemma dict_at_Some h l d : dict_at h l = Some d ↔ h !! l = Some (ODict d).
Proof.
  unfold dict_at, get_dict. destruct (h !! l) as [[]|]; split; intros; by simplify_eq.
Qed.

Lemma dict_at_set_eq h l k v d :
  dict_at h l = Some d → dict_at (dict_set l k v h) l = Some (<[k := v]> d).
Proof.
  rewrite !dict_at_Some. intros H. unfold dict_set. rewrite H.
  apply list_lookup_insert_eq. by eapply lookup_lt_Some.
Qed.

Lemma dict_at_set_ne h l l' k v :
  l ≠ l' → dict_at (dict_set l k v h) l' = dict_at h l'.
Proof.
  intros Hne. unfold dict_set, dict_at, get_dict.
  destruct (h !! l) as [[d| |]|]; [|done..]. by rewrite list_lookup_insert_ne.
Qed.

Lemma dict_at_set_is_Some h l l' k v :
  is_Some (dict_at h l') → is_Some (dict_at (dict_set l k v h) l').
Proof.
  intros [d Hd]. destruct (decide (l = l')) as [->|Hne].
  - erewrite dict_at_set_eq; [|done]. by eexists.
  - rewrite dict_at_set_ne by done. by eexists.
Qed.

Lemma dict_at_app h o l d : dict_at h l = Some d → dict_at (h ++ [o]) l = Some d.
Proof. rewrite !dict_at_Some. intros H. by apply lookup_app_l_Some. Qed.

Lemma dict_at_app_new h d : dict_at (h ++ [ODict d]) (length h) = Some d.
Proof. rewrite dict_at_Some. by rewrite lookup_app_r, Nat.sub_diag by lia. Qed.

Lemma dict_at_lt h l d : dict_at h l = Some d → l < length h.
Proof. rewrite dict_at_Some. apply lookup_lt_Some. Qed.

(** The three ways of a step of the walk: follow a link, create an empty
    dict, or fail on something that is not a dict. *)
Lemma walk_step_follow h cur key l :
  link h cur key l →
  walk_step cur key h = (Done l, {| st_heap := h; st_trace := [] |}).
Proof.
  intros (d & Hd & Hk & [d' Hl]). unfold walk_step, expect_dict.
  unfold mbind, M_bind, get_heap. simpl. rewrite Hd. simpl. rewrite Hk. simpl.
  apply dict_at_Some in Hl. by rewrite Hl.
Qed.

Lemma walk_step_create h cur key d :
  dict_at h cur = Some d → (∀ l, ¬ link h cur key l) →
  walk_step cur key h =
  (Done (length h),
   {| st_heap := dict_set cur key (VRef (length h)) (h ++ [ODict ∅]);
      st_trace := [] |}).
Proof.
  intros Hd Hno. unfold walk_step, expect_dict.
  unfold mbind, M_bind, get_heap. simpl. rewrite Hd. simpl.
  destruct (d !! key) as [v|] eqn:Hk; simpl; [|done].
  destruct (get_dict h v) as [d'|] eqn:Hv; [|done].
  destruct v as [| | | | | |l]; try done.
  exfalso. apply (Hno l). exists d. split; [done|]. split; [done|]. by exists d'.
Qed.

Lemma walk_step_fail h cur key :
  dict_at h cur = None →
  walk_step cur key h = (Raise PyTypeError, {| st_heap := h; st_trace := [] |}).
Proof.
  intros Hd. unfold walk_step, expect_dict. unfold mbind, M_bind, get_heap. simpl.
  by rewrite Hd.
Qed.

Lemma link_dec h cur key : (∃ l, link h cur key l) ∨ (∀ l, ¬ link h cur key l).
Proof.
  unfold link. destruct (dict_at h cur) as [d|] eqn:Hd.
  2:{ right. by intros l (d0 & Hd0 & _). }
  destruct (d !! key) as [[| | | | | |l]|] eqn:Hk;
    try (right; intros l' (d0 & Hd0 & Hk0 & _); by simplify_eq).
  destruct (dict_at h l) as [d'|] eqn:Hl.
  - left. exists l, d. by rewrite Hl.
  - right. intros l' (d0 & Hd0 & Hk0 & [d1 Hd1]). by simplify_eq.
Qed.

Lemma walk_along_path h c ks cur :
  path h c ks cur →
  foldM walk_step c ks h = (Done cur, {| st_heap := h; st_trace := [] |}).
Proof.
  induction 1 as [a|a k b ks c Hl _ IH]; [done|].
  simpl. rewrite (bind_done _ _ _ _ _ (walk_step_follow _ _ _ _ Hl)). simpl.
  by rewrite IH.
Qed.

Section create.
Context (h : heap) (cur : loc) (key : string) (d : gmap string val).
Context (Hd : dict_at h cur = Some d) (Hno : ∀ l, ¬ link h cur key l).

Local Abbreviation n := (length h).
Local Abbreviation h' := (dict_set cur key (VRef (length h)) (h ++ [ODict ∅])).

Lemma create_lt : cur < n.
Proof. by eapply dict_at_lt. Qed.

Lemma create_length : length h' = S n.
Proof.
  unfold dict_set. pose proof create_lt.
  rewrite (proj1 (dict_at_Some _ _ _) (dict_at_app _ (ODict ∅) _ _ Hd)).
  rewrite length_insert, length_app. simpl. lia.
Qed.

Lemma create_at_cur : dict_at h' cur = Some (<[key := VRef n]> d).
Proof. apply dict_at_set_eq. by apply dict_at_app. Qed.

Lemma create_at_new : dict_at h' n = Some ∅.
Proof.
  pose proof create_lt. rewrite dict_at_set_ne by lia.
  apply dict_at_app_new.
Qed.

Lemma create_at_old a : a ≠ cur → a ≠ n → dict_at h' a = dict_at h a.
Proof.
  intros H1 H2. rewrite dict_at_set_ne by done.
  unfold dict_at, get_dict. destruct (decide (a < n)).
  - by rewrite lookup_app_l.
  - rewrite !lookup_ge_None_2; [done|lia|].
    rewrite length_app. simpl. lia.
Qed.

Lemma create_is_Some a : is_Some (dict_at h a) → is_Some (dict_at h' a).
Proof.
  intros [da Ha]. apply dict_at_set_is_Some. exists da. by apply dict_at_app.
Qed.

Lemma create_link_new : link h' cur key n.
Proof.
  exists (<[key := VRef n]> d). split; [apply create_at_cur|].
  split; [apply lookup_insert_eq|]. rewrite create_at_new. by eexists.
Qed.

Lemma create_link_old a k b : link h a k b → link h' a k b.
Proof.
  intros (da & Ha & Hk & Hb). destruct (decide (a = cur)) as [->|Hne].
  - exists (<[key := VRef n]> d). split; [apply create_at_cur|].
    split; [|by apply create_is_Some].
    assert (da = d) as -> by congruence.
    rewrite lookup_insert_ne; [done|]. intros ->.
    apply (Hno b). by exists d.
  - exists da. split; [|split; [done|by apply create_is_Some]].
    rewrite create_at_old; [done..|]. apply dict_at_lt in Ha. lia.
Qed.

Lemma create_link_inv a k b :
  heap_wf h → link h' a k b → link h a k b ∨ (a = cur ∧ k = key ∧ b = n).
Proof.
  intros Hwf (da & Ha & Hk & Hb).
  destruct (decide (a = n)) as [->|Han].
  { rewrite create_at_new in Ha. injection Ha as <-. by rewrite lookup_empty in Hk. }
  assert (Hold : ∀ da0, dict_at h a = Some da0 → da0 !! k = Some (VRef b) →
                        link h a k b).
  { intros da0 Ha0 Hk0. exists da0. split; [done|]. split; [done|].
    assert (b < n).
    { apply dict_at_Some in Ha0. eapply (Hwf a); [done|]. by exists k. }
    destruct (decide (b = cur)) as [->|Hbc]; [by exists d|].
    rewrite <- create_at_old; [done..|lia]. }
  destruct (decide (a = cur)) as [->|Hac].
  - rewrite create_at_cur in Ha. injection Ha as <-.
    destruct (decide (k = key)) as [->|Hk'].
    + rewrite lookup_insert_eq in Hk. injection Hk as <-. by right.
    + rewrite lookup_insert_ne in Hk by done. left. by apply Hold with d.
  - rewrite create_at_old in Ha by done. left. by apply Hold with da.
Qed.

Lemma create_lookup_cur : h' !! cur = Some (ODict (<[key := VRef n]> d)).
Proof. apply dict_at_Some, create_at_cur. Qed.

Lemma create_lookup_other l : l ≠ cur → h' !! l = (h ++ [ODict ∅]) !! l.
Proof.
  intros Hne. unfold dict_set.
  rewrite (proj1 (dict_at_Some _ _ _) (dict_at_app _ (ODict ∅) _ _ Hd)).
  by rewrite list_lookup_insert_ne.
Qed.

Lemma create_wf : heap_wf h → heap_wf h'.
Proof.
  intros Hwf l o l' Hl Hrefs. rewrite create_length.
  destruct (decide (l = cur)) as [->|Hne].
  - rewrite create_lookup_cur in Hl. injection Hl as <-.
    destruct Hrefs as [k Hk]. destruct (decide (k = key)) as [->|Hk'].
    + rewrite lookup_insert_eq in Hk. injection Hk as <-. lia.
    + rewrite lookup_insert_ne in Hk by done.
      assert (l' < n); [|lia].
      eapply (Hwf cur); [by apply dict_at_Some|]. by exists k.
  - rewrite create_lookup_other in Hl by done.
    apply lookup_app_Some in Hl as [Hl|[_ Hl]].
    + assert (l' < n); [|lia]. by eapply Hwf.
    + apply list_lookup_singleton_Some in Hl as [_ <-].
      destruct Hrefs as [k Hk]. by rewrite lookup_empty in Hk.
Qed.

Lemma create_path_inv a ks b :
  heap_wf h → path h' a ks b → path h a ks b ∨ (b = n ∧ ks ≠ []).
Proof.
  intros Hwf. induction 1 as [a|a k b ks c Hl Hp IH]; [left; constructor|].
  apply create_link_inv in Hl as [Hl|(-> & -> & ->)]; [| |done].
  - destruct IH as [IH|[-> _]]; [left; by econstructor|by right].
  - right. split; [|done]. inversion Hp as [|? k' b' ? ? Hl' _]; [done|subst].
    destruct Hl' as (d0 & Hd0 & Hk0 & _). rewrite create_at_new in Hd0.
    injection Hd0 as <-. by rewrite lookup_empty in Hk0.
Qed.

Lemma create_acyclic : heap_wf h → acyclic h → acyclic h'.
Proof.
  intros Hwf Hac a ks Hks Hp.
  destruct (create_path_inv _ _ _ Hwf Hp) as [Hp'|[-> _]].
  - by eapply Hac.
  - inversion Hp as [|? k' b' ? ? Hl' _]; [done|subst].
    destruct Hl' as (d0 & Hd0 & Hk0 & _). rewrite create_at_new in Hd0.
    injection Hd0 as <-. by rewrite lookup_empty in Hk0.
Qed.
End create.

Lemma walk_step_link h cur key l st a k b :
  walk_step cur key h = (Done l, st) → link h a k b → link (st_heap st) a k b.
Proof.
  intros Hstep Hl. destruct (link_dec h cur key) as [[l' Hl']|Hno].
  - rewrite (walk_step_follow _ _ _ _ Hl') in Hstep. by injection Hstep as _ <-.
  - destruct (dict_at h cur) as [d|] eqn:Hd.
    + rewrite (walk_step_create _ _ _ _ Hd Hno) in Hstep. injection Hstep as _ <-.
      by eapply create_link_old.
    + by rewrite (walk_step_fail _ _ _ Hd) in Hstep.
Qed.

Lemma walk_link h c ks cur st a k b :
  foldM walk_step c ks h = (Done cur, st) → link h a k b → link (st_heap st) a k b.
Proof.
  revert c h st. induction ks as [|k0 ks IH]; intros c h st; simpl.
  { by intros [= _ <-]. }
  intros H Hl. apply bind_done_inv in H as (c1 & st1 & st2 & H1 & H2 & ->). simpl.
  eapply IH; [done|]. by eapply walk_step_link.
Qed.

(** The walk ends at the end of a path that it found or made, and keeps
    the heap closed and free of cycles. *)
Lemma walk_path h c ks cur st :
  foldM walk_step c ks h = (Done cur, st) → heap_wf h → acyclic h →
  path (st_heap st) c ks cur ∧ heap_wf (st_heap st) ∧ acyclic (st_heap st) ∧
  st_trace st = [].
Proof.
  revert c h st. induction ks as [|k ks IH]; intros c h st; simpl.
  { intros [= <- <-] ? ?. repeat split; try done. constructor. }
  intros H Hwf Hac. apply bind_done_inv in H as (c1 & st1 & st2 & H1 & H2 & ->).
  simpl.
  assert (Hstep : link (st_heap st1) c k c1 ∧ heap_wf (st_heap st1) ∧
                  acyclic (st_heap st1) ∧ st_trace st1 = []).
  { destruct (link_dec h c k) as [[l' Hl']|Hno].
    - rewrite (walk_step_follow _ _ _ _ Hl') in H1. by injection H1 as <- <-.
    - destruct (dict_at h c) as [d|] eqn:Hd.
      + rewrite (walk_step_create _ _ _ _ Hd Hno) in H1. injection H1 as <- <-.
        simpl. split; [by eapply create_link_new|].
        split; [by eapply create_wf|]. split; [by eapply create_acyclic|done].
      + by rewrite (walk_step_fail _ _ _ Hd) in H1. }
  destruct Hstep as (Hl & Hwf1 & Hac1 & Htr1).
  destruct (IH _ _ _ H2 Hwf1 Hac1) as (Hp & Hwf2 & Hac2 & Htr2).
  split; [|by rewrite Htr1, Htr2].
  econstructor; [|done]. by eapply walk_link.
Qed.
(** ** Applying a literal *)

Lemma float_cmp_refl a : float_cmp a a = Eq.
Proof. destruct a as [[]|m e]; simpl; [done..|apply Z.compare_refl]. Qed.

Lemma num_eqb_refl a : num_eqb a a = true.
Proof. unfold num_eqb. by rewrite float_cmp_refl. Qed.

(** Every value but a NaN equals itself. *)
Lemma py_eq_self fuel h v : py_eq fuel h v v = Some (negb (is_nan v)).
Proof.
  destruct fuel, v as [|b|n|f| |s|l]; simpl; try done;
    try (by rewrite num_eqb_refl); try (by rewrite bool_decide_eq_true_2);
    by rewrite decide_True.
Qed.

Lemma py_ne_self fuel h v : py_ne fuel h v v = Some (is_nan v).
Proof. unfold py_ne. rewrite py_eq_self. simpl. by rewrite negb_involutive. Qed.

Lemma expect_dict_done_inv l h d st :
  expect_dict l h = (Done d, st) →
  dict_at h l = Some d ∧ st = {| st_heap := h; st_trace := [] |}.
Proof.
  unfold expect_dict, mbind, M_bind, get_heap. simpl.
  destruct (dict_at h l); simpl; [|done]. by intros [= <- <-].
Qed.

Lemma expect_dict_run l h d :
  dict_at h l = Some d → expect_dict l h = (Done d, {| st_heap := h; st_trace := [] |}).
Proof.
  intros Hd. unfold expect_dict, mbind, M_bind, get_heap. simpl. by rewrite Hd.
Qed.

Lemma lift_fuel_done_inv {A} (o : option A) h a st :
  lift_fuel o h = (Done a, st) → o = Some a ∧ st = {| st_heap := h; st_trace := [] |}.
Proof. destruct o; simpl; [|done]. by intros [= <- <-]. Qed.

Lemma apply_literal_run depth t keys v h cur h1 d ne :
  foldM walk_step t (removelast keys) h =
    (Done cur, {| st_heap := h1; st_trace := [] |}) →
  dict_at h1 cur = Some d →
  py_ne depth h1 (default VNone (d !! default "" (last keys))) v = Some ne →
  apply_literal depth t keys v h =
  (Done ne, {| st_heap := dict_set cur (default "" (last keys)) v h1; st_trace := [] |}).
Proof.
  intros Hwalk Hd Hne. unfold apply_literal.
  rewrite (bind_done _ _ _ _ _ Hwalk). simpl.
  rewrite (bind_done _ _ _ _ _ (expect_dict_run _ _ _ Hd)). simpl.
  unfold mbind, M_bind, get_heap, put_heap, lift_fuel. simpl. by rewrite Hne.
Qed.

Lemma apply_literal_done_inv depth t keys v h ne st :
  apply_literal depth t keys v h = (Done ne, st) →
  ∃ cur st1 d,
    foldM walk_step t (removelast keys) h = (Done cur, st1) ∧
    dict_at (st_heap st1) cur = Some d ∧
    py_ne depth (st_heap st1) (default VNone (d !! default "" (last keys))) v = Some ne ∧
    st = {| st_heap := dict_set cur (default "" (last keys)) v (st_heap st1);
            st_trace := st_trace st1 |}.
Proof.
  unfold apply_literal. intros H.
  apply bind_done_inv in H as (cur & st1 & st2 & Hwalk & H & ->).
  apply bind_done_inv in H as (d & st3 & st4 & Hd & H & ->).
  apply expect_dict_done_inv in Hd as [Hd ->]. simpl in H.
  apply bind_done_inv in H as (h1 & st5 & st6 & Hg & H & ->).
  injection Hg as <- <-. simpl in H.
  apply bind_done_inv in H as (ne' & st7 & st8 & Hf & H & ->).
  apply lift_fuel_done_inv in Hf as [Hf ->]. simpl in H.
  unfold mbind, M_bind, put_heap in H. simpl in H. injection H as <- <-.
  exists cur, st1, d. simpl. by rewrite !app_nil_r.
Qed.

Lemma path_set_end h c ks cur k v :
  acyclic h → path h c ks cur → path (dict_set cur k v h) c ks cur.
Proof.
  intros Hac. induction 1 as [a|a k0 b ks c Hl Hp IH]; [constructor|].
  assert (a ≠ c).
  { intros ->. eapply (Hac c (k0 :: ks)); [done|]. by econstructor. }
  econstructor; [|done].
  destruct Hl as (da & Ha & Hk & Hb). exists da.
  rewrite dict_at_set_ne by done. split; [done|]. split; [done|].
  by apply dict_at_set_is_Some.
Qed.

Lemma dict_set_again h l k v d :
  dict_at h l = Some d → d !! k = Some v → dict_set l k v h = h.
Proof.
  intros Hd Hk. apply dict_at_Some in Hd. unfold dict_set. rewrite Hd.
  rewrite insert_id by done. by apply list_insert_id.
Qed.

(** C7, as the code has it.  On a closed heap without cycles, applying a
    literal walks to a dict [cur] and sets the final key there; the flag it
    returns says whether the value compared unequal to what
    [current.get(final key)] found, [None] when the key was absent; and
    applying the same literal again changes nothing and returns [false],
    unless the value is a NaN, which is unequal to itself. *)
Theorem literal_application (depth : nat) (h : heap) (t : loc) (keys : list string)
    (v : val) (ne : bool) (st : state)
    (Hwf : heap_wf h) (Hac : acyclic h)
    (Hrun : apply_literal depth t keys v h = (Done ne, st)) :
  (∃ cur h1 d,
     foldM walk_step t (removelast keys) h =
       (Done cur, {| st_heap := h1; st_trace := [] |}) ∧
     dict_at h1 cur = Some d ∧
     py_ne depth h1 (default (val_of_scalar SNull) (d !! default "" (last keys))) v
       = Some ne ∧
     dict_at (st_heap st) cur = Some (<[default "" (last keys) := v]> d)) ∧
  apply_literal depth t keys v (st_heap st) =
    (Done (is_nan v), {| st_heap := st_heap st; st_trace := [] |}).
Proof.
  apply apply_literal_done_inv in Hrun as (cur & [h1 tr1] & d & Hwalk & Hd & Hne & ->).
  simpl in *.
  destruct (walk_path _ _ _ _ _ Hwalk Hwf Hac) as (Hp & Hwf1 & Hac1 & Htr).
  simpl in *. subst tr1. split.
  - exists cur, h1, d. repeat split; try done. by apply dict_at_set_eq.
  - set (k := default "" (last keys)) in *.
    pose proof (dict_at_set_eq h1 cur k v d Hd) as Hd2.
    erewrite (apply_literal_run depth t keys v _ cur _ _ (is_nan v)).
    + fold k. by erewrite dict_set_again; [|done|apply lookup_insert_eq].
    + apply walk_along_path. by apply path_set_end.
    + done.
    + fold k. rewrite lookup_insert_eq. simpl. apply py_ne_self.
Qed.

Lemma heap_wf_empty_dict : heap_wf [ODict ∅].
Proof.
  intros l o l' Hl Hrefs. apply list_lookup_singleton_Some in Hl as [_ <-].
  destruct Hrefs as [k Hk]. by rewrite lookup_empty in Hk.
Qed.

Lemma acyclic_empty_dict : acyclic [ODict ∅].
Proof.
  intros a ks Hks Hp. destruct Hp as [|a k b ks c Hl _]; [done|].
  destruct Hl as (d & Hd & Hk & _). apply dict_at_Some in Hd.
  apply list_lookup_singleton_Some in Hd as [_ [= <-]]. by rewrite lookup_empty in Hk.
Qed.

Lemma literal_application_witness :
  (apply_literal 0 0 ["a"; "b"; "c"] (VInt 5) [ODict ∅]).1 = Done true ∧
  reify 3 (st_heap (apply_literal 0 0 ["a"; "b"; "c"] (VInt 5) [ODict ∅]).2) (VRef 0)
  = Some (Mapping {[ "a" := Mapping {[ "b" := Mapping {[ "c" := Scalar (SInt 5) ]} ]} ]}) ∧
  apply_literal 0 0 ["a"; "b"; "c"] (VInt 5)
    (st_heap (apply_literal 0 0 ["a"; "b"; "c"] (VInt 5) [ODict ∅]).2)
  = (Done false,
     {| st_heap := st_heap (apply_literal 0 0 ["a"; "b"; "c"] (VInt 5) [ODict ∅]).2;
        st_trace := [] |}).
Proof.
  assert (Hrun : apply_literal 0 0 ["a"; "b"; "c"] (VInt 5) [ODict ∅] =
                 (Done true, (apply_literal 0 0 ["a"; "b"; "c"] (VInt 5) [ODict ∅]).2)).
  { vm_compute. reflexivity. }
  destruct (literal_application 0 [ODict ∅] 0 ["a"; "b"; "c"] (VInt 5) true _
              heap_wf_empty_dict acyclic_empty_dict Hrun) as [_ Hagain].
  split; [vm_compute; reflexivity|]. split; [vm_compute; reflexivity|exact Hagain].
Defined.

(** C7, as the claim has it, fails in two places.  Where the key is absent
    and the value is null, [None != None] is false, so no change is reported;
    and where the value is a NaN, [nan != nan] is true, so that applying the
    literal again reports a change again. *)
Lemma literal_flag_counterexamples :
  ¬ (∀ (depth : nat) (h : heap) (t : loc) (d : gmap string val) (k : string) (v : val),
       dict_at h t = Some d → d !! k = None →
       (apply_literal depth t [k] v h).1 = Done true) ∧
  ¬ (∀ (depth : nat) (h : heap) (t : loc) (keys : list string) (v : val)
       (ne : bool) (st : state),
       heap_wf h → acyclic h → apply_literal depth t keys v h = (Done ne, st) →
       (apply_literal depth t keys v (st_heap st)).1 = Done false).
Proof.
  split.
  - intros H. specialize (H 0 [ODict ∅] 0 ∅ "a" VNone eq_refl eq_refl).
    vm_compute in H. discriminate.
  - intros H.
    specialize (H 0 [ODict ∅] 0 ["a"] (VNaN 1) true
                  {| st_heap := [ODict {[ "a" := VNaN 1 ]}]; st_trace := [] |}
                  heap_wf_empty_dict acyclic_empty_dict).
    vm_compute in H. specialize (H eq_refl). discriminate.
Qed.

(** ** Rules of the program logic *)

Lemma triple_ret {A} (P : heap → Prop) (a : A) (Q : A → heap → Prop) E :
  (∀ h, P h → Q a h) → triple P (mret a) Q E.
Proof. intros H h Hh. by apply H. Qed.

Lemma triple_bind {A B} (P : heap → Prop) (m : M A) (f : A → M B)
    (Q1 : A → heap → Prop) (Q : B → heap → Prop) E :
  triple P m Q1 E → (∀ a, triple (Q1 a) (f a) Q E) → triple P (m ≫= f) Q E.
Proof.
  intros Hm Hf h Hh. specialize (Hm h Hh). unfold mbind, M_bind.
  destruct (m h) as [[a| |] st]; simpl in *; [|done..].
  apply (Hf a _ Hm).
Qed.

Lemma triple_conseq {A} (P P' : heap → Prop) (m : M A) (Q Q' : A → heap → Prop)
    (E E' : heap → Prop) :
  triple P' m Q' E' → (∀ h, P h → P' h) → (∀ a h, Q' a h → Q a h) →
  (∀ h, E' h → E h) → triple P m Q E.
Proof.
  intros Hm HP HQ HE h Hh. specialize (Hm h (HP h Hh)).
  destruct ((m h).1); auto.
Qed.

Lemma triple_raise {A} (P : heap → Prop) e (Q : A → heap → Prop) (E : heap → Prop) :
  (∀ h, P h → E h) → triple P (raise e) Q E.
Proof. intros H h Hh. by apply H. Qed.

Lemma triple_timeout {A} (P : heap → Prop) (Q : A → heap → Prop) (E : heap → Prop) :
  (∀ h, P h → E h) → triple P timeout Q E.
Proof. intros H h Hh. by apply H. Qed.

Lemma triple_emit (P : heap → Prop) ev E : triple P (emit ev) (λ _, P) E.
Proof. by intros h Hh. Qed.

Lemma triple_get_heap (P : heap → Prop) E :
  triple P get_heap (λ h' h, h' = h ∧ P h) E.
Proof. by intros h Hh. Qed.

Lemma triple_put_heap (P : heap → Prop) h' (Q : heap → Prop) E :
  (∀ h, P h → Q h') → triple P (put_heap h') (λ _, Q) E.
Proof. intros H h Hh. by eapply H. Qed.

Lemma triple_lift_fuel {A} (P : heap → Prop) (o : option A) E :
  (∀ h, P h → E h) → triple P (lift_fuel o) (λ a h, o = Some a ∧ P h) E.
Proof. intros H h Hh. destruct o; simpl; auto. Qed.

Lemma triple_expect_dict (P : heap → Prop) l E :
  (∀ h, P h → E h) →
  triple P (expect_dict l) (λ d h, dict_at h l = Some d ∧ P h) E.
Proof.
  intros H h Hh. unfold expect_dict, mbind, M_bind, get_heap. simpl.
  destruct (dict_at h l) eqn:Hd; simpl; [by rewrite Hd|by apply H].
Qed.

Lemma triple_foldM {A B} (I : B → heap → Prop) (f : B → A → M B) (l : list A) b E :
  (∀ b x, x ∈ l → triple (I b) (f b x) I E) →
  triple (I b) (foldM f b l) I E.
Proof.
  revert b. induction l as [|x l IH]; intros b Hf.
  - by apply triple_ret.
  - simpl. eapply triple_bind.
    + apply Hf. by left.
    + intros b'. apply IH. intros b'' y Hy. apply Hf. by right.
Qed.

(** A precondition may carry facts that do not speak of the heap. *)
Lemma triple_pure {A} (φ : Prop) (P : heap → Prop) (m : M A) Q E :
  (φ → triple P m Q E) → triple (λ h, φ ∧ P h) m Q E.
Proof. intros H h [Hφ Hh]. by apply H. Qed.

Lemma triple_exists {A X} (P : X → heap → Prop) (m : M A) Q E :
  (∀ x, triple (P x) m Q E) → triple (λ h, ∃ x, P x h) m Q E.
Proof. intros H h [x Hh]. by eapply H. Qed.

(** ** Induction on trees *)

Lemma tree_size_in_list (t : Tree) (l : list Tree) :
  t ∈ l → tree_size t ≤ foldr (λ t n, tree_size t + n) 0 l.
Proof.
  induction l as [|x l IH]; intros Hin; [by apply elem_of_nil in Hin|].
  simpl. apply elem_of_cons in Hin as [->|Hin]; [lia|]. specialize (IH Hin). lia.
Qed.

Lemma tree_size_in_map (t : Tree) (m : gmap string Tree) (k : string) :
  m !! k = Some t → tree_size t ≤ map_fold (λ _ t n, tree_size t + n) 0 m.
Proof.
  rewrite map_fold_foldr, <- elem_of_map_to_list.
  induction (map_to_list m) as [|[k' x] l IH]; intros Hin;
    [by apply elem_of_nil in Hin|].
  simpl. apply elem_of_cons in Hin as [[= <- <-]|Hin]; [lia|]. specialize (IH Hin). lia.
Qed.

Lemma Tree_nested_ind (P : Tree → Prop) :
  (∀ s, P (Scalar s)) →
  (∀ l, Forall P l → P (Sequence l)) →
  (∀ m, map_Forall (λ _, P) m → P (Mapping m)) →
  ∀ t, P t.
Proof.
  intros Hs Hl Hm t.
  remember (tree_size t) as n eqn:Hn. revert t Hn.
  induction (lt_wf n) as [n _ IH]. intros [s|l|m] ->.
  - apply Hs.
  - apply Hl. apply Forall_forall. intros t Ht. eapply IH; [|done].
    simpl. pose proof (tree_size_in_list t l Ht). lia.
  - apply Hm. intros k t Ht. eapply IH; [|done].
    simpl. pose proof (tree_size_in_map t m k Ht). lia.
Qed.

(** ** Ranges of references *)

Lemma in_range_mono lo hi lo' hi' v :
  in_range lo hi v → lo' ≤ lo → hi ≤ hi' → in_range lo' hi' v.
Proof. destruct v; simpl; try done. lia. Qed.

Lemma good_mono n0 t n n' v : good n0 t n v → n ≤ n' → good n0 t n' v.
Proof. destruct v; simpl; try done. lia. Qed.

Lemma in_range_good n0 t lo hi v :
  in_range lo hi v → n0 ≤ lo → t < lo → good n0 t hi v.
Proof. destruct v; simpl; try done. lia. Qed.

Lemma good_in_range n0 t n v : good n0 t n v → in_range 0 n v.
Proof. destruct v; simpl; try done. lia. Qed.

Lemma in_range_scalar lo hi s : in_range lo hi (val_of_scalar s).
Proof. by destruct s. Qed.

Lemma obj_all_impl (P Q : val → Prop) o :
  (∀ v, P v → Q v) → obj_all P o → obj_all Q o.
Proof.
  intros HPQ. destruct o as [d|xs|]; simpl; [| |done].
  - intros H. eapply map_Forall_impl; [exact H|]. eauto.
  - intros H. eapply Forall_impl; [exact H|]. eauto.
Qed.

Lemma Forall_obj_all_impl (P Q : val → Prop) (l : list obj) :
  (∀ v, P v → Q v) → Forall (obj_all P) l → Forall (obj_all Q) l.
Proof.
  intros HPQ H. eapply Forall_impl; [exact H|]. intros o. by apply obj_all_impl.
Qed.

(** ** Materialising a tree *)

Lemma allocates_refl h v : in_range (length h) (length h) v → allocates h h v.
Proof. intros Hv. exists []. by rewrite app_nil_r. Qed.

Lemma allocates_trans h1 h2 h3 v w :
  allocates h1 h2 v → allocates h2 h3 w → allocates h1 h3 w.
Proof.
  intros (n1 & -> & Hv & Hn1) (n2 & -> & Hw & Hn2).
  exists (n1 ++ n2). rewrite app_assoc. split; [done|].
  rewrite !length_app in *. split.
  - eapply in_range_mono; [done|lia..].
  - apply Forall_app. split.
    + eapply Forall_obj_all_impl; [|done]. intros x Hx.
      eapply in_range_mono; [done|lia..].
    + eapply Forall_obj_all_impl; [|done]. intros x Hx.
      eapply in_range_mono; [done|lia..].
Qed.

Lemma allocates_length h h' v : allocates h h' v → length h ≤ length h'.
Proof. intros (new & -> & _). rewrite length_app. lia. Qed.

Lemma allocates_snoc h h1 o v :
  allocates h h1 v → obj_all (in_range (length h) (length h1)) o →
  allocates h (h1 ++ [o]) (VRef (length h1)).
Proof.
  intros Ha Ho. pose proof (allocates_length _ _ _ Ha) as Hlen.
  destruct Ha as (new & -> & _ & Hnew).
  exists (new ++ [o]). rewrite app_assoc. split; [done|].
  rewrite !length_app in *. simpl. split; [lia|].
  apply Forall_app. split.
  - eapply Forall_obj_all_impl; [|done]. intros x Hx.
    eapply in_range_mono; [done|lia..].
  - repeat constructor. eapply obj_all_impl; [|done]. intros x Hx.
    eapply in_range_mono; [done|lia..].
Qed.

Lemma alloc_tree_spec (t : Tree) :
  ∀ h, allocates h (alloc_tree t h).2 (alloc_tree t h).1.
Proof.
  induction t as [s|l IH|m IH] using Tree_nested_ind; intros h.
  - destruct s; try apply allocates_refl, in_range_scalar.
    exists [ONaN]. by repeat constructor.
  - simpl.
    assert (Hfold : ∀ vs hc,
      allocates h hc VNone → Forall (in_range (length h) (length hc)) vs →
      let r := foldl (λ '(vs, h0) t, let '(v, h') := alloc_tree t h0 in (vs ++ [v], h'))
                     (vs, hc) l in
      allocates h r.2 VNone ∧ Forall (in_range (length h) (length r.2)) r.1).
    { induction IH as [|x l Hx _ IHl]; intros vs hc Hc Hvs; simpl; [done|].
      specialize (Hx hc). destruct (alloc_tree x hc) as [v h'] eqn:Hxa. simpl in Hx.
      pose proof (allocates_length _ _ _ Hc).
      pose proof (allocates_length _ _ _ Hx).
      apply IHl.
      - eapply allocates_trans; [exact Hc|].
        destruct Hx as (new & -> & _ & Hnew). by exists new.
      - apply Forall_app. split.
        + eapply Forall_impl; [done|]. intros y Hy.
          eapply in_range_mono; [done|lia..].
        + repeat constructor. destruct Hx as (_ & _ & Hv & _).
          eapply in_range_mono; [done|lia..]. }
    specialize (Hfold [] h (allocates_refl h VNone I) (Forall_nil_2 _)).
    destruct (foldl _ _ l) as [vs h1]. simpl in *. destruct Hfold as [Ha Hvs].
    by eapply allocates_snoc.
  - simpl.
    assert (Hfold :
      let r := map_fold (λ k t '(d, h0), let '(v, h') := alloc_tree t h0 in
                                         (<[k := v]> d, h')) ((∅ : gmap string val), h) m in
      allocates h r.2 VNone ∧ map_Forall (λ _, in_range (length h) (length r.2)) r.1).
    { revert IH. apply (map_fold_weak_ind (λ r m,
        map_Forall (λ _ t, ∀ h, allocates h (alloc_tree t h).2 (alloc_tree t h).1) m →
        allocates h r.2 VNone ∧
        map_Forall (λ _, in_range (length h) (length r.2)) r.1)).
      - intros _. split; [by apply allocates_refl|]. apply map_Forall_empty.
      - intros k x m' [d hc] Hk IHm Hall.
        apply map_Forall_insert in Hall as [Hx Hall]; [|done].
        destruct (IHm Hall) as [Hc Hd]. simpl in *.
        specialize (Hx hc). destruct (alloc_tree x hc) as [v h'] eqn:Hxa. simpl in *.
        pose proof (allocates_length _ _ _ Hc).
        pose proof (allocates_length _ _ _ Hx).
        split.
        + eapply allocates_trans; [exact Hc|].
          destruct Hx as (new & -> & _ & Hnew). by exists new.
        + apply map_Forall_insert_2.
          * destruct Hx as (_ & _ & Hv & _). eapply in_range_mono; [done|lia..].
          * eapply map_Forall_impl; [done|]. intros ? y Hy. simpl in Hy.
            eapply in_range_mono; [done|lia..]. }
    destruct (map_fold _ _ m) as [d h1]. simpl in *. destruct Hfold as [Ha Hd].
    by eapply allocates_snoc.
Qed.

(** ** Heaps that grow *)

Lemma obj_all_refs (P : val → Prop) o l' : obj_all P o → obj_refs o l' → P (VRef l').
Proof.
  destruct o as [d|xs|]; simpl; [| |done].
  - intros Hd [k Hk]. by apply (Hd k).
  - intros Hxs Hin. by eapply (proj1 (Forall_forall _ _) Hxs).
Qed.

Lemma obj_all_of_refs lo hi o :
  (∀ l', obj_refs o l' → lo ≤ l' ∧ l' < hi) → obj_all (in_range lo hi) o.
Proof.
  destruct o as [d|xs|]; simpl; intros H; [| |done].
  - intros k [] Hk; simpl; try done. apply H. by exists k.
  - apply Forall_forall. intros [] Hx; simpl; try done. by apply H.
Qed.

Lemma heap_wf_obj h l o : heap_wf h → h !! l = Some o → obj_all (in_range 0 (length h)) o.
Proof.
  intros Hwf Hl. apply obj_all_of_refs. intros l' Hr.
  split; [lia|]. by eapply Hwf.
Qed.

Lemma heap_wf_of_obj h :
  (∀ l o, h !! l = Some o → obj_all (in_range 0 (length h)) o) → heap_wf h.
Proof. intros H l o l' Hl Hr. by destruct (obj_all_refs _ _ _ (H l o Hl) Hr). Qed.

Lemma heap_wf_app h new :
  heap_wf h → Forall (obj_all (in_range 0 (length (h ++ new)))) new → heap_wf (h ++ new).
Proof.
  intros Hwf Hnew. apply heap_wf_of_obj. intros l o Hl.
  apply lookup_app_Some in Hl as [Hl|[_ Hl]].
  - eapply obj_all_impl; [|by eapply heap_wf_obj].
    intros v Hv. eapply in_range_mono; [done|lia|]. rewrite length_app. lia.
  - by eapply (proj1 (Forall_lookup _ _) Hnew).
Qed.

Lemma heap_wf_insert h l o :
  heap_wf h → obj_all (in_range 0 (length h)) o → heap_wf (<[l := o]> h).
Proof.
  intros Hwf Ho. apply heap_wf_of_obj. intros l1 o1 Hl1.
  rewrite length_insert.
  destruct (decide (l = l1)) as [->|Hne].
  - apply list_lookup_insert_Some in Hl1 as [(_ & -> & _)|[? _]]; done.
  - rewrite list_lookup_insert_ne in Hl1 by done. by eapply heap_wf_obj.
Qed.

Lemma dict_set_length l k v h : length (dict_set l k v h) = length h.
Proof.
  unfold dict_set. destruct (h !! l) as [[d|xs|]|]; [|done..].
  by rewrite length_insert.
Qed.

Lemma heap_wf_dict_set h l k v :
  heap_wf h → in_range 0 (length h) v → heap_wf (dict_set l k v h).
Proof.
  intros Hwf Hv. unfold dict_set. destruct (h !! l) as [[d|xs|]|] eqn:Hl; [|done..].
  apply heap_wf_insert; [done|]. simpl.
  apply map_Forall_insert_2; [done|]. by apply (heap_wf_obj h l (ODict d)).
Qed.

Lemma frozen_refl h0 : frozen h0 h0.
Proof. by intros l Hl. Qed.

Lemma frozen_length h0 h : frozen h0 h → length h0 ≤ length h.
Proof.
  intros Hf. destruct (decide (length h0 = 0)) as [|Hne]; [lia|].
  assert (Hl : length h0 - 1 < length h0) by lia.
  specialize (Hf _ Hl). apply lookup_lt_is_Some_2 in Hl as [o Ho].
  rewrite Ho in Hf. apply lookup_lt_Some in Hf. lia.
Qed.

Lemma frozen_app h0 h new : frozen h0 h → frozen h0 (h ++ new).
Proof.
  intros Hf l Hl. rewrite lookup_app_l; [by apply Hf|].
  pose proof (frozen_length _ _ Hf). lia.
Qed.

Lemma frozen_insert h0 h l o : frozen h0 h → length h0 ≤ l → frozen h0 (<[l := o]> h).
Proof.
  intros Hf Hle l1 Hl1. rewrite list_lookup_insert_ne by lia. by apply Hf.
Qed.

Lemma frozen_dict_set h0 h l k v :
  frozen h0 h → length h0 ≤ l → frozen h0 (dict_set l k v h).
Proof.
  intros Hf Hle. unfold dict_set. destruct (h !! l) as [[d|xs|]|]; [|done..].
  by apply frozen_insert.
Qed.

Lemma frozen_agree h0 h h' :
  frozen h0 h → (∀ l, l < length h → h' !! l = h !! l) → frozen h0 h'.
Proof.
  intros Hf Hag l Hl. rewrite Hag; [by apply Hf|].
  pose proof (frozen_length _ _ Hf). lia.
Qed.

Lemma frozen_dict_at h0 h l : frozen h0 h → l < length h0 → dict_at h l = dict_at h0 l.
Proof. intros Hf Hl. unfold dict_at, get_dict. by rewrite (Hf l Hl). Qed.

Lemma frozen_get_dict h0 h v :
  frozen h0 h → in_range 0 (length h0) v → get_dict h v = get_dict h0 v.
Proof.
  intros Hf Hv. destruct v as [| | | | | |l]; try done.
  apply (frozen_dict_at h0 h l Hf), Hv.
Qed.

Lemma good_retarget n0 t t' n n' v :
  good n0 t n v → n ≤ t' → n ≤ n' → good n0 t' n' v.
Proof. destruct v; simpl; try done. lia. Qed.

Lemma closed_app n0 t h new :
  closed n0 t h → Forall (obj_all (good n0 t (length (h ++ new)))) new →
  closed n0 t (h ++ new).
Proof.
  intros Hc Hnew l o Hl Hne Hlo.
  apply lookup_app_Some in Hlo as [Hlo|[_ Hlo]].
  - eapply obj_all_impl; [|by eapply Hc].
    intros v Hv. eapply good_mono; [done|]. rewrite length_app. lia.
  - by eapply (proj1 (Forall_lookup _ _) Hnew).
Qed.

Lemma closed_insert n0 t h l o :
  closed n0 t h → (l ≠ t → obj_all (good n0 t (length h)) o) →
  closed n0 t (<[l := o]> h).
Proof.
  intros Hc Ho l1 o1 Hl1 Hne Hlo. rewrite length_insert.
  destruct (decide (l = l1)) as [->|Hne1].
  - apply list_lookup_insert_Some in Hlo as [(_ & -> & _)|[? _]]; [auto|done].
  - rewrite list_lookup_insert_ne in Hlo by done. by eapply Hc.
Qed.

Lemma closed_dict_set n0 t h l k v :
  closed n0 t h → n0 ≤ l → (l ≠ t → good n0 t (length h) v) →
  closed n0 t (dict_set l k v h).
Proof.
  intros Hc Hl Hv. unfold dict_set. destruct (h !! l) as [[d|xs|]|] eqn:Hlo; [|done..].
  apply closed_insert; [done|]. intros Hne. simpl.
  apply map_Forall_insert_2; [auto|]. by apply (Hc l (ODict d)).
Qed.

(** ** [deepcopy] makes new objects only *)

Lemma foldl_ext {A B} (f g : B → A → B) b l :
  (∀ b x, f b x = g b x) → foldl f b l = foldl g b l.
Proof. intros Hfg. revert b. induction l as [|x l IH]; intros b; simpl; [done|]. by rewrite Hfg, IH. Qed.

Lemma copy_post_refl base memo h :
  map_Forall (λ _ l', base ≤ l' ∧ l' < length h) memo → copy_post base h memo h.
Proof.
  intros Hm. split_and!; [done|done|done|].
  intros l o Hl Hlo. apply lookup_lt_Some in Hlo. lia.
Qed.

Lemma copy_post_trans base h m1 h1 m2 h2 :
  copy_post base h m1 h1 → copy_post base h1 m2 h2 → copy_post base h m2 h2.
Proof.
  intros (Hlen1 & Hag1 & Hm1 & Hnew1) (Hlen2 & Hag2 & Hm2 & Hnew2).
  split_and!; [lia| |done|].
  - intros l Hl. rewrite Hag2 by lia. by apply Hag1.
  - intros l o Hl Hlo. destruct (decide (l < length h1)) as [Hlt|Hge].
    + rewrite Hag2 in Hlo by done. eapply obj_all_impl; [|by eapply Hnew1].
      intros v Hv. eapply in_range_mono; [done|lia..].
    + apply (Hnew2 l); [lia|done].
Qed.

Lemma copy_pre_post n0 base memo h memo' h' :
  copy_pre n0 base memo h → copy_post base h memo' h' → copy_pre n0 base memo' h'.
Proof.
  intros (Hn0 & Hbase & Hreg & Hm) (Hlen & Hag & Hm' & Hnew).
  split_and!; [done|lia| |done].
  intros l o Hl Hlo. rewrite Hag in Hlo by lia. by eapply Hreg.
Qed.

Lemma copy_items_None {Y Acc} copy (proj : Y → val) (upd : Acc → Y → val → Acc) ys :
  foldl (copy_items copy proj upd) None ys = None.
Proof. by induction ys. Qed.

Lemma copy_items_spec {Y Acc} n0 base copy (proj : Y → val) (upd : Acc → Y → val → Acc)
    (R : nat → Acc → Prop) :
  (∀ memo v h v' memo' h',
     copy_pre n0 base memo h → in_range 0 n0 v → copy memo v h = Some (v', memo', h') →
     copy_post base h memo' h' ∧ in_range base (length h') v') →
  (∀ n n' a, R n a → n ≤ n' → R n' a) →
  (∀ n a y x, R n a → in_range base n x → R n (upd a y x)) →
  ∀ ys a memo h a' memo' h',
    Forall (λ y, in_range 0 n0 (proj y)) ys → copy_pre n0 base memo h → R (length h) a →
    foldl (copy_items copy proj upd) (Some (a, memo, h)) ys = Some (a', memo', h') →
    copy_post base h memo' h' ∧ R (length h') a'.
Proof.
  intros Hcopy Hmono Hupd ys.
  induction ys as [|y ys IH]; intros a memo h a' memo' h' Hys Hpre Ha Hfold.
  - simpl in Hfold. simplify_eq. split; [|done]. apply copy_post_refl, Hpre.
  - apply Forall_cons in Hys as [Hy Hys].
    assert (Hstep : copy_items copy proj upd (Some (a, memo, h)) y =
                    match copy memo (proj y) h with
                    | Some (x', m1, h1) => Some (upd a y x', m1, h1)
                    | None => None
                    end).
    { unfold copy_items. simpl. by destruct (copy _ _ _) as [[[??]?]|]. }
    cbn [foldl] in Hfold. rewrite Hstep in Hfold. clear Hstep.
    destruct (copy memo (proj y) h) as [[[x m1] h1]|] eqn:Hc;
      [|by rewrite copy_items_None in Hfold].
    destruct (Hcopy _ _ _ _ _ _ Hpre Hy Hc) as [Hpost Hx].
    pose proof Hpost as (Hlen & _).
    destruct (IH _ _ _ _ _ _ Hys (copy_pre_post _ _ _ _ _ _ Hpre Hpost)
                 (Hupd _ _ y _ (Hmono _ _ _ Ha Hlen) Hx) Hfold) as [Hpost2 Ha'].
    split; [|done]. by eapply copy_post_trans.
Qed.

Lemma deepcopy_spec n0 base fuel :
  ∀ memo v h v' memo' h',
    copy_pre n0 base memo h → in_range 0 n0 v →
    deepcopy fuel memo v h = Some (v', memo', h') →
    copy_post base h memo' h' ∧ in_range base (length h') v'.
Proof.
  assert (Hscalar : ∀ memo (v : val) h,
    copy_pre n0 base memo h → match v with VRef _ => False | _ => True end →
    copy_post base h memo h ∧ in_range base (length h) v).
  { intros memo v h Hpre Hv. split; [apply copy_post_refl, Hpre|]. by destruct v. }
  assert (Hhit : ∀ memo l l' h,
    copy_pre n0 base memo h → memo !! l = Some l' →
    copy_post base h memo h ∧ in_range base (length h) (VRef l')).
  { intros memo l l' h Hpre Hl. split; [apply copy_post_refl, Hpre|].
    destruct Hpre as (_ & _ & _ & Hm). apply (Hm l l' Hl). }
  induction fuel as [|f IH]; intros memo v h v' memo' h' Hpre Hv Hcopy.
  - destruct v as [| | | | | |l]; simpl in Hcopy; simplify_eq; try by apply Hscalar.
    destruct (memo !! l) as [l'|] eqn:Hm; simplify_eq. by eapply Hhit.
  - destruct v as [| | | | | |l]; simpl in Hcopy; simplify_eq; try by apply Hscalar.
    destruct (memo !! l) as [l'|] eqn:Hm; simplify_eq; [by eapply Hhit|].
    simpl in Hv. pose proof Hpre as (Hn0 & Hbase & Hreg & Hmemo).
    assert (Hpre1 : ∀ o, copy_pre n0 base (<[l := length h]> memo) (h ++ [o])).
    { intros o. split_and!; [done|rewrite length_app; lia| |].
      - intros l1 o1 Hl1 Hlo1. rewrite lookup_app_l in Hlo1 by lia. by eapply Hreg.
      - rewrite length_app; simpl. apply map_Forall_insert_2; [lia|].
        eapply map_Forall_impl; [exact Hmemo|]. simpl. lia. }
    assert (Hend : ∀ o o' m1 h1,
      copy_post base (h ++ [o]) m1 h1 → obj_all (in_range base (length h1)) o' →
      copy_post base h m1 (<[length h := o']> h1) ∧
      in_range base (length (<[length h := o']> h1)) (VRef (length h))).
    { intros o o' m1 h1 (Hlen & Hag & Hm1 & Hnew) Ho'.
      rewrite length_app in Hlen, Hag. simpl in Hlen, Hag.
      split; [|rewrite length_insert; simpl; lia].
      unfold copy_post. rewrite length_insert. split_and!; [lia| |done|].
      - intros l1 Hl1. rewrite list_lookup_insert_ne by lia.
        rewrite Hag by lia. by apply lookup_app_l.
      - intros l1 o1 Hl1 Hlo1. destruct (decide (l1 = length h)) as [->|Hne].
        + rewrite list_lookup_insert_eq in Hlo1 by lia. by simplify_eq.
        + rewrite list_lookup_insert_ne in Hlo1 by done.
          apply (Hnew l1); [|done]. rewrite length_app; simpl; lia. }
    destruct (h !! l) as [[d|xs|]|] eqn:Hl.
    + rewrite (foldl_ext _ (copy_items (deepcopy f) snd (λ d0 y x', <[y.1 := x']> d0)))
        in Hcopy by (by intros [[[??]?]|] [??]).
      destruct (foldl _ _ (map_to_list d)) as [[[d' m1] h1]|] eqn:Hfold;
        simpl in Hcopy; simplify_eq.
      apply (copy_items_spec n0 base (deepcopy f) snd _
               (λ n (d0 : gmap string val), map_Forall (λ _, in_range base n) d0)) in Hfold.
      * destruct Hfold as [Hpost Hd']. by eapply Hend.
      * exact IH.
      * intros n n' a Ha Hle. eapply map_Forall_impl; [exact Ha|].
        intros ? x Hx. simpl in Hx. eapply in_range_mono; [done|lia..].
      * intros n a y x Ha Hx. by apply map_Forall_insert_2.
      * specialize (Hreg l _ (proj2 Hv) Hl). simpl in Hreg.
        apply map_Forall_to_list in Hreg.
        eapply Forall_impl; [exact Hreg|]. by intros [??].
      * apply Hpre1.
      * apply map_Forall_empty.
    + rewrite (foldl_ext _ (copy_items (deepcopy f) id (λ xs0 _ x', xs0 ++ [x'])))
        in Hcopy by (by intros [[[??]?]|] ?).
      destruct (foldl _ _ xs) as [[[xs' m1] h1]|] eqn:Hfold;
        simpl in Hcopy; simplify_eq.
      apply (copy_items_spec n0 base (deepcopy f) id _
               (λ n (xs0 : list val), Forall (in_range base n) xs0)) in Hfold.
      * destruct Hfold as [Hpost Hxs']. by eapply Hend.
      * exact IH.
      * intros n n' a Ha Hle. eapply Forall_impl; [exact Ha|].
        intros x Hx. simpl in Hx. eapply in_range_mono; [done|lia..].
      * intros n a y x Ha Hx. apply Forall_app. by repeat constructor.
      * apply (Hreg l _ (proj2 Hv) Hl).
      * apply Hpre1.
      * constructor.
    + simplify_eq. by apply Hscalar.
    + apply lookup_ge_None in Hl. lia.
Qed.

(** ** [merge_hash] makes new objects only *)

Lemma grows_refl n0 t h : grows n0 t h h.
Proof. exists []. by rewrite app_nil_r. Qed.

Lemma grows_length n0 t h h' : grows n0 t h h' → length h ≤ length h'.
Proof. intros (new & -> & _). rewrite length_app. lia. Qed.

Lemma grows_trans n0 t h1 h2 h3 : grows n0 t h1 h2 → grows n0 t h2 h3 → grows n0 t h1 h3.
Proof.
  intros (n1 & -> & Hn1) (n2 & -> & Hn2).
  exists (n1 ++ n2). rewrite app_assoc. split; [done|].
  apply Forall_app. split; [|done].
  eapply Forall_obj_all_impl; [|done]. intros x Hx.
  eapply good_mono; [done|]. rewrite (length_app (_ ++ _)). lia.
Qed.

Lemma grows_snoc n0 t h o :
  obj_all (good n0 t (S (length h))) o → grows n0 t h (h ++ [o]).
Proof.
  intros Ho. exists [o]. split; [done|]. rewrite length_app, Nat.add_1_r.
  by repeat constructor.
Qed.

Lemma grows_closed n0 t h h' : closed n0 t h → grows n0 t h h' → closed n0 t h'.
Proof. intros Hc (new & -> & Hnew). by apply closed_app. Qed.

Lemma closed_get_dict n0 t h v d :
  closed n0 t h → good n0 t (length h) v → get_dict h v = Some d →
  map_Forall (λ _, good n0 t (length h)) d.
Proof.
  intros Hc Hv Hd. destruct v as [| | | | | |l]; try done.
  destruct Hv as (Hn0 & _ & Hne).
  apply (dict_at_Some h l d) in Hd. apply (Hc l (ODict d) Hn0 Hne Hd).
Qed.

Lemma merge_hash_unfold f x y h :
  merge_hash (S f) x y h = foldl (merge_item (merge_hash f) x) (Some (x, h)) (map_to_list y).
Proof. simpl. apply foldl_ext. by intros [[??]|] [??]. Qed.

Lemma merge_item_None rec x ys : foldl (merge_item rec x) None ys = None.
Proof. by induction ys. Qed.

Lemma map_Forall_good_mono n0 t n n' (d : gmap string val) :
  map_Forall (λ _, good n0 t n) d → n ≤ n' → map_Forall (λ _, good n0 t n') d.
Proof.
  intros Hd Hle. eapply map_Forall_impl; [exact Hd|].
  intros k v Hv. simpl in Hv. by eapply good_mono.
Qed.

Lemma merge_hash_spec n0 t fuel :
  ∀ x y h dm h',
    closed n0 t h → n0 ≤ t → t < length h →
    map_Forall (λ _, good n0 t (length h)) x →
    map_Forall (λ _, good n0 t (length h)) y →
    merge_hash fuel x y h = Some (dm, h') →
    grows n0 t h h' ∧ map_Forall (λ _, good n0 t (length h')) dm.
Proof.
  induction fuel as [|f IH]; intros x y h dm h' Hc Hn0 Ht Hx Hy Hm; [done|].
  rewrite merge_hash_unfold in Hm.
  apply map_Forall_to_list in Hy.
  assert (Hfold : ∀ ys d hc,
    Forall (λ kv, good n0 t (length h) kv.2) ys →
    grows n0 t h hc → map_Forall (λ _, good n0 t (length hc)) d →
    foldl (merge_item (merge_hash f) x) (Some (d, hc)) ys = Some (dm, h') →
    grows n0 t h h' ∧ map_Forall (λ _, good n0 t (length h')) dm).
  { clear Hm Hy. induction ys as [|[k vy] ys IHys]; intros d hc Hys Hg Hd Hfold.
    - simpl in Hfold. by simplify_eq.
    - apply Forall_cons in Hys as [Hvy Hys]. simpl in Hvy.
      pose proof (grows_length _ _ _ _ Hg) as Hlen.
      pose proof (grows_closed _ _ _ _ Hc Hg) as Hcc.
      assert (Hkeep : foldl (merge_item (merge_hash f) x) (Some (<[k := vy]> d, hc)) ys
                      = Some (dm, h') →
                      grows n0 t h h' ∧ map_Forall (λ _, good n0 t (length h')) dm).
      { apply IHys; [done|done|]. apply map_Forall_insert_2; [|done].
        by eapply good_mono. }
      cbn [foldl] in Hfold. unfold merge_item at 2 in Hfold. simpl in Hfold.
      destruct (x !! k) as [vx|] eqn:Hxk; [|by apply Hkeep].
      destruct (get_dict hc vx) as [dx|] eqn:Hdx; [|by apply Hkeep].
      destruct (get_dict hc vy) as [dy|] eqn:Hdy; [|by apply Hkeep].
      destruct (merge_hash f dx dy hc) as [[dmm h1]|] eqn:Hrec; simpl in Hfold;
        [|by rewrite merge_item_None in Hfold].
      destruct (IH dx dy hc dmm h1) as [Hg1 Hdmm]; [done|done|lia| | |done|].
      + eapply closed_get_dict; [done| |done]. eapply good_mono; [|done]. by apply (Hx k).
      + eapply closed_get_dict; [done| |done]. by eapply good_mono.
      + pose proof (grows_length _ _ _ _ Hg1) as Hlen1.
        eapply IHys; [done| | |exact Hfold].
        * eapply grows_trans; [done|]. eapply grows_trans; [done|].
          apply grows_snoc. simpl.
          eapply map_Forall_good_mono; [done|lia].
        * rewrite length_app. simpl. apply map_Forall_insert_2.
          -- simpl. lia.
          -- eapply map_Forall_good_mono; [done|lia]. }
  eapply Hfold; [| |done|done].
  - eapply Forall_impl; [exact Hy|]. by intros [??].
  - apply grows_refl.
Qed.

(** ** Rules for runs from one heap *)

Lemma triple_wp {A} (P : heap → Prop) (m : M A) Q E :
  triple P m Q E ↔ ∀ h, P h → wp m Q E h.
Proof. done. Qed.

Lemma wp_mono {A} (m : M A) (Q Q' : A → heap → Prop) (E E' : heap → Prop) h :
  wp m Q E h → (∀ a h', Q a h' → Q' a h') → (∀ h', E h' → E' h') → wp m Q' E' h.
Proof. unfold wp. destruct (m h) as [[a| |] st]; simpl; auto. Qed.

Lemma wp_bind {A B} (m : M A) (f : A → M B) (Q : B → heap → Prop) E h :
  wp m (λ a h', wp (f a) Q E h') E h → wp (m ≫= f) Q E h.
Proof.
  unfold wp, mbind, M_bind. destruct (m h) as [[a| |] st]; simpl; [|done..].
  by destruct (f a (st_heap st)) as [[b| |] st'].
Qed.

Lemma wp_ret {A} (a : A) (Q : A → heap → Prop) E h : Q a h → wp (mret a) Q E h.
Proof. done. Qed.

Lemma wp_raise {A} e (Q : A → heap → Prop) (E : heap → Prop) h : E h → wp (raise e) Q E h.
Proof. done. Qed.

Lemma wp_emit ev (Q : unit → heap → Prop) E h : Q () h → wp (emit ev) Q E h.
Proof. done. Qed.

Lemma wp_get_heap (Q : heap → heap → Prop) E h : Q h h → wp get_heap Q E h.
Proof. done. Qed.

Lemma wp_put_heap h' (Q : unit → heap → Prop) E h : Q () h' → wp (put_heap h') Q E h.
Proof. done. Qed.

Lemma wp_new_obj o (Q : loc → heap → Prop) E h :
  Q (length h) (h ++ [o]) → wp (new_obj o) Q E h.
Proof. done. Qed.

Lemma wp_lift_fuel {A} (o : option A) (Q : A → heap → Prop) (E : heap → Prop) h :
  (∀ a, o = Some a → Q a h) → E h → wp (lift_fuel o) Q E h.
Proof. intros HQ HE. destruct o; [by apply HQ|done]. Qed.

Lemma wp_expect_dict l (Q : gmap string val → heap → Prop) (E : heap → Prop) h :
  (∀ d, dict_at h l = Some d → Q d h) → E h → wp (expect_dict l) Q E h.
Proof.
  intros HQ HE. unfold wp, expect_dict, mbind, M_bind, get_heap. simpl.
  destruct (dict_at h l) as [d|]; simpl; auto.
Qed.

(** A computation that leaves the heap as it is. *)
Lemma wp_readonly {A} (m : M A) (Q : A → heap → Prop) (E : heap → Prop) h :
  st_heap (m h).2 = h → (∀ a, Q a h) → E h → wp m Q E h.
Proof. unfold wp. intros ->. destruct (m h).1; auto. Qed.

Lemma wp_foldM {A B} (I : B → heap → Prop) (f : B → A → M B) (l : list A) E :
  (∀ b x h, x ∈ l → I b h → wp (f b x) I E h) →
  ∀ b h, I b h → wp (foldM f b l) I E h.
Proof.
  induction l as [|x l IH]; intros Hf b h Hb; [done|].
  simpl. apply wp_bind. eapply wp_mono; [apply Hf; [by left|done]| |done].
  intros b' h' Hb'. apply IH; [|done]. intros b1 y h1 Hy. apply Hf. by right.
Qed.

(** The same with an invariant that knows the items already done. *)
Lemma wp_foldM_done {A B} (f : B → A → M B) (l : list A) E :
  ∀ (I : list A → B → heap → Prop),
    (∀ done x rest b h, l = done ++ x :: rest → I done b h → wp (f b x) (I (done ++ [x])) E h) →
    ∀ b h, I [] b h → wp (foldM f b l) (I l) E h.
Proof.
  induction l as [|x l IH]; intros I Hf b h Hb; [done|].
  simpl. apply wp_bind. eapply wp_mono; [by apply (Hf [] x l)| |done].
  intros b' h' Hb'. simpl in Hb'.
  apply (IH (λ done, I (x :: done))); [|done].
  intros done y rest b1 h1 -> Hb1. by apply (Hf (x :: done) y rest).
Qed.

(** ** The invariant of a run *)

Lemma copy_post_grows n0 t base h memo h' :
  copy_post base h memo h' → n0 ≤ base → t < base → grows n0 t h h'.
Proof.
  intros (Hlen & Hag & _ & Hnew) Hn0 Ht. exists (drop (length h) h'). split.
  - apply list_eq. intros i. destruct (decide (i < length h)) as [Hi|Hi].
    + rewrite lookup_app_l by done. by apply Hag.
    + rewrite lookup_app_r, lookup_drop by lia. f_equal. lia.
  - apply Forall_lookup. intros i o Hi. rewrite lookup_drop in Hi.
    eapply obj_all_impl; [|apply (Hnew _ _ (Nat.le_add_r _ _) Hi)].
    intros v Hv. eapply in_range_good; [done|lia..].
Qed.

Lemma allocates_grows n0 t h h' v :
  allocates h h' v → n0 ≤ length h → t < length h →
  grows n0 t h h' ∧ good n0 t (length h') v.
Proof.
  intros (new & -> & Hv & Hnew) Hn0 Ht. split.
  - exists new. split; [done|]. eapply Forall_obj_all_impl; [|done].
    intros x Hx. eapply in_range_good; [done|lia..].
  - eapply in_range_good; [done|lia..].
Qed.

Section invariant.
Variables (h0 : heap) (pv : gmap string val).
Hypothesis Hwf0 : heap_wf h0.

Lemma inv_bounds t h :
  inv_weak h0 pv t h → length h0 ≤ t ∧ t < length h.
Proof.
  intros (_ & _ & _ & Hn0 & dt & Hdt & _). split; [done|]. by eapply dict_at_lt.
Qed.

Lemma inv_frozen t h : inv_weak h0 pv t h → frozen h0 h.
Proof. by intros [? _]. Qed.

Lemma inv_weak_intro t h :
  frozen h0 h → heap_wf h → closed (length h0) t h → length h0 ≤ t →
  (∃ dt, dict_at h t = Some dt ∧
     map_Forall (λ k v, match pv !! k with
                        | Some p => v = p
                        | None => good (length h0) t (length h) v
                        end) dt) →
  inv_weak h0 pv t h.
Proof. by unfold inv_weak, target_weak. Qed.

Lemma inv_grows t h h' :
  inv_weak h0 pv t h → grows (length h0) t h h' → inv_weak h0 pv t h'.
Proof.
  intros Hinv Hg. pose proof (inv_bounds _ _ Hinv) as [Hn0 Ht].
  destruct Hinv as (Hf & Hwf & Hc & _ & dt & Hdt & Hvals).
  pose proof (grows_length _ _ _ _ Hg) as Hlen.
  pose proof (grows_closed _ _ _ _ Hc Hg) as Hc'.
  destruct Hg as (new & -> & Hnew).
  apply inv_weak_intro; [by apply frozen_app| |done|done|].
  - apply heap_wf_app; [done|]. eapply Forall_obj_all_impl; [|done].
    intros v. apply good_in_range.
  - exists dt. split.
    + apply dict_at_Some. apply lookup_app_l_Some. by apply dict_at_Some.
    + eapply map_Forall_impl; [exact Hvals|]. intros k v Hv. simpl in *.
      destruct (pv !! k); [done|]. by eapply good_mono.
Qed.

Lemma inv_set_target t h k v :
  inv_weak h0 pv t h → pv !! k = None → good (length h0) t (length h) v →
  inv_weak h0 pv t (dict_set t k v h).
Proof.
  intros Hinv Hk Hv. pose proof (inv_bounds _ _ Hinv) as [Hn0 Ht].
  destruct Hinv as (Hf & Hwf & Hc & _ & dt & Hdt & Hvals).
  apply inv_weak_intro; [by apply frozen_dict_set| | |done|].
  - apply heap_wf_dict_set; [done|]. by eapply good_in_range.
  - by apply closed_dict_set.
  - exists (<[k := v]> dt). split; [by apply dict_at_set_eq|].
    rewrite dict_set_length. apply map_Forall_insert_2; [by rewrite Hk|done].
Qed.

Lemma inv_set_other t h l k v :
  inv_weak h0 pv t h → length h0 ≤ l → l ≠ t → good (length h0) t (length h) v →
  inv_weak h0 pv t (dict_set l k v h).
Proof.
  intros Hinv Hl Hne Hv. pose proof (inv_bounds _ _ Hinv) as [Hn0 Ht].
  destruct Hinv as (Hf & Hwf & Hc & _ & dt & Hdt & Hvals).
  apply inv_weak_intro; [by apply frozen_dict_set| | |done|].
  - apply heap_wf_dict_set; [done|]. by eapply good_in_range.
  - by apply closed_dict_set.
  - exists dt. split; [by rewrite dict_at_set_ne|]. by rewrite dict_set_length.
Qed.

Lemma inv_region_closed t h : inv_weak h0 pv t h → region_closed (length h0) h.
Proof.
  intros (Hf & _) l o Hl Hlo. rewrite (Hf l Hl) in Hlo. by eapply heap_wf_obj.
Qed.

Lemma inv_deepcopy depth t h v v' memo h' :
  inv_weak h0 pv t h → in_range 0 (length h0) v →
  deepcopy depth ∅ v h = Some (v', memo, h') →
  grows (length h0) t h h' ∧ good (length h0) t (length h') v'.
Proof.
  intros Hinv Hv Hcopy. pose proof (inv_bounds _ _ Hinv) as [Hn0 Ht].
  destruct (deepcopy_spec (length h0) (length h) depth ∅ v h v' memo h') as [Hpost Hv'];
    [|done|done|].
  { split_and!; [lia|done|by eapply inv_region_closed|apply map_Forall_empty]. }
  split; [eapply copy_post_grows; [done|lia..]|]. eapply in_range_good; [done|lia..].
Qed.

End invariant.

Lemma inv_retarget h0 t h dm :
  inv_weak h0 ∅ t h → map_Forall (λ _, good (length h0) t (length h)) dm →
  inv_weak h0 ∅ (length h) (h ++ [ODict dm]).
Proof.
  intros Hinv Hdm. pose proof (inv_bounds _ _ _ _ Hinv) as [Hn0 Ht].
  destruct Hinv as (Hf & Hwf & Hc & _ & dt & Hdt & Hvals).
  assert (Hre : ∀ d : gmap string val,
    map_Forall (λ _, good (length h0) t (length h)) d →
    map_Forall (λ _, good (length h0) (length h) (length (h ++ [ODict dm]))) d).
  { intros d Hd. eapply map_Forall_impl; [exact Hd|]. intros k v Hv. simpl in Hv.
    eapply good_retarget; [done|lia|]. rewrite length_app. lia. }
  unfold inv_weak, target_weak. split_and!; [by apply frozen_app| | |lia|].
  - apply heap_wf_app; [done|]. repeat constructor. simpl.
    eapply map_Forall_impl; [apply (Hre _ Hdm)|]. intros k v. apply good_in_range.
  - intros l o Hl Hne Hlo. apply lookup_app_Some in Hlo as [Hlo|[Hge Hlo]].
    + destruct (decide (l = t)) as [->|Hnet].
      * apply dict_at_Some in Hdt. rewrite Hdt in Hlo. simplify_eq. simpl.
        apply Hre. eapply map_Forall_impl; [exact Hvals|]. intros k v Hv. simpl in Hv.
        by rewrite lookup_empty in Hv.
      * eapply obj_all_impl; [|by apply (Hc l o)]. intros v Hv.
        eapply good_retarget; [done|lia|]. rewrite length_app. lia.
    + apply lookup_lt_Some in Hlo. simpl in Hlo. lia.
  - exists dm. split; [apply dict_at_app_new|].
    eapply map_Forall_impl; [apply (Hre _ Hdm)|]. intros k v Hv. simpl in *.
    by rewrite lookup_empty.
Qed.

Lemma wp_timeout {A} (Q : A → heap → Prop) (E : heap → Prop) h : E h → wp timeout Q E h.
Proof. done. Qed.

Lemma inv_strong_target h0 t h dt :
  inv_weak h0 ∅ t h → dict_at h t = Some dt →
  map_Forall (λ _, good (length h0) t (length h)) dt.
Proof.
  intros (_ & _ & _ & _ & dt' & Hdt' & Hvals) Hdt. simplify_eq.
  eapply map_Forall_impl; [exact Hvals|]. intros k v Hv. simpl in Hv.
  by rewrite lookup_empty in Hv.
Qed.

Lemma inv_empty_target h0 pv t h :
  inv_weak h0 ∅ t h → dict_at h t = Some ∅ → inv_weak h0 pv t h.
Proof.
  intros (Hf & Hwf & Hc & Hn0 & _) Hdt. apply inv_weak_intro; [done..|].
  exists ∅. split; [done|]. apply map_Forall_empty.
Qed.

Lemma inv_init h0 : heap_wf h0 → inv_weak h0 ∅ (length h0) (h0 ++ [ODict ∅]).
Proof.
  intros Hwf. apply inv_weak_intro; [apply frozen_app, frozen_refl| | |done|].
  - apply heap_wf_app; [done|]. repeat constructor. simpl. apply map_Forall_empty.
  - intros l o Hl Hne Hlo. apply lookup_lt_Some in Hlo.
    rewrite length_app in Hlo. simpl in Hlo. lia.
  - exists ∅. split; [apply dict_at_app_new|apply map_Forall_empty].
Qed.

Section run_invariant.
Variables (h0 : heap) (c : context) (ev : gmap string val).
Hypothesis Hwf0 : heap_wf h0.
Hypothesis Htv : task_vars c < length h0.
Hypothesis Hxv : extra_vars c < length h0.
Hypothesis Hev : ∀ d, dict_at h0 (extra_vars c) = Some d → d = ev.

Lemma ansible_version_tuple_heap h : st_heap (ansible_version_tuple c h).2 = h.
Proof.
  unfold ansible_version_tuple, expect_dict. munfold. simpl.
  repeat (case_match; simpl; try done).
Qed.

(** What a dict of the context holds was there before the run. *)
Lemma context_value l h d k v :
  frozen h0 h → l < length h0 → dict_at h l = Some d → d !! k = Some v →
  in_range 0 (length h0) v.
Proof.
  intros Hf Hl Hd Hk. rewrite (frozen_dict_at h0 h l Hf Hl) in Hd.
  apply dict_at_Some in Hd. apply (heap_wf_obj h0 l _ Hwf0 Hd k v Hk).
Qed.

Lemma extra_vars_read h d : frozen h0 h → dict_at h (extra_vars c) = Some d → d = ev.
Proof. intros Hf Hd. apply Hev. by rewrite <- (frozen_dict_at h0 h _ Hf Hxv). Qed.

Lemma wp_seed pv depth t k h :
  inv_weak h0 pv t h → pv !! k = None →
  wp (seed depth c t k) (λ _ h', inv_weak h0 pv t h' ∧ length h ≤ length h') (frozen h0) h.
Proof.
  intros Hinv Hk. pose proof (inv_frozen _ _ _ _ Hinv) as Hf.
  unfold seed. apply wp_bind, wp_expect_dict; [|done]. intros dt Hdt.
  destruct (dt !! k); [by apply wp_ret|].
  apply wp_bind, wp_expect_dict; [|done]. intros tv Htvd.
  destruct (tv !! k) as [v|] eqn:Hv; [|by apply wp_ret].
  apply wp_bind, wp_get_heap.
  apply wp_bind, wp_lift_fuel; [|done]. intros [[v' memo] h'] Hcopy. simpl.
  apply wp_bind, wp_put_heap, wp_ret.
  destruct (inv_deepcopy h0 pv Hwf0 depth t h v v' memo h') as [Hg Hv']; [done| |done|].
  { exact (context_value (task_vars c) h tv k v Hf Htv Htvd Hv). }
  split.
  - apply inv_set_target; [by eapply inv_grows|done..].
  - rewrite dict_set_length. by eapply grows_length.
Qed.

Lemma wp_load_file depth e filename orig t h :
  inv_strong h0 t h →
  wp (load_file depth e c filename orig t) (λ r h', inv_strong h0 r.2 h') (frozen h0) h.
Proof.
  unfold inv_strong. intros Hinv. pose proof (inv_frozen _ _ _ _ Hinv) as Hf.
  pose proof (inv_bounds _ _ _ _ Hinv) as [Hn0 Ht].
  unfold load_file.
  apply wp_bind, wp_readonly; [apply ansible_version_tuple_heap| |done]. intros _.
  apply wp_bind, wp_emit.
  apply wp_bind.
  destruct (load_from_file e filename) as [[s|l|m]|]; try by apply wp_raise.
  apply wp_ret.
  apply wp_bind, wp_get_heap.
  pose proof (alloc_tree_spec (Mapping m) h) as Ha.
  destruct (alloc_tree (Mapping m) h) as [cur h1] eqn:Hat. simpl in Ha.
  destruct (allocates_grows (length h0) t _ _ _ Ha) as [Hg Hcur]; [lia|done|].
  pose proof (inv_grows _ _ _ _ _ Hinv Hg) as Hinv1.
  apply wp_bind, wp_put_heap.
  apply wp_bind.
  destruct (get_dict h1 cur) as [cfv|] eqn:Hcfv;
    [apply wp_ret|by apply wp_raise; eapply inv_frozen].
  assert (Hcfvg : map_Forall (λ _, good (length h0) t (length h1)) cfv).
  { eapply closed_get_dict; [apply Hinv1|done..]. }
  apply wp_bind.
  eapply wp_mono;
    [apply (wp_foldM (λ _ h', inv_weak h0 ∅ t h' ∧ length h1 ≤ length h'))| |done].
  - intros orig1 k h2 _ [Hinv2 Hlen2]. unfold seed_file_key.
    apply wp_bind. eapply wp_mono; [apply wp_seed; [done|apply lookup_empty]| |done].
    intros s h3 [Hinv3 Hlen3]. apply wp_ret. split; [done|lia].
  - by split.
  - intros orig' h2 [Hinv2 Hlen2]. pose proof (inv_frozen _ _ _ _ Hinv2) as Hf2.
    pose proof (inv_bounds _ _ _ _ Hinv2) as [_ Ht2].
    apply wp_bind, wp_expect_dict; [|done]. intros dt Hdt.
    apply wp_bind, wp_get_heap.
    apply wp_bind, wp_lift_fuel; [|done]. intros [dm h3] Hm. simpl.
    apply wp_bind, wp_put_heap. apply wp_bind, wp_new_obj, wp_ret. simpl.
    destruct (merge_hash_spec (length h0) t depth dt cfv h2 dm h3) as [Hg3 Hdm];
      [apply Hinv2|done|done|by eapply inv_strong_target| |done|].
    { by eapply map_Forall_good_mono. }
    apply (inv_retarget h0 t); [by eapply inv_grows|done].
Qed.

Lemma wp_load_loop depth e exts fuel :
  ∀ i ls orig t h,
    inv_strong h0 t h →
    wp (load_loop depth fuel e exts c i ls orig t) (λ r h', inv_strong h0 r.2 h')
       (frozen h0) h.
Proof.
  induction fuel as [|f IH]; intros i ls orig t h Hinv; simpl.
  - by apply wp_timeout, (inv_frozen h0 ∅ t).
  - destruct (files_of ls !! i) as [filename|]; [|by apply wp_ret].
    destruct (ext_allowed exts filename).
    + apply wp_bind. eapply wp_mono; [by apply wp_load_file| |done].
      intros [orig' t'] h' Hinv'. simpl in *. by apply IH.
    + apply wp_bind, wp_emit. by apply IH.
Qed.

Lemma wp_protect_key t todo done x h :
  pinning h0 ev todo done t h →
  wp (protect_key c t () x) (λ _ h', pinning h0 ev todo (done ++ [x]) t h') (frozen h0) h.
Proof.
  intros (Hf & Hwf & Hc & Hn0 & dt & Hdt & Hvals).
  unfold protect_key. apply wp_bind, wp_emit.
  apply wp_bind, wp_expect_dict; [|done]. intros evd Hevd.
  pose proof (extra_vars_read _ _ Hf Hevd) as ->.
  destruct (ev !! x) as [v|] eqn:Hx; [|by apply wp_raise].
  apply wp_bind, wp_get_heap, wp_put_heap.
  assert (Hv : in_range 0 (length h) v).
  { eapply in_range_mono; [exact (context_value (extra_vars c) h ev x v Hf Hxv Hevd Hx)|lia|].
    by apply frozen_length. }
  split_and!; [by apply frozen_dict_set|by apply heap_wf_dict_set| |done|].
  - by apply closed_dict_set.
  - exists (<[x := v]> dt). split; [by apply dict_at_set_eq|].
    rewrite dict_set_length. intros k v' Hk.
    apply lookup_insert_Some in Hk as [[<- <-]|[Hne Hk]].
    + rewrite Hx. by left.
    + specialize (Hvals k v' Hk). simpl in Hvals. destruct (ev !! k); [|done].
      destruct Hvals as [?|(Hnd & Htodo & Hg)]; [by left|right].
      split_and!; [|done..]. rewrite elem_of_app, list_elem_of_singleton.
      intros [?|?]; [done|congruence].
Qed.

Lemma wp_protect t h :
  inv_strong h0 t h → wp (protect c t) (λ _ h', inv_weak h0 ev t h') (frozen h0) h.
Proof.
  unfold inv_strong. intros Hinv. pose proof (inv_frozen _ _ _ _ Hinv) as Hf.
  unfold protect. apply wp_bind, wp_expect_dict; [|done]. intros dt Hdt.
  apply wp_bind. destruct (decide (dt = ∅)) as [->|Hne].
  { apply wp_ret. simpl. apply wp_ret. by apply inv_empty_target. }
  apply wp_bind, wp_expect_dict; [|done]. intros evd Hevd.
  pose proof (extra_vars_read _ _ Hf Hevd) as ->. apply wp_ret.
  set (todo := filter (λ k, k ∈ dom ev) (map_to_list dt).*1).
  eapply wp_mono;
    [apply (wp_foldM_done _ _ _ (λ done _ h', pinning h0 ev todo done t h'))| |done].
  - intros done x rest [] h1 _ Hp. by apply wp_protect_key.
  - destruct Hinv as (_ & Hwf & Hc & Hn0 & dt' & Hdt' & Hvals).
    rewrite Hdt in Hdt'. injection Hdt' as <-.
    split_and!; [done..|]. exists dt. split; [done|].
    intros k v Hk. specialize (Hvals k v Hk). simpl in *.
    rewrite lookup_empty in Hvals.
    destruct (ev !! k) as [p|] eqn:Hevk; [|done]. right.
    split_and!; [apply not_elem_of_nil| |done].
    apply list_elem_of_filter. split; [by apply elem_of_dom|].
    apply list_elem_of_fmap. exists (k, v). split; [done|].
    by apply elem_of_map_to_list.
  - intros [] h1 (Hf1 & Hwf1 & Hc1 & Hn0 & dt1 & Hdt1 & Hvals).
    apply inv_weak_intro; [done..|]. exists dt1. split; [done|].
    intros k v Hk. specialize (Hvals k v Hk). simpl in *.
    destruct (ev !! k); [|done]. by destruct Hvals as [?|(? & ? & _)].
Qed.

Lemma wp_files_phase depth e o sources t h :
  inv_strong h0 t h →
  wp (files_phase depth e o c sources t) (λ r h', inv_weak h0 ev r.1.2 h') (frozen h0) h.
Proof.
  intros Hinv. pose proof (inv_frozen _ _ _ _ Hinv) as Hf. unfold files_phase.
  apply wp_bind, wp_readonly; [apply resolve_from_heap| |done]. intros ls.
  apply wp_bind. eapply wp_mono; [by apply wp_load_loop| |done].
  intros [[ls' orig] t'] h1 Hinv1. simpl in *.
  apply wp_bind. eapply wp_mono; [by apply wp_protect| |done].
  intros [] h2 Hinv2. pose proof (inv_frozen _ _ _ _ Hinv2) as Hf2.
  apply wp_bind, wp_expect_dict; [|done]. intros dt Hdt.
  apply wp_bind, wp_get_heap.
  apply wp_bind, wp_lift_fuel; [|done]. intros diffs _. by apply wp_ret.
Qed.

Lemma wp_walk_step t cur key h :
  inv_weak h0 ev t h → length h0 ≤ cur → (cur = t → ev !! key = None) →
  wp (walk_step cur key)
     (λ l h', inv_weak h0 ev t h' ∧ length h0 ≤ l ∧ l ≠ t ∧ length h ≤ length h')
     (frozen h0) h.
Proof.
  intros Hinv Hcur Hkey. pose proof (inv_frozen _ _ _ _ Hinv) as Hf.
  pose proof (inv_bounds _ _ _ _ Hinv) as [Hn0 Ht].
  unfold walk_step. apply wp_bind, wp_expect_dict; [|done]. intros d Hd.
  apply wp_bind, wp_get_heap.
  assert (Hcreate : wp (l ← new_obj (ODict ∅); h' ← get_heap;
                        put_heap (dict_set cur key (VRef l) h');; mret l)
     (λ l h', inv_weak h0 ev t h' ∧ length h0 ≤ l ∧ l ≠ t ∧ length h ≤ length h')
     (frozen h0) h).
  { apply wp_bind, wp_new_obj, wp_bind, wp_get_heap, wp_bind, wp_put_heap, wp_ret.
    assert (Hinv1 : inv_weak h0 ev t (h ++ [ODict ∅])).
    { eapply inv_grows; [done|]. apply grows_snoc. simpl. apply map_Forall_empty. }
    assert (Hnew : good (length h0) t (length (h ++ [ODict ∅])) (VRef (length h))).
    { rewrite length_app. simpl. lia. }
    rewrite dict_set_length, length_app. split_and!; [|lia..].
    destruct (decide (cur = t)) as [->|Hne].
    - apply inv_set_target; auto.
    - by apply inv_set_other. }
  destruct (d !! key) as [v|] eqn:Hv; simpl; [|exact Hcreate].
  destruct (get_dict h v) as [dv|] eqn:Hdv; [|exact Hcreate].
  destruct v as [| | | | | |l]; try exact Hcreate.
  apply wp_ret.
  assert (Hl : good (length h0) t (length h) (VRef l)).
  { destruct (decide (cur = t)) as [->|Hne].
    - destruct Hinv as (_ & _ & _ & _ & dt & Hdt & Hvals). simplify_eq.
      specialize (Hvals key _ Hv). simpl in Hvals. by rewrite (Hkey eq_refl) in Hvals.
    - destruct Hinv as (_ & _ & Hc & _). apply dict_at_Some in Hd.
      apply (Hc cur _ Hcur Hne Hd key _ Hv). }
  simpl in Hl. split_and!; [done|lia..].
Qed.

Lemma wp_set_last depth t cur k v n h :
  inv_weak h0 ev t h → length h0 ≤ cur → (cur = t → ev !! k = None) →
  good (length h0) t n v → n ≤ length h →
  wp (d ← expect_dict cur; h1 ← get_heap;
      ne ← lift_fuel (py_ne depth h1 (default VNone (d !! k)) v);
      put_heap (dict_set cur k v h1);; mret ne)
     (λ _ h', inv_weak h0 ev t h') (frozen h0) h.
Proof.
  intros Hinv Hcur Hkey Hv Hn. pose proof (inv_frozen _ _ _ _ Hinv) as Hf.
  apply wp_bind, wp_expect_dict; [|done]. intros d Hd.
  apply wp_bind, wp_get_heap. apply wp_bind, wp_lift_fuel; [|done]. intros ne _.
  apply wp_bind, wp_put_heap, wp_ret.
  assert (Hv' : good (length h0) t (length h) v) by by eapply good_mono.
  destruct (decide (cur = t)) as [->|Hne].
  - apply inv_set_target; auto.
  - by apply inv_set_other.
Qed.

Lemma wp_apply_literal depth t k0 ks v h :
  inv_weak h0 ev t h → ev !! k0 = None → good (length h0) t (length h) v →
  wp (apply_literal depth t (k0 :: ks) v) (λ _ h', inv_weak h0 ev t h') (frozen h0) h.
Proof.
  intros Hinv Hk0 Hv. pose proof (inv_bounds _ _ _ _ Hinv) as [Hn0 Ht].
  unfold apply_literal. destruct ks as [|k1 ks].
  - simpl. apply wp_bind, wp_ret. by apply (wp_set_last depth t t k0 v (length h)).
  - change (removelast (k0 :: k1 :: ks)) with (k0 :: removelast (k1 :: ks)).
    generalize (default "" (last (k0 :: k1 :: ks))). intros k.
    generalize (removelast (k1 :: ks)). intros rest.
    apply wp_bind. simpl. apply wp_bind.
    eapply wp_mono; [by apply wp_walk_step| |done].
    intros l h1 (Hinv1 & Hl & Hne & Hlen).
    eapply wp_mono;
      [apply (wp_foldM (λ cur h', inv_weak h0 ev t h' ∧ length h0 ≤ cur ∧ cur ≠ t ∧
                                   length h ≤ length h'))| |done].
    + intros cur key h2 _ (Hinv2 & Hcur & Hcne & Hlen2).
      eapply wp_mono; [by apply wp_walk_step| |done].
      intros l' h3 (? & ? & ? & ?). split_and!; [done..|lia].
    + done.
    + intros cur h2 (Hinv2 & Hcur & Hcne & Hlen2).
      by apply (wp_set_last depth t cur k v (length h)).
Qed.

Lemma wp_literal_item depth t ch item h :
  inv_weak h0 ev t h →
  wp (literal_item depth c t ch item) (λ _ h', inv_weak h0 ev t h') (frozen h0) h.
Proof.
  intros Hinv. pose proof (inv_frozen _ _ _ _ Hinv) as Hf.
  pose proof (inv_bounds _ _ _ _ Hinv) as [Hn0 Ht].
  unfold literal_item. destruct item as [s|l|m]; try by apply wp_raise.
  destruct (m !! "path") as [p|]; [|by apply wp_raise].
  destruct (m !! "value") as [v|]; [|by apply wp_raise].
  apply wp_bind, wp_get_heap.
  pose proof (alloc_tree_spec v h) as Ha.
  destruct (alloc_tree v h) as [new_value h1]. simpl in Ha.
  destruct (allocates_grows (length h0) t _ _ _ Ha) as [Hg Hnew]; [lia|done|].
  pose proof (inv_grows _ _ _ _ _ Hinv Hg) as Hinv1.
  pose proof (inv_frozen _ _ _ _ Hinv1) as Hf1.
  apply wp_bind, wp_put_heap.
  destruct p as [[| | | | |path_str]| |]; try by apply wp_raise.
  destruct (split_dot path_str) as [|k0 ks]; [by apply wp_raise|].
  apply wp_bind, wp_expect_dict; [|done]. intros evd Hevd.
  pose proof (extra_vars_read _ _ Hf1 Hevd) as ->.
  destruct (decide (k0 ∈ dom ev)) as [Hin|Hnin].
  { apply wp_bind, wp_emit. by apply wp_ret. }
  apply not_elem_of_dom in Hnin.
  apply wp_bind. eapply wp_mono; [by apply wp_seed| |done].
  intros sv h2 [Hinv2 Hlen2].
  apply wp_bind. eapply wp_mono; [apply wp_apply_literal; [done..|]| |done].
  - by eapply good_mono.
  - intros ne h3 Hinv3. by apply wp_ret.
Qed.

Lemma wp_literals_phase depth t ch literals h :
  inv_weak h0 ev t h →
  wp (literals_phase depth c t ch literals) (λ _ h', inv_weak h0 ev t h') (frozen h0) h.
Proof.
  intros Hinv. unfold literals_phase.
  destruct literals as [s|items|m]; try by apply wp_raise, (inv_frozen h0 ev t).
  apply (wp_foldM (λ _ h', inv_weak h0 ev t h')); [|done].
  intros ch' item h1 _ Hinv1. by apply wp_literal_item.
Qed.

Lemma wp_run fuel e o :
  wp (run fuel e o c) (λ r h', inv_weak h0 ev (ansible_facts r) h') (frozen h0) h0.
Proof.
  unfold run.
  destruct (decide (_ ≠ [])); [apply wp_raise, frozen_refl|].
  destruct (decide (_ ∧ _)); [apply wp_raise, frozen_refl|].
  apply wp_bind, wp_new_obj. pose proof (inv_init h0 Hwf0) as Hinv.
  apply wp_bind.
  assert (Hfiles : wp
    (match opt_files o with
     | Some sources =>
         '(ls, t', ch) ← files_phase fuel e o c sources (length h0);
         mret (Some (included ls), t', ch)
     | None => mret (None, length h0, false)
     end)
    (λ r h', inv_weak h0 ev r.1.2 h') (frozen h0) (h0 ++ [ODict ∅])).
  { destruct (opt_files o) as [sources|].
    - apply wp_bind. eapply wp_mono; [by apply wp_files_phase| |done].
      intros [[ls t'] ch] h1 Hinv1. by apply wp_ret.
    - apply wp_ret. simpl. apply inv_empty_target; [done|apply dict_at_app_new]. }
  eapply wp_mono; [exact Hfiles| |done].
  intros [[inc t1] ch1] h1 Hinv1. simpl in *.
  apply wp_bind. destruct (opt_literals o) as [literals|].
  - eapply wp_mono; [by apply wp_literals_phase| |done].
    intros ch2 h2 Hinv2. by apply wp_ret.
  - apply wp_ret. by apply wp_ret.
Qed.

End run_invariant.

(** ** What a run leaves of the heap it started in *)

Lemma foldr_ext_in {A B} (f g : A → B → B) b l :
  (∀ x b, x ∈ l → f x b = g x b) → foldr f b l = foldr g b l.
Proof.
  induction l as [|x l IH]; intros Hfg; simpl; [done|].
  rewrite IH; [apply Hfg; by left|]. intros y b' Hy. apply Hfg. by right.
Qed.

Lemma mapM_ext_in {A B} (f g : A → option B) l :
  Forall (λ x, f x = g x) l → mapM f l = mapM g l.
Proof. induction 1 as [|x l Hx _ IH]; simpl; [done|]. by rewrite Hx, IH. Qed.

(** Old values read the same in a heap that kept the old objects. *)
Lemma reify_frozen h0 h :
  heap_wf h0 → frozen h0 h →
  ∀ n v, in_range 0 (length h0) v → reify n h v = reify n h0 v.
Proof.
  intros Hwf Hf. induction n as [|n IH]; intros v Hv; destruct v as [| | | | | |l]; try done.
  simpl in *. rewrite (Hf l) by lia. destruct (h0 !! l) as [[d|xs|]|] eqn:Hl; [| |done..].
  - f_equal. rewrite !map_fold_foldr. apply foldr_ext_in. intros [k x] acc Hin. simpl.
    apply elem_of_map_to_list in Hin. rewrite IH; [done|].
    apply (heap_wf_obj h0 l _ Hwf Hl k x Hin).
  - f_equal. apply mapM_ext_in. pose proof (heap_wf_obj h0 l _ Hwf Hl) as Hxs.
    simpl in Hxs. eapply Forall_impl; [exact Hxs|]. intros x Hx. by apply IH.
Qed.

(** The invariant holds at the end of every run that returns, and the old
    objects are as they were at the end of every run. *)
Lemma run_invariant fuel e o c h0 :
  heap_wf h0 → task_vars c < length h0 → extra_vars c < length h0 →
  frozen h0 (st_heap (run fuel e o c h0).2) ∧
  ∀ r, (run fuel e o c h0).1 = Done r →
    inv_weak h0 (default ∅ (dict_at h0 (extra_vars c))) (ansible_facts r)
             (st_heap (run fuel e o c h0).2).
Proof.
  intros Hwf Htv Hxv.
  pose proof (wp_run h0 c (default ∅ (dict_at h0 (extra_vars c))) Hwf Htv Hxv) as Hwp.
  specialize (Hwp ltac:(by intros d ->) fuel e o). unfold wp in Hwp.
  destruct (run fuel e o c h0).1 as [r| |] eqn:Hr.
  - split; [by eapply inv_frozen|]. by intros ? [= <-].
  - by split.
  - by split.
Qed.

Lemma heap_wf_example : heap_wf heap_example.
Proof.
  apply heap_wf_of_obj. intros l o Hl.
  destruct l as [|[|[|l]]]; simpl in Hl; simplify_eq; simpl;
    apply map_Forall_to_list; vm_compute; repeat constructor.
Qed.

Lemma heap_wf_pinned_example : heap_wf heap_pinned_example.
Proof.
  apply heap_wf_of_obj. intros l o Hl.
  destruct l as [|[|[|l]]]; simpl in Hl; simplify_eq; simpl;
    apply map_Forall_to_list; vm_compute; repeat constructor.
Qed.

(** X1: a run never modifies an object that was there before it.  However
    the run ends (result, error or no end within the fuel), every object of
    the starting heap, so [task_vars], the extra-vars dict and all they
    hold, is as it was, and every old value reads as the same tree. *)
Theorem run_leaves_old_objects fuel e o c h0 :
  heap_wf h0 → task_vars c < length h0 → extra_vars c < length h0 →
  frozen h0 (st_heap (run fuel e o c h0).2) ∧
  ∀ n v, in_range 0 (length h0) v →
    reify n (st_heap (run fuel e o c h0).2) v = reify n h0 v.
Proof.
  intros Hwf Htv Hxv.
  destruct (run_invariant fuel e o c h0 Hwf Htv Hxv) as [Hf _].
  split; [done|]. by apply reify_frozen.
Qed.

Lemma run_leaves_old_objects_witness :
  frozen heap_pinned_example
    (st_heap (run 5 fs_example (options_files ["d1"]) context_example
                  heap_pinned_example).2) ∧
  ∀ n v, in_range 0 (length heap_pinned_example) v →
    reify n (st_heap (run 5 fs_example (options_files ["d1"]) context_example
                          heap_pinned_example).2) v
    = reify n heap_pinned_example v.
Proof.
  apply run_leaves_old_objects; [apply heap_wf_pinned_example|simpl; lia..].
Defined.

Lemma obj_all_holds (P : val → Prop) o v : obj_all P o → obj_holds o v → P v.
Proof.
  destruct o as [d|xs|]; simpl; [| |done].
  - intros Hd [k Hk]. by apply (Hd k).
  - intros Hxs Hin. by eapply (proj1 (Forall_forall _ _) Hxs).
Qed.

(** From a container that the run made, other than the dict [t], only such
    containers are reached. *)
Lemma reaches_good n0 t h v l :
  closed n0 t h → good n0 t (length h) v → reaches h v l →
  n0 ≤ l ∧ l < length h ∧ l ≠ t.
Proof.
  intros Hc Hv Hr. induction Hr as [l|l o v l' Hl Ho Hr IH]; [done|].
  apply IH. destruct Hv as (Hn0 & _ & Hne).
  by apply (obj_all_holds _ o v (Hc l o Hn0 Hne Hl)).
Qed.

(** X2: the dict that a run returns as [ansible_facts] is an object that the
    run made, never [task_vars] or the extra-vars dict themselves, and it
    shares no dict and no list with the objects that were there before, but
    for the pinned values: each of its values is the value that extra-vars
    has for that key, or else every dict and list that is reached from it
    was made by the run.  No reference of the final heap dangles. *)
Theorem run_result_is_fresh fuel e o c h0 r :
  heap_wf h0 → task_vars c < length h0 → extra_vars c < length h0 →
  (run fuel e o c h0).1 = Done r →
  heap_wf (st_heap (run fuel e o c h0).2) ∧
  length h0 ≤ ansible_facts r ∧
  ∃ dt, dict_at (st_heap (run fuel e o c h0).2) (ansible_facts r) = Some dt ∧
    ∀ k v, dt !! k = Some v →
      (∃ ev, dict_at h0 (extra_vars c) = Some ev ∧ ev !! k = Some v) ∨
      (∀ l, reaches (st_heap (run fuel e o c h0).2) v l →
            length h0 ≤ l ∧ l < length (st_heap (run fuel e o c h0).2)).
Proof.
  intros Hwf Htv Hxv Hr.
  destruct (run_invariant fuel e o c h0 Hwf Htv Hxv) as [_ Hinv].
  destruct (Hinv r Hr) as (_ & Hwf' & Hc & Hn0 & dt & Hdt & Hvals).
  split_and!; [done|done|].
  exists dt. split; [done|]. intros k v Hk. specialize (Hvals k v Hk). simpl in Hvals.
  assert (Hfresh : good (length h0) (ansible_facts r)
                     (length (st_heap (run fuel e o c h0).2)) v →
                   ∀ l, reaches (st_heap (run fuel e o c h0).2) v l →
                        length h0 ≤ l ∧ l < length (st_heap (run fuel e o c h0).2)).
  { intros Hv l Hl. destruct (reaches_good _ _ _ _ _ Hc Hv Hl) as (? & ? & _). done. }
  destruct (dict_at h0 (extra_vars c)) as [ev|]; simpl in Hvals.
  - destruct (ev !! k) as [p|] eqn:Hp.
    + left. exists ev. by subst.
    + right. by apply Hfresh.
  - rewrite lookup_empty in Hvals. right. by apply Hfresh.
Qed.

Lemma run_result_is_fresh_witness :
  heap_wf (st_heap (run 5 fs_example (options_files ["d1"]) context_example
                        heap_pinned_example).2) ∧
  length heap_pinned_example ≤ 10 ∧
  ∃ dt, dict_at (st_heap (run 5 fs_example (options_files ["d1"]) context_example
                               heap_pinned_example).2) 10 = Some dt ∧
    ∀ k v, dt !! k = Some v →
      (∃ ev, dict_at heap_pinned_example (extra_vars context_example) = Some ev ∧
             ev !! k = Some v) ∨
      (∀ l, reaches (st_heap (run 5 fs_example (options_files ["d1"]) context_example
                                  heap_pinned_example).2) v l →
            length heap_pinned_example ≤ l ∧
            l < length (st_heap (run 5 fs_example (options_files ["d1"]) context_example
                                     heap_pinned_example).2)).
Proof.
  apply (run_result_is_fresh 5 fs_example (options_files ["d1"]) context_example
           heap_pinned_example
           {| ansible_facts := 10; changed := true;
              ansible_included_var_files := Some ["d1/a.yml"; "d1/b.yml"] |});
    [apply heap_wf_pinned_example|simpl; lia|simpl; lia|vm_compute; reflexivity].
Defined.

(** X3: in the dict that a run returns, a key of extra-vars holds the very
    value that extra-vars has for it, whatever the files and the literals
    say about that key, and that value reads as the same tree as before the
    run. *)
Theorem pinned_keys_hold_extra_vars fuel e o c h0 r ev dt k v :
  heap_wf h0 → task_vars c < length h0 → extra_vars c < length h0 →
  dict_at h0 (extra_vars c) = Some ev →
  (run fuel e o c h0).1 = Done r →
  dict_at (st_heap (run fuel e o c h0).2) (ansible_facts r) = Some dt →
  ev !! k = Some v → k ∈ dom dt →
  dt !! k = Some v ∧
  ∀ n, reify n (st_heap (run fuel e o c h0).2) v = reify n h0 v.
Proof.
  intros Hwf Htv Hxv Hev Hr Hdt Hk Hin.
  destruct (run_invariant fuel e o c h0 Hwf Htv Hxv) as [Hf Hinv].
  destruct (Hinv r Hr) as (_ & _ & _ & _ & dt' & Hdt' & Hvals).
  rewrite Hdt in Hdt'. injection Hdt' as <-. rewrite Hev in Hvals. simpl in Hvals.
  apply elem_of_dom in Hin as [v' Hv']. specialize (Hvals k v' Hv'). simpl in Hvals.
  rewrite Hk in Hvals. subst v'. split; [done|].
  intros n. apply reify_frozen; [done..|].
  apply dict_at_Some in Hev. apply (heap_wf_obj h0 _ _ Hwf Hev k v Hk).
Qed.

Lemma pinned_keys_hold_extra_vars_witness :
  (<[ "a" := VRef 9 ]> {[ "b" := VInt 7 ]} : gmap string val) !! "b" = Some (VInt 7) ∧
  ∀ n, reify n (st_heap (run 5 fs_example (options_files ["d1"]) context_example
                             heap_pinned_example).2) (VInt 7)
       = reify n heap_pinned_example (VInt 7).
Proof.
  apply (pinned_keys_hold_extra_vars 5 fs_example (options_files ["d1"]) context_example
           heap_pinned_example
           {| ansible_facts := 10; changed := true;
              ansible_included_var_files := Some ["d1/a.yml"; "d1/b.yml"] |}
           {[ "b" := VInt 7 ]});
    [apply heap_wf_pinned_example|simpl; lia|simpl; lia|reflexivity
    |vm_compute; reflexivity|vm_compute; reflexivity|reflexivity
    |apply elem_of_dom; by exists (VInt 7)].
Defined.

(** ** The events that the parts of a run give out *)

Lemma emits_mono {A} (P Q : event → Prop) (m : M A) :
  (∀ ev, P ev → Q ev) → emits P m → emits Q m.
Proof. intros HPQ Hm h. eapply Forall_impl; [apply Hm|done]. Qed.

Lemma emits_bind {A B} P (m : M A) (f : A → M B) :
  emits P m → (∀ a, emits P (f a)) → emits P (m ≫= f).
Proof.
  intros Hm Hf h. specialize (Hm h). unfold mbind, M_bind.
  destruct (m h) as [[a| |] st]; simpl in *; [|done..].
  apply Forall_app. split; [done|]. apply Hf.
Qed.

Lemma emits_ret {A} P (a : A) : emits P (mret a).
Proof. intros h. constructor. Qed.

Lemma emits_raise {A} P e : emits P (@raise A e).
Proof. intros h. constructor. Qed.

Lemma emits_timeout {A} P : emits P (@timeout A).
Proof. intros h. constructor. Qed.

Lemma emits_emit (P : event → Prop) ev : P ev → emits P (emit ev).
Proof. intros Hev h. by repeat constructor. Qed.

Lemma emits_get_heap P : emits P get_heap.
Proof. intros h. constructor. Qed.

Lemma emits_put_heap P h' : emits P (put_heap h').
Proof. intros h. constructor. Qed.

Lemma emits_new_obj P o : emits P (new_obj o).
Proof. intros h. constructor. Qed.

Lemma emits_lift_fuel {A} P (o : option A) : emits P (lift_fuel o).
Proof. destruct o; [apply emits_ret|apply emits_timeout]. Qed.

Lemma emits_expect_dict P l : emits P (expect_dict l).
Proof.
  apply emits_bind; [apply emits_get_heap|]. intros h.
  destruct (dict_at h l); [apply emits_ret|apply emits_raise].
Qed.

Lemma emits_foldM {A B} P (f : B → A → M B) l :
  (∀ b x, x ∈ l → emits P (f b x)) → ∀ b, emits P (foldM f b l).
Proof.
  induction l as [|x l IH]; intros Hf b; [apply emits_ret|].
  simpl. apply emits_bind; [apply Hf; by left|].
  intros b'. apply IH. intros b1 y Hy. apply Hf. by right.
Qed.

Ltac emits_step :=
  first
    [ apply emits_ret | apply emits_raise | apply emits_timeout
    | apply emits_get_heap | apply emits_put_heap | apply emits_new_obj
    | apply emits_lift_fuel | apply emits_expect_dict
    | apply emits_emit; done
    | apply emits_bind; [|intros ?] ].

Lemma emits_ansible_version_tuple P c : emits P (ansible_version_tuple c).
Proof.
  unfold ansible_version_tuple. repeat emits_step.
  repeat (case_match; try emits_step).
Qed.

Lemma emits_seed P depth c t k : emits P (seed depth c t k).
Proof.
  unfold seed. repeat emits_step.
  repeat (case_match; repeat emits_step).
Qed.

Lemma emits_bind_res {A B} P (m : M A) (f : A → M B) :
  emits P m →
  (∀ h a st, m h = (Done a, st) → Forall P (st_trace (f a (st_heap st)).2)) →
  emits P (m ≫= f).
Proof.
  intros Hm Hf h. specialize (Hm h). specialize (Hf h). unfold mbind, M_bind.
  destruct (m h) as [[a| |] st]; simpl in *; [|done..].
  apply Forall_app. split; [done|]. by eapply Hf.
Qed.

Lemma emits_resolve (P : event → Prop) e ign sources :
  (∀ s, P (EvMissingIgnored s)) → emits P (resolve e ign sources).
Proof.
  intros HP. unfold resolve. apply emits_foldM. intros ls s _.
  unfold resolve_source. repeat (case_match; repeat emits_step).
Qed.

Lemma emits_load_file (P : event → Prop) depth e c filename orig t :
  P (EvLoad filename) → emits P (load_file depth e c filename orig t).
Proof.
  intros HP. unfold load_file.
  apply emits_bind; [apply emits_ansible_version_tuple|intros _].
  apply emits_bind; [by apply emits_emit|intros _].
  apply emits_bind; [repeat (case_match; repeat emits_step)|intros m].
  apply emits_bind; [apply emits_get_heap|intros h].
  destruct (alloc_tree (Mapping m) h) as [cur h'].
  apply emits_bind; [apply emits_put_heap|intros _].
  apply emits_bind; [repeat (case_match; repeat emits_step)|intros cfv].
  apply emits_bind.
  { apply emits_foldM. intros orig1 k _. unfold seed_file_key.
    apply emits_bind; [apply emits_seed|intros s; apply emits_ret]. }
  intros orig'. apply emits_bind; [apply emits_expect_dict|intros dt].
  apply emits_bind; [apply emits_get_heap|intros h2].
  apply emits_bind; [apply emits_lift_fuel|intros [dm h3]].
  repeat emits_step.
Qed.

Lemma all_files_included_append e ls f :
  all_files e ls → isfile e f = true → all_files e (included_append f ls).
Proof.
  intros [Hinc Hf] Hfile. unfold all_files, files_of, included_append in *. simpl.
  destruct (files_own ls); simpl in *.
  - split; [|done]. apply Forall_app. split; [done|]. by repeat constructor.
  - split; apply Forall_app; (split; [done|]); by repeat constructor.
Qed.

Lemma emits_load_loop depth e exts c fuel :
  ∀ i ls orig t,
    all_files e ls →
    emits (load_allowed e exts) (load_loop depth fuel e exts c i ls orig t).
Proof.
  induction fuel as [|f IH]; intros i ls orig t Hls; simpl; [apply emits_timeout|].
  destruct (files_of ls !! i) as [filename|] eqn:Hi; [|apply emits_ret].
  assert (Hfile : isfile e filename = true).
  { destruct Hls as [_ Hf]. rewrite Forall_forall in Hf.
    apply Hf. by eapply list_elem_of_lookup_2. }
  destruct (ext_allowed exts filename) eqn:Hext.
  - apply emits_bind; [by apply emits_load_file|]. intros [orig' t'].
    apply IH. by apply all_files_included_append.
  - apply emits_bind; [by apply emits_emit|]. intros _. by apply IH.
Qed.

Lemma emits_protect (P : event → Prop) c t :
  (∀ k, P (EvProtected k)) → emits P (protect c t).
Proof.
  intros HP. unfold protect. apply emits_bind; [apply emits_expect_dict|intros dt].
  apply emits_bind; [repeat (case_match; repeat emits_step)|intros l].
  apply emits_foldM. intros [] k _. unfold protect_key.
  apply emits_bind; [by apply emits_emit|intros _].
  apply emits_bind; [apply emits_expect_dict|intros ev].
  repeat (case_match; repeat emits_step).
Qed.

Lemma emits_walk_step P cur key : emits P (walk_step cur key).
Proof. unfold walk_step. repeat emits_step. repeat (case_match; repeat emits_step). Qed.

Lemma emits_apply_literal P depth t keys v : emits P (apply_literal depth t keys v).
Proof.
  unfold apply_literal. apply emits_bind.
  { apply emits_foldM. intros. apply emits_walk_step. }
  intros cur. repeat emits_step.
Qed.

Lemma emits_literal_item (P : event → Prop) depth c t ch item :
  (∀ k, P (EvProtected k)) → emits P (literal_item depth c t ch item).
Proof.
  intros HP. unfold literal_item.
  destruct item as [s|l|m]; try apply emits_raise.
  destruct (m !! "path") as [p|]; [|apply emits_raise].
  destruct (m !! "value") as [v|]; [|apply emits_raise].
  apply emits_bind; [apply emits_get_heap|intros h].
  destruct (alloc_tree v h) as [new_value h'].
  apply emits_bind; [apply emits_put_heap|intros _].
  destruct p as [[| | | | |path_str]| |]; try apply emits_raise.
  destruct (split_dot path_str) as [|k0 ks]; [apply emits_raise|].
  apply emits_bind; [apply emits_expect_dict|intros ev].
  destruct (decide (k0 ∈ dom ev)).
  - apply emits_bind; [by apply emits_emit|intros _; apply emits_ret].
  - apply emits_bind; [apply emits_seed|intros _].
    apply emits_bind; [apply emits_apply_literal|intros ne; apply emits_ret].
Qed.

Lemma emits_literals_phase (P : event → Prop) depth c t ch literals :
  (∀ k, P (EvProtected k)) → emits P (literals_phase depth c t ch literals).
Proof.
  intros HP. unfold literals_phase.
  destruct literals as [s|items|m]; try apply emits_raise.
  apply emits_foldM. intros ch' item _. by apply emits_literal_item.
Qed.

Lemma emits_files_phase depth e o c sources t :
  emits (load_allowed e (opt_extensions o)) (files_phase depth e o c sources t).
Proof.
  unfold files_phase. apply emits_bind_res; [by apply emits_resolve|].
  intros h ls st Hres.
  assert (Hls : all_files e ls).
  { eapply resolve_from_all_files; [|exact Hres]. by split. }
  apply emits_bind; [by apply emits_load_loop|]. intros [[ls' orig] t'].
  apply emits_bind; [by apply emits_protect|]. intros _.
  repeat emits_step.
Qed.

Lemma emits_run fuel e o c : emits (load_allowed e (opt_extensions o)) (run fuel e o c).
Proof.
  unfold run. destruct (decide _); [apply emits_raise|].
  destruct (decide _); [apply emits_raise|].
  apply emits_bind; [apply emits_new_obj|intros t0].
  apply emits_bind.
  { destruct (opt_files o) as [sources|]; [|apply emits_ret].
    apply emits_bind; [apply emits_files_phase|]. intros [[ls t'] ch]. apply emits_ret. }
  intros [[inc t1] ch1].
  apply emits_bind; [|intros ch2; apply emits_ret].
  destruct (opt_literals o); [by apply emits_literals_phase|apply emits_ret].
Qed.

Lemma elem_of_loaded f tr : f ∈ loaded tr ↔ EvLoad f ∈ tr.
Proof.
  unfold loaded. rewrite list_elem_of_omap. split.
  - intros (ev & Hev & Hf). destruct ev; by simplify_eq.
  - intros Hin. by exists (EvLoad f).
Qed.

(** X4: the loader is only ever given regular files that pass the extension
    filter: whatever the options and however the run ends, every file that
    the run gave to the loader exists as a regular file and has an allowed
    extension (or no filter is set). *)
Theorem loader_sees_only_allowed_files fuel e o c h f :
  f ∈ loaded (st_trace (run fuel e o c h).2) →
  isfile e f = true ∧ ext_allowed (opt_extensions o) f = true.
Proof.
  intros Hin. apply elem_of_loaded in Hin.
  pose proof (emits_run fuel e o c h) as Hall. rewrite Forall_forall in Hall.
  apply (Hall _ Hin).
Qed.

Lemma loader_sees_only_allowed_files_witness :
  isfile fs_example "d1/a.yml" = true ∧
  ext_allowed (opt_extensions (options_files ["d1"; "f1.yml"])) "d1/a.yml" = true.
Proof.
  apply (loader_sees_only_allowed_files 5 fs_example (options_files ["d1"; "f1.yml"])
           context_example heap_example).
  assert (H : loaded (st_trace (run 5 fs_example (options_files ["d1"; "f1.yml"])
                                    context_example heap_example).2)
              = ["d1/a.yml"; "d1/b.yml"; "f1.yml"]) by (vm_compute; reflexivity).
  rewrite H. by left.
Defined.

(** ** The files that a run loads *)

Lemma loaded_app tr1 tr2 : loaded (tr1 ++ tr2) = loaded tr1 ++ loaded tr2.
Proof. unfold loaded. apply omap_app. Qed.

Lemma loaded_no_load tr : Forall no_load tr → loaded tr = [].
Proof.
  induction 1 as [|ev tr Hev _ IH]; [done|]. destruct ev; try done; exact IH.
Qed.

Lemma emits_done {A} P (m : M A) h a st :
  emits P m → m h = (Done a, st) → Forall P (st_trace st).
Proof. intros Hm Hrun. specialize (Hm h). by rewrite Hrun in Hm. Qed.

Lemma load_file_loaded depth e c filename orig t h r st :
  load_file depth e c filename orig t h = (Done r, st) →
  loaded (st_trace st) = [filename].
Proof.
  unfold load_file. intros H.
  apply bind_done_inv in H as (b & st1 & st2 & Hv & H & ->).
  apply bind_done_inv in H as ([] & st3 & st4 & Hemit & H & ->).
  injection Hemit as <-. simpl.
  rewrite !loaded_app.
  rewrite (loaded_no_load (st_trace st1))
    by (eapply emits_done; [apply emits_ansible_version_tuple|exact Hv]).
  simpl. f_equal. apply loaded_no_load.
  eapply emits_done; [|exact H].
  apply emits_bind; [repeat (case_match; repeat emits_step)|intros m].
  apply emits_bind; [apply emits_get_heap|intros h1].
  destruct (alloc_tree (Mapping m) h1) as [cur h'].
  apply emits_bind; [apply emits_put_heap|intros _].
  apply emits_bind; [repeat (case_match; repeat emits_step)|intros cfv].
  apply emits_bind.
  { apply emits_foldM. intros orig1 k _. unfold seed_file_key.
    apply emits_bind; [apply emits_seed|intros s; apply emits_ret]. }
  intros orig'. apply emits_bind; [apply emits_expect_dict|intros dt].
  apply emits_bind; [apply emits_get_heap|intros h2].
  apply emits_bind; [apply emits_lift_fuel|intros [dm h3]].
  repeat emits_step.
Qed.

(** A loop that ends has loaded the files of the list from index [i] on
    that pass the filter, in order, and has added them to the list of the
    result. *)
Lemma load_loop_loaded depth e exts c fuel :
  ∀ i ls orig t h r st,
    load_loop depth fuel e exts c i ls orig t h = (Done r, st) →
    loaded (st_trace st)
    = filter (λ f, Is_true (ext_allowed exts f)) (drop i (files_of ls)) ∧
    included r.1.1 = included ls ++ loaded (st_trace st).
Proof.
  induction fuel as [|fuel IH]; intros i ls orig t h r st Hrun; [done|].
  pose proof Hrun as Hrun0. simpl in Hrun.
  destruct (files_of ls !! i) as [filename|] eqn:Hi.
  2:{ injection Hrun as <- <-. simpl. apply lookup_ge_None in Hi.
      rewrite drop_ge by done. by rewrite app_nil_r. }
  rewrite (drop_S _ _ _ Hi).
  destruct (ext_allowed exts filename) eqn:Hext.
  - destruct (files_own ls) as [l|] eqn:Hown.
    2:{ exfalso. unfold files_of in Hi. rewrite Hown in Hi. simpl in Hi.
        by eapply (load_loop_no_end depth (S fuel) e exts c i ls orig t h i filename). }
    apply bind_done_inv in Hrun as ([orig' t'] & st1 & st2 & Hload & Hrest & ->).
    apply load_file_loaded in Hload.
    apply IH in Hrest as [Hl Hinc]. simpl.
    assert (Hfiles : files_of (included_append filename ls) = files_of ls).
    { unfold files_of, included_append. simpl. by rewrite Hown. }
    rewrite Hfiles in Hl. rewrite loaded_app, Hload, Hl.
    rewrite filter_cons_True by (by rewrite Hext). split; [done|].
    rewrite Hinc, Hl. simpl. by rewrite <- app_assoc.
  - apply bind_done_inv in Hrun as ([] & st1 & st2 & Hemit & Hrest & ->).
    injection Hemit as <-. simpl.
    apply IH in Hrest as [Hl Hinc].
    rewrite filter_cons_False by (rewrite Hext; intros []). done.
Qed.

Lemma protect_loaded c t h r st : protect c t h = (Done r, st) → loaded (st_trace st) = [].
Proof.
  intros H. apply loaded_no_load. eapply emits_done; [|exact H]. by apply emits_protect.
Qed.

(** What a files phase that ends has loaded and listed. *)
Lemma files_phase_loaded depth e o c sources t h ls t' ch st :
  files_phase depth e o c sources t h = (Done (ls, t', ch), st) →
  ∃ ls0 st0,
    resolve e (opt_ignore_missing_files o) sources h = (Done ls0, st0) ∧
    loaded (st_trace st)
    = filter (λ f, Is_true (ext_allowed (opt_extensions o) f)) (files_of ls0) ∧
    included ls = included ls0 ++ loaded (st_trace st).
Proof.
  unfold files_phase. intros H.
  apply bind_done_inv in H as (ls0 & st1 & st2 & Hres & H & ->).
  apply bind_done_inv in H as ([[ls1 orig] t1] & st3 & st4 & Hload & H & ->).
  apply bind_done_inv in H as ([] & st5 & st6 & Hprot & H & ->).
  apply bind_done_inv in H as (dt & st7 & st8 & Hdt & H & ->).
  apply bind_done_inv in H as (h' & st9 & st10 & Hget & H & ->).
  apply bind_done_inv in H as (diffs & st11 & st12 & Hdiff & H & ->).
  injection H as <- <- <- <-. simpl.
  exists ls0, st1. split; [done|].
  apply load_loop_loaded in Hload as [Hl Hinc]. simpl in *.
  apply protect_loaded in Hprot.
  assert (Hr1 : loaded (st_trace st1) = []).
  { apply loaded_no_load. eapply emits_done; [|exact Hres]. by apply emits_resolve. }
  assert (Hr7 : loaded (st_trace st7) = []).
  { apply loaded_no_load. eapply emits_done; [|exact Hdt]. apply emits_expect_dict. }
  assert (Hr9 : loaded (st_trace st9) = []).
  { apply loaded_no_load. eapply emits_done; [|exact Hget]. apply emits_get_heap. }
  assert (Hr11 : loaded (st_trace st11) = []).
  { apply loaded_no_load. eapply emits_done; [|exact Hdiff]. apply emits_lift_fuel. }
  rewrite !loaded_app, Hr1, Hprot, Hr7, Hr9, Hr11, Hl. simpl.
  rewrite !app_nil_r. rewrite drop_0 in *. split; [done|]. by rewrite Hinc, Hl.
Qed.

(** What a run with a source list that returns has loaded and listed. *)
Lemma run_loaded fuel e o c h sources r st :
  run fuel e o c h = (Done r, st) → opt_files o = Some sources →
  ∃ ls0 st0,
    resolve e (opt_ignore_missing_files o) sources (h ++ [ODict ∅]) = (Done ls0, st0) ∧
    loaded (st_trace st)
    = filter (λ f, Is_true (ext_allowed (opt_extensions o) f)) (files_of ls0) ∧
    ansible_included_var_files r = Some (included ls0 ++ loaded (st_trace st)).
Proof.
  unfold run. destruct (decide _); [done|]. destruct (decide _); [done|].
  intros H Hfiles. rewrite Hfiles in H.
  apply bind_done_inv in H as (t0 & st1 & st2 & Hnew & H & ->).
  rewrite new_obj_run in Hnew. injection Hnew as <- <-. simpl in H.
  apply bind_done_inv in H as ([[inc t1] ch1] & st3 & st4 & Hphase & H & ->).
  apply bind_done_inv in H as (ch2 & st5 & st6 & Hlit & H & ->).
  injection H as <- <-.
  apply bind_done_inv in Hphase as ([[ls t'] ch] & st7 & st8 & Hphase & H & ->).
  injection H as <- <- <- <-.
  apply files_phase_loaded in Hphase as (ls0 & st0 & Hres & Hl & Hinc).
  exists ls0, st0. split; [done|].
  assert (Hr5 : loaded (st_trace st5) = []).
  { apply loaded_no_load. eapply emits_done; [|exact Hlit].
    destruct (opt_literals o); [by apply emits_literals_phase|apply emits_ret]. }
  simpl. rewrite !loaded_app, Hr5, !app_nil_r. simpl. split; [done|].
  by rewrite Hinc.
Qed.

Lemma run_done_eq fuel e o c h r :
  (run fuel e o c h).1 = Done r → run fuel e o c h = (Done r, (run fuel e o c h).2).
Proof. intros <-. by destruct (run fuel e o c h). Qed.

(** X5: when a run with a source list returns, the files it gave to the
    loader are exactly the files of the resolved list that pass the
    extension filter, each once and in the order of the resolved list. *)
Theorem loaded_files_are_the_resolved_ones fuel e o c h sources r :
  (run fuel e o c h).1 = Done r → opt_files o = Some sources →
  ∃ ls,
    (resolve e (opt_ignore_missing_files o) sources (h ++ [ODict ∅])).1 = Done ls ∧
    loaded (st_trace (run fuel e o c h).2)
    = filter (λ f, Is_true (ext_allowed (opt_extensions o) f)) (files_of ls).
Proof.
  intros Hr Hfiles. apply run_done_eq in Hr.
  destruct (run_loaded _ _ _ _ _ _ _ _ Hr Hfiles) as (ls & st0 & Hres & Hl & _).
  exists ls. by rewrite Hres.
Qed.

Lemma loaded_files_are_the_resolved_ones_witness :
  ∃ ls,
    (resolve fs_example
       (opt_ignore_missing_files
          {| opt_files := Some ["f1.yml"; "d1"]; opt_literals := None;
             opt_ignore_missing_files := false; opt_extensions := Some ["yml"];
             opt_other := [] |})
       ["f1.yml"; "d1"] (heap_example ++ [ODict ∅])).1 = Done ls ∧
    loaded (st_trace (run 5 fs_example
                          {| opt_files := Some ["f1.yml"; "d1"]; opt_literals := None;
                             opt_ignore_missing_files := false;
                             opt_extensions := Some ["yml"]; opt_other := [] |}
                          context_example heap_example).2)
    = filter (λ f, Is_true (ext_allowed
                              (opt_extensions
                                 {| opt_files := Some ["f1.yml"; "d1"];
                                    opt_literals := None;
                                    opt_ignore_missing_files := false;
                                    opt_extensions := Some ["yml"]; opt_other := [] |}) f))
             (files_of ls).
Proof.
  apply (loaded_files_are_the_resolved_ones 5 fs_example _ context_example heap_example
           ["f1.yml"; "d1"]
           {| ansible_facts := 12; changed := true;
              ansible_included_var_files :=
                Some ["f1.yml"; "f1.yml"; "d1/a.yml"; "d1/b.yml"] |});
    [vm_compute; reflexivity|reflexivity].
Defined.

Lemma resolve_from_included e ign sources :
  ∀ ls h ls' st,
    foldM (resolve_source e ign) ls sources h = (Done ls', st) →
    included ls' = included ls ++
                   match files_own ls with
                   | Some _ => []
                   | None => before_first_dir e sources
                   end.
Proof.
  induction sources as [|s r IH]; intros ls h ls' st H; simpl in H.
  { injection H as <- _. destruct (files_own ls); by rewrite app_nil_r. }
  apply bind_done_inv in H as (ls1 & st1 & st2 & H1 & H2 & _).
  apply IH in H2. rewrite H2. clear H2 IH. simpl.
  unfold resolve_source in H1.
  destruct (isfile e s) eqn:Hs.
  - injection H1 as <- _. unfold files_append.
    destruct (files_own ls); simpl; [done|]. by rewrite <- app_assoc.
  - destruct (isdir e s) eqn:Hd.
    + injection H1 as <- _. simpl. by destruct (files_own ls).
    + destruct ign; simpl in H1; [|done]. by injection H1 as <- _.
Qed.

(** X6: when a run with a source list returns, the list it reports as
    [ansible_included_var_files] is the file entries of the source list that
    come before its first directory entry, followed by the files that were
    loaded, in load order.  (So a file entry in front of the first directory
    entry is listed even when the filter kept it from being loaded, and twice
    when it was loaded.) *)
Theorem included_files_listing fuel e o c h sources r :
  (run fuel e o c h).1 = Done r → opt_files o = Some sources →
  ansible_included_var_files r
  = Some (before_first_dir e sources ++ loaded (st_trace (run fuel e o c h).2)).
Proof.
  intros Hr Hfiles. apply run_done_eq in Hr.
  destruct (run_loaded _ _ _ _ _ _ _ _ Hr Hfiles) as (ls & st0 & Hres & _ & Hinc).
  rewrite Hinc. do 2 f_equal. unfold resolve in Hres.
  by apply resolve_from_included in Hres.
Qed.

Lemma included_files_listing_witness :
  ansible_included_var_files
    {| ansible_facts := 12; changed := true;
       ansible_included_var_files := Some ["f1.yml"; "f1.yml"; "d1/a.yml"; "d1/b.yml"] |}
  = Some (before_first_dir fs_example ["f1.yml"; "d1"] ++
          loaded (st_trace (run 5 fs_example (options_files ["f1.yml"; "d1"])
                                context_example heap_example).2)).
Proof.
  apply (included_files_listing 5 fs_example (options_files ["f1.yml"; "d1"])
           context_example heap_example ["f1.yml"; "d1"]);
    [vm_compute; reflexivity|reflexivity].
Defined.

Lemma resolve_from_no_dir e ign sources :
  Forall (λ s, isfile e s = true ∨ isdir e s = false) sources →
  ∀ ls h ls' st,
    files_own ls = None →
    foldM (resolve_source e ign) ls sources h = (Done ls', st) →
    files_own ls' = None ∧
    ∀ f, (f ∈ included ls ∨ (f ∈ sources ∧ isfile e f = true)) → f ∈ included ls'.
Proof.
  induction 1 as [|s r Hs _ IH]; intros ls h ls' st Hown H; simpl in H.
  { injection H as <- _. split; [done|]. intros f [?|[Hf _]]; [done|].
    by apply elem_of_nil in Hf. }
  apply bind_done_inv in H as (ls1 & st1 & st2 & H1 & H2 & _).
  unfold resolve_source in H1.
  destruct (isfile e s) eqn:Hfile.
  - injection H1 as <- _. unfold files_append in H2. rewrite Hown in H2.
    apply IH in H2 as [Hown' Hin]; [|done]. split; [done|].
    intros f [Hf|[Hf Hff]]; apply Hin; simpl.
    + left. apply elem_of_app. by left.
    + apply elem_of_cons in Hf as [->|Hf]; [|by right].
      left. apply elem_of_app. right. by left.
  - destruct Hs as [|Hdir]; [done|]. rewrite Hdir in H1.
    destruct ign; simpl in H1; [|done]. injection H1 as <- _.
    apply IH in H2 as [Hown' Hin]; [|done]. split; [done|].
    intros f [Hf|[Hf Hff]]; apply Hin; [by left|].
    apply elem_of_cons in Hf as [->|Hf]; [congruence|by right].
Qed.

Lemma run_no_directory_not_done fuel e o c h sources f r st :
  opt_files o = Some sources →
  Forall (λ s, isfile e s = true ∨ isdir e s = false) sources →
  f ∈ sources → isfile e f = true → ext_allowed (opt_extensions o) f = true →
  run fuel e o c h ≠ (Done r, st).
Proof.
  intros Hfiles Hnodir Hf Hfile Hext. unfold run.
  destruct (decide _); [done|]. destruct (decide _); [done|]. rewrite Hfiles.
  intros H. apply bind_done_inv in H as (t0 & st1 & st2 & _ & H & _).
  apply bind_done_inv in H as ([[inc t1] ch1] & st3 & st4 & Hphase & _).
  apply bind_done_inv in Hphase as ([[ls t'] ch] & st7 & st8 & Hphase & _).
  unfold files_phase in Hphase.
  apply bind_done_inv in Hphase as (ls0 & st9 & st10 & Hres & H & _).
  apply bind_done_inv in H as ([[ls1 orig] t2] & st11 & st12 & Hload & _).
  unfold resolve in Hres.
  apply (resolve_from_no_dir _ _ _ Hnodir) in Hres as [Hown Hin]; [|done].
  specialize (Hin f (or_intror (conj Hf Hfile))).
  apply list_elem_of_lookup_1 in Hin as [j Hj].
  by eapply (load_loop_no_end _ _ _ _ _ 0 ls0 _ _ _ j f Hown (Nat.le_0_l j) Hj Hext).
Qed.

(** C6 fails on the code.  In the source list [f1.yml; nope] the entry
    [nope] is missing and, with [ignore_missing_files] on, is skipped with
    its diagnostic; and yet the run does not succeed.  No directory entry
    rebinds [files] (line 133), so that the loop of line 141 reads the very
    list that line 162 appends to, and loads [f1.yml] again and again:
    whatever the fuel, the run does not return. *)
Theorem tolerated_missing_source_never_returns :
  source_exists fs_example "nope" = false ∧
  opt_ignore_missing_files options_tolerant_file = true ∧
  (∀ fuel r st,
     run fuel fs_example options_tolerant_file context_example heap_example
     ≠ (Done r, st)) ∧
  (run 4 fs_example options_tolerant_file context_example heap_example).1 = Timeout ∧
  st_trace (run 4 fs_example options_tolerant_file context_example heap_example).2 =
    [EvMissingIgnored "nope"; EvLoad "f1.yml"; EvLoad "f1.yml"; EvLoad "f1.yml";
     EvLoad "f1.yml"].
Proof.
  split_and!; [done|done| |vm_compute; reflexivity..].
  intros fuel r st.
  apply (run_no_directory_not_done fuel fs_example options_tolerant_file
           context_example heap_example ["f1.yml"; "nope"] "f1.yml");
    [done| |by left|done|done].
  repeat constructor; by right.
Qed.

(** X7: a run whose source list has no directory entry, and has a file
    entry that passes the extension filter, never returns: every round of the
    loop of line 141 that loads a file appends one more name to the very list
    the loop reads (the lists of lines 126, 141 and 162 are one object).
    Whatever the fuel, the run fails or is still running. *)
Theorem run_without_directory_never_returns fuel e o c h sources f :
  opt_files o = Some sources →
  Forall (λ s, isfile e s = true ∨ isdir e s = false) sources →
  f ∈ sources → isfile e f = true → ext_allowed (opt_extensions o) f = true →
  (run fuel e o c h).1 = Timeout ∨ ∃ err, (run fuel e o c h).1 = Raise err.
Proof.
  intros Hfiles Hnodir Hf Hfile Hext.
  destruct (run fuel e o c h).1 as [r|err|] eqn:Hr; [exfalso|right; by exists err|by left].
  apply run_done_eq in Hr. by eapply run_no_directory_not_done.
Qed.

Lemma run_without_directory_never_returns_witness :
  (run 5 fs_example (options_files ["f1.yml"]) context_example heap_example).1 = Timeout ∨
  ∃ err, (run 5 fs_example (options_files ["f1.yml"]) context_example heap_example).1
         = Raise err.
Proof.
  apply (run_without_directory_never_returns 5 fs_example (options_files ["f1.yml"])
           context_example heap_example ["f1.yml"] "f1.yml");
    [reflexivity|repeat constructor|by left|reflexivity|reflexivity].
Defined.

(** ** The errors that the parts of a run raise *)

Lemma raises_mono {A} (P Q : error → Prop) (m : M A) :
  (∀ err, P err → Q err) → raises P m → raises Q m.
Proof. intros HPQ Hm h err Herr. by eapply HPQ, Hm. Qed.

Lemma raises_bind_res {A B} P (m : M A) (f : A → M B) :
  raises P m →
  (∀ h a st, m h = (Done a, st) → ∀ err, (f a (st_heap st)).1 = Raise err → P err) →
  raises P (m ≫= f).
Proof.
  intros Hm Hf h err. specialize (Hm h). specialize (Hf h). unfold mbind, M_bind.
  destruct (m h) as [[a| |] st]; simpl in *.
  - intros Herr. by eapply Hf.
  - intros [= <-]. by apply Hm.
  - done.
Qed.

Lemma raises_bind {A B} P (m : M A) (f : A → M B) :
  raises P m → (∀ a, raises P (f a)) → raises P (m ≫= f).
Proof. intros Hm Hf. apply raises_bind_res; [done|]. intros h a st _. apply Hf. Qed.

Lemma raises_ret {A} P (a : A) : raises P (mret a).
Proof. by intros h err. Qed.

Lemma raises_raise {A} (P : error → Prop) err : P err → raises P (@raise A err).
Proof. by intros Herr h err' [= <-]. Qed.

Lemma raises_timeout {A} P : raises P (@timeout A).
Proof. by intros h err. Qed.

Lemma raises_emit P ev : raises P (emit ev).
Proof. by intros h err. Qed.

Lemma raises_get_heap P : raises P get_heap.
Proof. by intros h err. Qed.

Lemma raises_put_heap P h' : raises P (put_heap h').
Proof. by intros h err. Qed.

Lemma raises_new_obj P o : raises P (new_obj o).
Proof. by intros h err. Qed.

Lemma raises_lift_fuel {A} P (o : option A) : raises P (lift_fuel o).
Proof. destruct o; [apply raises_ret|apply raises_timeout]. Qed.

Lemma raises_expect_dict (P : error → Prop) l : P PyTypeError → raises P (expect_dict l).
Proof.
  intros HP. apply raises_bind; [apply raises_get_heap|]. intros h.
  destruct (dict_at h l); [apply raises_ret|by apply raises_raise].
Qed.

Lemma raises_foldM {A B} P (f : B → A → M B) l :
  (∀ b x, x ∈ l → raises P (f b x)) → ∀ b, raises P (foldM f b l).
Proof.
  induction l as [|x l IH]; intros Hf b; [apply raises_ret|].
  simpl. apply raises_bind; [apply Hf; by left|].
  intros b'. apply IH. intros b1 y Hy. apply Hf. by right.
Qed.

Ltac raises_step :=
  first
    [ apply raises_ret | apply raises_timeout | apply raises_emit
    | apply raises_get_heap | apply raises_put_heap | apply raises_new_obj
    | apply raises_lift_fuel | apply raises_expect_dict; done
    | apply raises_raise; done
    | apply raises_bind; [|intros ?] ].

Section error_causes.
Variables (e : env) (o : options).

Local Abbreviation P := (error_cause e o).

Lemma raises_ansible_version_tuple c : raises P (ansible_version_tuple c).
Proof.
  unfold ansible_version_tuple. repeat raises_step.
  repeat (case_match; try raises_step).
Qed.

Lemma raises_seed depth c t k : raises P (seed depth c t k).
Proof. unfold seed. repeat raises_step. repeat (case_match; repeat raises_step). Qed.

Lemma raises_resolve sources :
  opt_files o = Some sources →
  raises P (resolve e (opt_ignore_missing_files o) sources).
Proof.
  intros Hfiles. unfold resolve. apply raises_foldM. intros ls s Hs.
  unfold resolve_source.
  destruct (isfile e s) eqn:Hf; [apply raises_ret|].
  destruct (isdir e s) eqn:Hd; [apply raises_ret|]. simpl.
  destruct (opt_ignore_missing_files o) eqn:Hign; [repeat raises_step|].
  apply raises_raise. simpl. split_and!; [done..|]. by exists sources.
Qed.

Lemma raises_load_file depth c filename orig t :
  isfile e filename = true → ext_allowed (opt_extensions o) filename = true →
  raises P (load_file depth e c filename orig t).
Proof.
  intros Hfile Hext. unfold load_file.
  apply raises_bind; [apply raises_ansible_version_tuple|intros _].
  apply raises_bind; [apply raises_emit|intros _].
  apply raises_bind.
  { destruct (load_from_file e filename) as [[| |m]|] eqn:Hload;
      try (apply raises_raise; done); apply raises_ret. }
  intros m. apply raises_bind; [apply raises_get_heap|intros h].
  destruct (alloc_tree (Mapping m) h) as [cur h'].
  apply raises_bind; [apply raises_put_heap|intros _].
  apply raises_bind; [repeat (case_match; repeat raises_step)|intros cfv].
  apply raises_bind.
  { apply raises_foldM. intros orig1 k _. unfold seed_file_key.
    apply raises_bind; [apply raises_seed|intros s; apply raises_ret]. }
  intros orig'. apply raises_bind; [by apply raises_expect_dict|intros dt].
  apply raises_bind; [apply raises_get_heap|intros h2].
  apply raises_bind; [apply raises_lift_fuel|intros [dm h3]].
  repeat raises_step.
Qed.

Lemma raises_load_loop depth c fuel :
  ∀ i ls orig t,
    all_files e ls →
    raises P (load_loop depth fuel e (opt_extensions o) c i ls orig t).
Proof.
  induction fuel as [|f IH]; intros i ls orig t Hls; simpl; [apply raises_timeout|].
  destruct (files_of ls !! i) as [filename|] eqn:Hi; [|apply raises_ret].
  assert (Hfile : isfile e filename = true).
  { destruct Hls as [_ Hf]. rewrite Forall_forall in Hf.
    apply Hf. by eapply list_elem_of_lookup_2. }
  destruct (ext_allowed (opt_extensions o) filename) eqn:Hext.
  - apply raises_bind; [by apply raises_load_file|]. intros [orig' t'].
    apply IH. by apply all_files_included_append.
  - apply raises_bind; [apply raises_emit|]. intros _. by apply IH.
Qed.

Lemma raises_protect c t : raises P (protect c t).
Proof.
  unfold protect. apply raises_bind; [by apply raises_expect_dict|intros dt].
  apply raises_bind; [repeat (case_match; repeat raises_step)|intros l].
  apply raises_foldM. intros [] k _. unfold protect_key.
  apply raises_bind; [apply raises_emit|intros _].
  apply raises_bind; [by apply raises_expect_dict|intros ev].
  repeat (case_match; repeat raises_step).
Qed.

Lemma raises_files_phase depth c sources t :
  opt_files o = Some sources → raises P (files_phase depth e o c sources t).
Proof.
  intros Hfiles. unfold files_phase.
  apply raises_bind_res; [by apply raises_resolve|].
  intros h ls st Hres.
  assert (Hls : all_files e ls).
  { eapply resolve_from_all_files; [|exact Hres]. by split. }
  apply raises_bind; [by apply raises_load_loop|]. intros [[ls' orig] t'].
  apply raises_bind; [by apply raises_protect|]. intros _.
  repeat raises_step.
Qed.

Lemma raises_walk_step cur key : raises P (walk_step cur key).
Proof. unfold walk_step. repeat raises_step. repeat (case_match; repeat raises_step). Qed.

Lemma raises_apply_literal depth t keys v : raises P (apply_literal depth t keys v).
Proof.
  unfold apply_literal. apply raises_bind.
  { apply raises_foldM. intros. apply raises_walk_step. }
  intros cur. repeat raises_step.
Qed.

Lemma raises_literal_item depth c t ch items item :
  opt_literals o = Some (Sequence items) → item ∈ items →
  raises P (literal_item depth c t ch item).
Proof.
  intros Hlit Hin. unfold literal_item.
  assert (Hbad : ¬ literal_wellformed item → raises P (@raise bool InvalidLiteralError)).
  { intros Hnot. apply raises_raise. exists (Sequence items). split; [done|].
    by exists item. }
  destruct item as [s|l|m]; try (apply Hbad; by intros []).
  destruct (m !! "path") as [p|] eqn:Hp; [|apply Hbad; intros [[? ?] _]; congruence].
  destruct (m !! "value") as [v|] eqn:Hv; [|apply Hbad; intros [_ [? ?]]; congruence].
  apply raises_bind; [apply raises_get_heap|intros h].
  destruct (alloc_tree v h) as [new_value h'].
  apply raises_bind; [apply raises_put_heap|intros _].
  destruct p as [[| | | | |path_str]| |]; try by apply raises_raise.
  destruct (split_dot path_str) as [|k0 ks] eqn:Hsplit.
  { by apply split_dot_nonempty in Hsplit. }
  apply raises_bind; [by apply raises_expect_dict|intros ev].
  destruct (decide (k0 ∈ dom ev)).
  - apply raises_bind; [apply raises_emit|intros _; apply raises_ret].
  - apply raises_bind; [apply raises_seed|intros _].
    apply raises_bind; [apply raises_apply_literal|intros ne; apply raises_ret].
Qed.

Lemma raises_literals_phase depth c t ch literals :
  opt_literals o = Some literals → raises P (literals_phase depth c t ch literals).
Proof.
  intros Hlit. unfold literals_phase.
  destruct literals as [s|items|m];
    try (apply raises_raise; eexists; split; [done|]; done).
  apply raises_foldM. intros ch' item Hin. by eapply raises_literal_item.
Qed.

Lemma raises_run fuel c : raises P (run fuel e o c).
Proof.
  unfold run. destruct (decide _) as [Hinv|Hval]; [by apply raises_raise|].
  assert (Hvalid : valid_options o).
  { unfold valid_options. destruct (filter _ _); [done|]. by destruct Hval. }
  destruct (decide _) as [[Hf Hl]|Hsome]; [by apply raises_raise|].
  apply raises_bind; [apply raises_new_obj|intros t0].
  apply raises_bind.
  { destruct (opt_files o) as [sources|] eqn:Hfiles; [|apply raises_ret].
    apply raises_bind; [by apply raises_files_phase|].
    intros [[ls t'] ch]. apply raises_ret. }
  intros [[inc t1] ch1].
  apply raises_bind; [|intros ch2; apply raises_ret].
  destruct (opt_literals o) eqn:Hlit; [by apply raises_literals_phase|apply raises_ret].
Qed.

End error_causes.

(** X8: no run ever raises the error for an empty path (line 190): the key
    list that line 188 splits off the path is never empty, so the test of
    line 189 cannot fire, whatever the literals are. *)
Theorem run_never_raises_path_error fuel e o c h :
  match (run fuel e o c h).1 with Raise InvalidPathError => False | _ => True end.
Proof.
  destruct (run fuel e o c h).1 as [r|err|] eqn:Herr; [done| |done].
  destruct err; try done. apply (raises_run e o fuel c h _ Herr).
Qed.

(** X9: each error of the plugin has one cause.  A run that raises the
    error for invalid options has unknown option keys, the ones the error
    lists; for missing options, recognised keys but neither [files] nor
    [literals]; for a missing source, tolerance off and a source entry that
    is neither a file nor a directory; a loader failure, a regular file that
    passed the extension filter and that the loader could not read; for an
    invalid literal, a [literals] that is no list or has an item that is no
    dict with [path] and [value]. *)
Theorem run_error_has_cause fuel e o c h err :
  (run fuel e o c h).1 = Raise err → error_cause e o err.
Proof. apply raises_run. Qed.

Lemma run_error_has_cause_witness :
  error_cause fs_example options_strict (SourceNotFoundError "nope").
Proof.
  apply (run_error_has_cause 5 fs_example options_strict context_example heap_example).
  vm_compute. reflexivity.
Defined.

(** X10: the options are validated before anything else, and validation
    alone decides its two errors.  A run raises the error for invalid options
    exactly when an option key is not recognised, and then lists exactly the
    unrecognised keys in their order; it raises the error for missing options
    exactly when all keys are recognised and neither [files] nor [literals]
    is given.  In both cases nothing was allocated and no event given out. *)
Theorem validation_decides fuel e o c h :
  let invalid_args := filter (λ arg, arg ∉ VALID_ARGUMENTS) (opt_other o) in
  (∀ l, (run fuel e o c h).1 = Raise (InvalidOptionsError l) ↔
        l = invalid_args ∧ invalid_args ≠ []) ∧
  ((run fuel e o c h).1 = Raise MissingOptionsError ↔
   invalid_args = [] ∧ opt_files o = None ∧ opt_literals o = None) ∧
  (invalid_args ≠ [] ∨ (opt_files o = None ∧ opt_literals o = None) →
   (run fuel e o c h).2 = {| st_heap := h; st_trace := [] |}).
Proof.
  intros invalid_args. split_and!.
  - intros l. split.
    + intros Herr. destruct (raises_run e o fuel c h _ Herr) as [-> ?]. by split.
    + intros [-> Hne]. unfold run. fold invalid_args. by rewrite decide_True.
  - split.
    + intros Herr. apply (raises_run e o fuel c h _ Herr).
    + intros (Hval & Hf & Hl). unfold run. fold invalid_args.
      rewrite decide_False by (by intros ?). by rewrite decide_True.
  - intros Hcase. unfold run. fold invalid_args.
    destruct (decide (invalid_args ≠ [])); [done|].
    destruct (decide _); [done|]. by destruct Hcase.
Qed.

(** ** Dicts that read as the same tree *)

Lemma reify_items_lookup f h (d : gmap string val) (m : gmap string Tree) :
  map_fold (λ k x acc, m ← acc; t ← reify f h x; Some (<[k := t]> m)) (Some ∅) d = Some m →
  ∀ k, Some <$> (m !! k) = reify f h <$> (d !! k).
Proof.
  revert m. apply (map_fold_weak_ind (λ r (d : gmap string val),
    ∀ m : gmap string Tree, r = Some m → ∀ k, Some <$> (m !! k) = reify f h <$> (d !! k))).
  - intros m [= <-] k. by rewrite !lookup_empty.
  - intros i x d' r Hi IH m Hm k.
    destruct r as [m0|]; [|done]. simpl in Hm.
    destruct (reify f h x) as [t|] eqn:Hx; [|done]. simpl in Hm. injection Hm as <-.
    destruct (decide (k = i)) as [->|Hne].
    + rewrite !lookup_insert_eq. simpl. by rewrite Hx.
    + rewrite !lookup_insert_ne by done. by apply IH.
Qed.

Lemma reify_dict f h l d t :
  reify (S f) h (VRef l) = Some t → dict_at h l = Some d →
  ∃ m, t = Mapping m ∧ ∀ k, Some <$> (m !! k) = reify f h <$> (d !! k).
Proof.
  intros Hr Hd. apply dict_at_Some in Hd. simpl in Hr. rewrite Hd in Hr.
  apply fmap_Some in Hr as (m & Hm & ->). exists m. split; [done|].
  by apply reify_items_lookup.
Qed.

Lemma allM_true {A} (p : A → option bool) l :
  Forall (λ x, p x = Some true) l → allM p l = Some true.
Proof. induction 1 as [|x l Hx _ IH]; simpl; [done|]. by rewrite Hx. Qed.

Lemma same_items_lookup f h (d1 d2 : gmap string val) (m : gmap string Tree) k x :
  (∀ k, Some <$> (m !! k) = reify f h <$> (d1 !! k)) →
  (∀ k, Some <$> (m !! k) = reify f h <$> (d2 !! k)) →
  d1 !! k = Some x →
  ∃ y t, d2 !! k = Some y ∧ m !! k = Some t ∧
         reify f h x = Some t ∧ reify f h y = Some t.
Proof.
  intros H1 H2 Hx. specialize (H1 k). specialize (H2 k). rewrite Hx in H1. simpl in H1.
  destruct (m !! k) as [t|]; [|done]. simpl in *. injection H1 as H1.
  destruct (d2 !! k) as [y|]; [|done]. simpl in H2. injection H2 as H2.
  by exists y, t.
Qed.

Lemma same_items_dom f h (d1 d2 : gmap string val) (m : gmap string Tree) :
  (∀ k, Some <$> (m !! k) = reify f h <$> (d1 !! k)) →
  (∀ k, Some <$> (m !! k) = reify f h <$> (d2 !! k)) →
  dom d1 = dom d2.
Proof.
  intros H1 H2. apply set_eq. intros k. rewrite !elem_of_dom.
  specialize (H1 k). specialize (H2 k).
  destruct (m !! k), (d1 !! k), (d2 !! k); simpl in *; try done;
    split; intros [? ?]; done.
Qed.

Lemma has_nan_scalar s : has_nan (Scalar s) = false → s ≠ SNaN.
Proof. by destruct s. Qed.

Lemma has_nan_sequence l :
  has_nan (Sequence l) = false → Forall (λ t, has_nan t = false) l.
Proof.
  simpl. induction l as [|t l IH]; simpl; [done|].
  intros [Ht Hl]%orb_false_iff. constructor; [done|by apply IH].
Qed.

Lemma has_nan_mapping (m : gmap string Tree) :
  has_nan (Mapping m) = false → ∀ k t, m !! k = Some t → has_nan t = false.
Proof.
  simpl. apply (map_fold_weak_ind (λ r (m : gmap string Tree),
    r = false → ∀ k t, m !! k = Some t → has_nan t = false)).
  - intros _ k t. by rewrite lookup_empty.
  - intros i x m' r Hi IH [Hx Hr]%orb_false_iff k t Hk.
    destruct (decide (k = i)) as [->|Hne].
    + rewrite lookup_insert_eq in Hk. by simplify_eq.
    + rewrite lookup_insert_ne in Hk by done. by eapply IH.
Qed.

(** A value that reads as a scalar other than NaN is that scalar. *)
Lemma reify_scalar_inv f h v s :
  reify f h v = Some (Scalar s) → s ≠ SNaN → v = val_of_scalar s.
Proof.
  intros Hr Hs. destruct f, v as [| | | | | |l]; simpl in Hr; simplify_eq; try done.
  destruct (h !! l) as [[d|xs|]|]; simpl in Hr; try congruence.
  - by apply fmap_Some in Hr as (? & ? & ?).
  - by apply fmap_Some in Hr as (? & ? & ?).
Qed.

Lemma py_eq_scalar f h v1 v2 s :
  s ≠ SNaN → reify f h v1 = Some (Scalar s) → reify f h v2 = Some (Scalar s) →
  py_eq f h v1 v2 = Some true.
Proof.
  intros Hs H1 H2.
  rewrite (reify_scalar_inv _ _ _ _ H1 Hs), (reify_scalar_inv _ _ _ _ H2 Hs).
  rewrite py_eq_self. by destruct s.
Qed.

(** Values that read as the same tree without a NaN compare equal. *)
Lemma py_eq_same_tree f :
  ∀ h v1 v2 t, has_nan t = false →
    reify f h v1 = Some t → reify f h v2 = Some t → py_eq f h v1 v2 = Some true.
Proof.
  induction f as [|f IH]; intros h v1 v2 t Hnan H1 H2.
  { destruct t as [s|ts|m].
    - eapply py_eq_scalar; [by apply has_nan_scalar|done..].
    - by destruct v1.
    - by destruct v1. }
  destruct t as [s|ts|m].
  { eapply py_eq_scalar; [by apply has_nan_scalar|done..]. }
  - destruct v1 as [| | | | | |l1]; try done. destruct v2 as [| | | | | |l2]; try done.
    simpl py_eq. destruct (decide (l1 = l2)) as [|Hne]; [done|].
    simpl in H1, H2.
    destruct (h !! l1) as [[d1|a|]|]; try done;
      [by apply fmap_Some in H1 as (? & ? & ?)|].
    destruct (h !! l2) as [[d2|b|]|]; try done;
      [by apply fmap_Some in H2 as (? & ? & ?)|].
    apply fmap_Some in H1 as (ts1 & Hm1 & [= ->]).
    apply fmap_Some in H2 as (ts2 & Hm2 & [= <-]).
    apply mapM_Some in Hm1, Hm2. apply has_nan_sequence in Hnan.
    rewrite decide_True
      by (by rewrite (Forall2_length _ _ _ Hm1), (Forall2_length _ _ _ Hm2)).
    apply allM_true. clear Hne. revert b Hm2 Hnan.
    induction Hm1 as [|x t a ts Hx _ IHa]; intros b Hm2 Hnan.
    + apply Forall2_nil_inv_r in Hm2 as ->. constructor.
    + apply Forall2_cons_inv_r in Hm2 as (y & b' & Hy & Hb' & ->).
      apply Forall_cons in Hnan as [Ht Hts]. simpl.
      constructor; [|by apply IHa]. destruct (same_nan x y); [done|by eapply IH].
  - destruct v1 as [| | | | | |l1]; try done. destruct v2 as [| | | | | |l2]; try done.
    simpl py_eq. destruct (decide (l1 = l2)) as [|Hne]; [done|].
    simpl in H1, H2.
    destruct (h !! l1) as [[d1|a|]|]; try done;
      [|by apply fmap_Some in H1 as (? & ? & ?)].
    destruct (h !! l2) as [[d2|b|]|]; try done;
      [|by apply fmap_Some in H2 as (? & ? & ?)].
    apply fmap_Some in H1 as (m1 & Hm1 & [= ->]).
    apply fmap_Some in H2 as (m2 & Hm2 & [= <-]).
    pose proof (reify_items_lookup _ _ _ _ Hm1) as Hk1.
    pose proof (reify_items_lookup _ _ _ _ Hm2) as Hk2.
    rewrite decide_True.
    2:{ rewrite <- !size_dom. f_equal. by eapply same_items_dom. }
    apply allM_true. apply Forall_forall. intros [k x] Hkx.
    apply elem_of_map_to_list in Hkx.
    destruct (same_items_lookup _ _ _ _ _ _ _ Hk1 Hk2 Hkx)
      as (y & t & Hy & Ht & Hx & Hy').
    rewrite Hy. destruct (same_nan x y); [done|].
    eapply IH; [|done..]. by eapply has_nan_mapping.
Qed.

Lemma diff_keys_all_nil fuel h d1 d2 path keys :
  Forall (λ k, diff_key (deep_diff fuel h) fuel h d1 d2 path k = Some []) keys →
  diff_keys fuel h d1 d2 path keys = Some [].
Proof.
  unfold diff_keys. induction 1 as [|k keys Hk _ IH]; simpl; [done|].
  rewrite Hk. simpl. apply fmap_Some in IH as (es & -> & Hes). simpl.
  by rewrite <- Hes.
Qed.

Lemma deep_diff_same_items f :
  ∀ h d1 d2 path (m : gmap string Tree),
    has_nan (Mapping m) = false →
    (∀ k, Some <$> (m !! k) = reify f h <$> (d1 !! k)) →
    (∀ k, Some <$> (m !! k) = reify f h <$> (d2 !! k)) →
    deep_diff (S f) h d1 d2 path = Some [].
Proof.
  induction f as [|f IH]; intros h d1 d2 path m Hnan H1 H2;
    rewrite deep_diff_unfold; apply diff_keys_all_nil, Forall_forall; intros k Hk;
    unfold diff_key;
    (destruct (d1 !! k) as [v1|] eqn:Hv1;
     [destruct (same_items_lookup _ _ _ _ _ _ _ H1 H2 Hv1)
        as (v2 & t & -> & Ht & Hr1 & Hr2);
      pose proof (has_nan_mapping _ Hnan _ _ Ht) as Hnt
     |assert (d2 !! k = None) as ->
        by (apply not_elem_of_dom; rewrite <- (same_items_dom _ _ _ _ _ H1 H2);
            by apply not_elem_of_dom); done]).
  - destruct (get_dict h v1) as [a|] eqn:Ha, (get_dict h v2) as [b|] eqn:Hb;
      try (unfold py_ne; by rewrite (py_eq_same_tree _ _ _ _ _ Hnt Hr1 Hr2)).
    by destruct v1.
  - destruct (get_dict h v1) as [a|] eqn:Ha, (get_dict h v2) as [b|] eqn:Hb;
      try (unfold py_ne; by rewrite (py_eq_same_tree _ _ _ _ _ Hnt Hr1 Hr2)).
    destruct v1 as [| | | | | |l1]; try done. destruct v2 as [| | | | | |l2]; try done.
    destruct (reify_dict _ _ _ _ _ Hr1 Ha) as (m1 & -> & Hm1).
    destruct (reify_dict _ _ _ _ _ Hr2 Hb) as (m2 & [= <-] & Hm2).
    by eapply IH.
Qed.

(** X11: [deep_diff] finds no difference between two dicts that read as the
    same tree, when no leaf of that tree is a NaN: a dict and itself, a dict
    and a deep copy of it, or two dicts built alike.  It returns the empty
    list, and the files phase then reports no change.  (A NaN compares
    unequal to every float, so that two dicts that hold one under the same
    key do differ.) *)
Theorem deep_diff_equal_trees fuel h l1 l2 d1 d2 t path :
  dict_at h l1 = Some d1 → dict_at h l2 = Some d2 →
  reify fuel h (VRef l1) = Some t → reify fuel h (VRef l2) = Some t →
  has_nan t = false →
  deep_diff fuel h d1 d2 path = Some [].
Proof.
  intros Hd1 Hd2 Hr1 Hr2 Hnan. destruct fuel as [|f]; [done|].
  destruct (reify_dict _ _ _ _ _ Hr1 Hd1) as (m1 & -> & Hm1).
  destruct (reify_dict _ _ _ _ _ Hr2 Hd2) as (m2 & [= <-] & Hm2).
  by eapply deep_diff_same_items.
Qed.

Lemma deep_diff_equal_trees_witness :
  deep_diff 2 [ODict {[ "x" := VFloat (FFin 3 (-1)) ]}; ODict {[ "x" := VFloat (FFin 3 (-1)) ]};
               ODict {[ "a" := VRef 0 ]}; ODict {[ "a" := VRef 1 ]}]
            {[ "a" := VRef 0 ]} {[ "a" := VRef 1 ]} "" = Some [].
Proof.
  apply (deep_diff_equal_trees 2 _ 2 3 _ _
           (Mapping {[ "a" := Mapping {[ "x" := Scalar (SFloat (FFin 3 (-1))) ]} ]}));
    vm_compute; reflexivity.
Defined.

(** ** The change flag *)

Lemma wp_True {A} (m : M A) h : wp m (λ _ _, True) (λ _, True) h.
Proof. unfold wp. by destruct (m h).1. Qed.

Lemma wp_literal_item_changed depth c t ch item h :
  wp (literal_item depth c t ch item) (λ ch' _, ch = true → ch' = true) (λ _, True) h.
Proof.
  unfold literal_item. destruct item as [s|l|m]; try by apply wp_raise.
  destruct (m !! "path") as [p|]; [|by apply wp_raise].
  destruct (m !! "value") as [v|]; [|by apply wp_raise].
  apply wp_bind, wp_get_heap. destruct (alloc_tree v h) as [new_value h1].
  apply wp_bind, wp_put_heap.
  destruct p as [[| | | | |path_str]| |]; try by apply wp_raise.
  destruct (split_dot path_str) as [|k0 ks]; [by apply wp_raise|].
  apply wp_bind, wp_expect_dict; [|done]. intros ev _.
  destruct (decide (k0 ∈ dom ev)).
  { apply wp_bind, wp_emit. by apply wp_ret. }
  apply wp_bind. eapply wp_mono; [apply wp_True| |done]. intros _ h2 _.
  apply wp_bind. eapply wp_mono; [apply wp_True| |done]. intros ne h3 _.
  apply wp_ret. intros ->. by destruct ne.
Qed.

(** X12: the change flag is only ever raised while the literals are
    applied: if it is set when the literals phase starts (the files phase
    found a difference) it is set when the phase returns, whatever the
    literals are and whether or not they change anything. *)
Theorem literals_keep_change_flag depth c t literals h :
  match (literals_phase depth c t true literals h).1 with
  | Done ch' => ch' = true
  | _ => True
  end.
Proof.
  assert (Hwp : wp (literals_phase depth c t true literals)
                   (λ ch' _, ch' = true) (λ _, True) h).
  { unfold literals_phase. destruct literals as [s|items|m]; try by apply wp_raise.
    apply (wp_foldM (λ ch _, ch = true)); [|done].
    intros ch item h1 _ ->.
    eapply wp_mono; [apply wp_literal_item_changed| |done]. simpl. auto. }
  exact Hwp.
Qed.

(** ** The keys of the dict that a run returns *)

Lemma alloc_tree_mapping_dom m h :
  ∃ d, get_dict (alloc_tree (Mapping m) h).2 (alloc_tree (Mapping m) h).1 = Some d ∧
       dom d = dom m.
Proof.
  simpl.
  assert (Hfold : dom (map_fold (λ k t '(d, h0), let '(v, h') := alloc_tree t h0 in
                                                   (<[k := v]> d, h'))
                                ((∅ : gmap string val), h) m).1 = dom m).
  { apply (map_fold_weak_ind (λ (r : gmap string val * heap) (m : gmap string Tree),
                                dom r.1 = dom m)).
    - simpl. by rewrite !dom_empty_L.
    - intros k x m' [d hc] Hk IH. simpl in *.
      destruct (alloc_tree x hc) as [v h']. simpl. by rewrite !dom_insert_L, IH. }
  destruct (map_fold _ _ m) as [d h1]. simpl in *. exists d. split; [|done].
  unfold get_dict. by rewrite lookup_app_r, Nat.sub_diag by lia.
Qed.

Lemma merge_hash_dom fuel x y h dm h' :
  merge_hash fuel x y h = Some (dm, h') → dom dm = dom x ∪ dom y.
Proof.
  destruct fuel as [|f]; [done|]. rewrite merge_hash_unfold.
  assert (Hfold : ∀ ys d hc,
    foldl (merge_item (merge_hash f) x) (Some (d, hc)) ys = Some (dm, h') →
    ∀ k, k ∈ dom dm ↔ k ∈ dom d ∨ k ∈ ys.*1).
  { induction ys as [|[k1 vy] ys IH]; intros d hc Hfold k.
    - simpl in Hfold. simplify_eq. rewrite elem_of_nil. tauto.
    - cbn [foldl] in Hfold.
      assert (Hstep : ∃ v hc',
        merge_item (merge_hash f) x (Some (d, hc)) (k1, vy) = Some (<[k1 := v]> d, hc') ∨
        merge_item (merge_hash f) x (Some (d, hc)) (k1, vy) = None).
      { unfold merge_item. simpl.
        destruct (x !! k1) as [vx|]; [|by eexists _, _; left].
        destruct (get_dict hc vx) as [dx|]; [|by eexists _, _; left].
        destruct (get_dict hc vy) as [dy|]; [|by eexists _, _; left].
        destruct (merge_hash f dx dy hc) as [[dmm h1]|]; simpl.
        - by eexists _, _; left.
        - by exists VNone, hc; right. }
      destruct Hstep as (v & hc' & [Hstep|Hstep]); rewrite Hstep in Hfold.
      + rewrite (IH _ _ Hfold k), dom_insert, elem_of_union, elem_of_singleton.
        rewrite fmap_cons, elem_of_cons. simpl. tauto.
      + by rewrite merge_item_None in Hfold. }
  intros Hm. apply set_eq. intros k. rewrite (Hfold _ _ _ Hm k), elem_of_union.
  assert (Hy : k ∈ (map_to_list y).*1 ↔ k ∈ dom y); [|by rewrite Hy].
  rewrite list_elem_of_fmap, elem_of_dom. split.
  - intros ([k' v] & -> & Hkv). apply elem_of_map_to_list in Hkv. by exists v.
  - intros [v Hv]. exists (k, v). split; [done|]. by apply elem_of_map_to_list.
Qed.

Lemma dict_at_grows n0 t h h' l d :
  grows n0 t h h' → dict_at h l = Some d → dict_at h' l = Some d.
Proof.
  intros (new & -> & _). rewrite !dict_at_Some. apply lookup_app_l_Some.
Qed.

Lemma keys_between_grows n0 t0 t lo hi h h' :
  grows n0 t0 h h' → keys_between t lo hi h → keys_between t lo hi h'.
Proof. intros Hg (dt & Hdt & ?). exists dt. split; [by eapply dict_at_grows|done]. Qed.

Lemma keys_between_weaken t lo hi lo' hi' h :
  keys_between t lo hi h → lo' ⊆ lo → hi ⊆ hi' → keys_between t lo' hi' h.
Proof.
  intros (dt & Hdt & ? & ?) ? ?. exists dt. split; [done|]. split; by etrans.
Qed.

Lemma keys_between_set t lo hi k v h :
  keys_between t lo hi h → keys_between t (lo ∪ {[k]}) (hi ∪ {[k]}) (dict_set t k v h).
Proof.
  intros (dt & Hdt & ? & ?). exists (<[k := v]> dt).
  split; [by apply dict_at_set_eq|]. rewrite dom_insert. split.
  - apply union_least; [etrans; [done|apply union_subseteq_r]|apply union_subseteq_l].
  - apply union_least; [apply union_subseteq_r|etrans; [done|apply union_subseteq_l]].
Qed.

Lemma keys_between_set_other t lo hi l k v h :
  l ≠ t → keys_between t lo hi h → keys_between t lo hi (dict_set l k v h).
Proof. intros Hne (dt & Hdt & ?). exists dt. by rewrite dict_at_set_ne. Qed.

Lemma wp_conj_True {A} (m : M A) (Q1 Q2 : A → heap → Prop) (E : heap → Prop) h :
  wp m Q1 E h → wp m Q2 (λ _, True) h →
  wp m (λ a h', Q1 a h' ∧ Q2 a h') (λ _, True) h.
Proof. unfold wp. by destruct (m h).1. Qed.

Lemma wp_bind_done {A B} (m : M A) (f : A → M B) (Q : B → heap → Prop) h :
  (∀ a st, m h = (Done a, st) → wp (f a) Q (λ _, True) (st_heap st)) →
  wp (m ≫= f) Q (λ _, True) h.
Proof.
  intros Hf. unfold wp, mbind, M_bind. specialize (Hf).
  destruct (m h) as [[a| |] st] eqn:Hm; simpl; [|done..].
  specialize (Hf a st eq_refl). unfold wp in Hf.
  by destruct (f a (st_heap st)) as [[b| |] st'].
Qed.

Lemma wp_not_done {A} (m : M A) (Q : A → heap → Prop) h :
  (∀ a st, m h ≠ (Done a, st)) → wp m Q (λ _, True) h.
Proof.
  intros Hm. unfold wp. destruct (m h) as [[a| |] st] eqn:Heq; simpl; [|done..].
  by destruct (Hm a st).
Qed.

Section result_keys.
Variables (h0 : heap) (c : context) (ev : gmap string val).
Hypothesis Hwf0 : heap_wf h0.
Hypothesis Htv : task_vars c < length h0.
Hypothesis Hxv : extra_vars c < length h0.
Hypothesis Hev : ∀ d, dict_at h0 (extra_vars c) = Some d → d = ev.

Lemma wp_seed_keys pv depth t k lo hi h :
  inv_weak h0 pv t h → pv !! k = None → keys_between t lo hi h →
  wp (seed depth c t k)
     (λ _ h', (inv_weak h0 pv t h' ∧ length h ≤ length h') ∧
              keys_between t lo (hi ∪ {[k]}) h')
     (λ _, True) h.
Proof.
  intros Hinv Hk Hkeys. apply wp_conj_True with (E := frozen h0); [by apply wp_seed|].
  pose proof (inv_frozen _ _ _ _ Hinv) as Hf.
  assert (Hsame : keys_between t lo (hi ∪ {[k]}) h).
  { eapply keys_between_weaken; [done|done|apply union_subseteq_l]. }
  unfold seed. apply wp_bind, wp_expect_dict; [|done]. intros dt Hdt.
  destruct (dt !! k); [by apply wp_ret|].
  apply wp_bind, wp_expect_dict; [|done]. intros tv Htvd.
  destruct (tv !! k) as [v|] eqn:Hv; [|by apply wp_ret].
  apply wp_bind, wp_get_heap.
  apply wp_bind, wp_lift_fuel; [|done]. intros [[v' memo] h'] Hcopy. simpl.
  apply wp_bind, wp_put_heap, wp_ret.
  destruct (inv_deepcopy h0 pv Hwf0 depth t h v v' memo h') as [Hg Hv']; [done| |done|].
  { exact (context_value h0 Hwf0 (task_vars c) h tv k v Hf Htv Htvd Hv). }
  eapply keys_between_weaken;
    [apply keys_between_set; exact (keys_between_grows _ _ _ _ _ _ _ Hg Hkeys)
    |apply union_subseteq_l|reflexivity].
Qed.

Lemma wp_load_file_keys depth e filename orig t ks h :
  inv_strong h0 t h → keys_between t ks ks h →
  wp (load_file depth e c filename orig t)
     (λ r h', inv_strong h0 r.2 h' ∧
              keys_between r.2 (ks ∪ file_keys e filename) (ks ∪ file_keys e filename) h')
     (λ _, True) h.
Proof.
  intros Hinv Hkeys. apply wp_conj_True with (E := frozen h0); [by apply wp_load_file|].
  unfold inv_strong in Hinv. pose proof (inv_bounds _ _ _ _ Hinv) as [Hn0 Ht].
  unfold load_file, file_keys.
  apply wp_bind, wp_readonly; [apply ansible_version_tuple_heap| |done]. intros _.
  apply wp_bind, wp_emit.
  apply wp_bind.
  destruct (load_from_file e filename) as [[s|l|m]|]; try by apply wp_raise.
  apply wp_ret.
  apply wp_bind, wp_get_heap.
  pose proof (alloc_tree_spec (Mapping m) h) as Ha.
  destruct (alloc_tree_mapping_dom m h) as (cfv & Hcfv & Hdom).
  destruct (alloc_tree (Mapping m) h) as [cur h1] eqn:Hat. simpl in Ha, Hcfv.
  destruct (allocates_grows (length h0) t _ _ _ Ha) as [Hg Hcur]; [lia|done|].
  pose proof (inv_grows _ _ _ _ _ Hinv Hg) as Hinv1.
  apply wp_bind, wp_put_heap.
  apply wp_bind. rewrite Hcfv. apply wp_ret.
  apply wp_bind.
  eapply wp_mono;
    [apply (wp_foldM (λ _ h', inv_weak h0 ∅ t h' ∧ keys_between t ks (ks ∪ dom cfv) h'))
    | |done].
  - intros orig1 k h2 Hk [Hinv2 Hkeys2]. unfold seed_file_key.
    apply wp_bind. eapply wp_mono; [apply wp_seed_keys; [done|apply lookup_empty|done]| |done].
    intros s h3 [[Hinv3 _] Hkeys3]. apply wp_ret. split; [done|].
    eapply keys_between_weaken; [done|done|].
    apply union_least; [done|]. apply singleton_subseteq_l, elem_of_union_r.
    apply list_elem_of_fmap in Hk as ([k' v] & -> & Hkv).
    apply elem_of_map_to_list in Hkv. by apply elem_of_dom.
  - split; [done|]. eapply keys_between_weaken;
      [by eapply keys_between_grows|done|apply union_subseteq_l].
  - intros orig' h2 [Hinv2 (dt1 & Hdt1 & Hlo & Hhi)].
    apply wp_bind, wp_expect_dict; [|done]. intros dt Hdt.
    rewrite Hdt1 in Hdt. injection Hdt as <-.
    apply wp_bind, wp_get_heap.
    apply wp_bind, wp_lift_fuel; [|done]. intros [dm h3] Hm. simpl.
    apply wp_bind, wp_put_heap. apply wp_bind, wp_new_obj, wp_ret. simpl.
    exists dm. split; [apply dict_at_app_new|].
    apply merge_hash_dom in Hm. rewrite Hm, <- Hdom.
    assert (dom dt1 ∪ dom cfv = ks ∪ dom cfv) as ->; [|done].
    apply set_eq. intros k. rewrite !elem_of_union. split.
    + intros [Hk|Hk]; [|by right]. apply Hhi in Hk. by apply elem_of_union in Hk.
    + intros [Hk|Hk]; [left; by apply Hlo|by right].
Qed.

Lemma keys_of_files_cons e f files :
  keys_of_files e (f :: files) = file_keys e f ∪ keys_of_files e files.
Proof. done. Qed.

Lemma wp_load_loop_keys depth e exts fuel :
  ∀ i ls orig t ks h,
    inv_strong h0 t h → keys_between t ks ks h →
    wp (load_loop depth fuel e exts c i ls orig t)
       (λ r h', inv_strong h0 r.2 h' ∧
          keys_between r.2
            (ks ∪ keys_of_files e (filter (λ f, Is_true (ext_allowed exts f))
                                          (drop i (files_of ls))))
            (ks ∪ keys_of_files e (filter (λ f, Is_true (ext_allowed exts f))
                                          (drop i (files_of ls)))) h')
       (λ _, True) h.
Proof.
  induction fuel as [|f IH]; intros i ls orig t ks h Hinv Hkeys; [by apply wp_timeout|].
  destruct (files_of ls !! i) as [filename|] eqn:Hi.
  2:{ simpl. rewrite Hi. apply wp_ret. split; [done|].
      apply lookup_ge_None in Hi. rewrite drop_ge by done.
      unfold keys_of_files. simpl. by rewrite union_empty_r_L. }
  rewrite (drop_S _ _ _ Hi).
  destruct (ext_allowed exts filename) eqn:Hext.
  - destruct (files_own ls) as [l|] eqn:Hown.
    2:{ apply wp_not_done. intros r st.
        unfold files_of in Hi. rewrite Hown in Hi. simpl in Hi.
        by eapply (load_loop_no_end depth (S f) e exts c i ls orig t h i filename). }
    simpl. rewrite Hi, Hext.
    rewrite filter_cons_True by (by rewrite Hext). rewrite keys_of_files_cons.
    apply wp_bind. eapply wp_mono; [by apply wp_load_file_keys| |done].
    intros [orig' t'] h' [Hinv' Hkeys']. simpl in *.
    eapply wp_mono; [by apply IH| |done].
    intros r h2 [Hinv2 Hkeys2]. split; [done|].
    assert (Hfiles : files_of (included_append filename ls) = files_of ls).
    { unfold files_of, included_append. simpl. by rewrite Hown. }
    rewrite Hfiles in Hkeys2. by rewrite !(assoc_L (∪)).
  - simpl. rewrite Hi, Hext.
    rewrite filter_cons_False by (rewrite Hext; intros []).
    apply wp_bind, wp_emit. by apply IH.
Qed.

Lemma wp_protect_keys t ks h :
  inv_strong h0 t h → keys_between t ks ks h →
  wp (protect c t) (λ _ h', inv_weak h0 ev t h' ∧ keys_between t ks ks h') (λ _, True) h.
Proof.
  intros Hinv Hkeys. apply wp_conj_True with (E := frozen h0); [by apply wp_protect|].
  unfold protect. apply wp_bind, wp_expect_dict; [|done]. intros dt Hdt.
  apply wp_bind.
  assert (Hfold : ∀ l, Forall (λ x, x ∈ ks) l →
    wp (foldM (protect_key c t) () l) (λ _ h', keys_between t ks ks h') (λ _, True) h).
  { intros l Hl. apply (wp_foldM (λ _ h', keys_between t ks ks h')); [|done].
    intros [] x h1 Hx Hkeys1. rewrite Forall_forall in Hl. specialize (Hl x Hx).
    unfold protect_key. apply wp_bind, wp_emit.
    apply wp_bind, wp_expect_dict; [|done]. intros evd _.
    destruct (evd !! x) as [v|]; [|by apply wp_raise].
    apply wp_bind, wp_get_heap, wp_put_heap.
    eapply keys_between_weaken; [by apply keys_between_set| |].
    - apply union_subseteq_l.
    - apply union_least; [done|]. by apply singleton_subseteq_l. }
  destruct (decide (dt = ∅)); [apply wp_ret; by apply Hfold|].
  apply wp_bind, wp_expect_dict; [|done]. intros evd _. apply wp_ret.
  apply Hfold. apply Forall_forall. intros x Hx.
  apply list_elem_of_filter in Hx as [_ Hx].
  apply list_elem_of_fmap in Hx as ([k' v] & -> & Hkv).
  apply elem_of_map_to_list in Hkv. destruct Hkeys as (dt' & Hdt' & Hlo & Hhi).
  rewrite Hdt in Hdt'. injection Hdt' as <-. apply Hhi. by apply elem_of_dom.
Qed.

Lemma wp_files_phase_keys depth e o sources t ks h :
  inv_strong h0 t h → keys_between t ks ks h →
  wp (files_phase depth e o c sources t)
     (λ r h', inv_weak h0 ev r.1.2 h' ∧
        ∃ ls0 st0,
          resolve e (opt_ignore_missing_files o) sources h = (Done ls0, st0) ∧
          keys_between r.1.2
            (ks ∪ keys_of_files e (filter (λ f, Is_true (ext_allowed (opt_extensions o) f))
                                          (files_of ls0)))
            (ks ∪ keys_of_files e (filter (λ f, Is_true (ext_allowed (opt_extensions o) f))
                                          (files_of ls0))) h')
     (λ _, True) h.
Proof.
  intros Hinv Hkeys. unfold files_phase.
  apply wp_bind_done. intros ls0 st0 Hres.
  assert (Hh : st_heap st0 = h).
  { pose proof (resolve_from_heap e (opt_ignore_missing_files o) sources
                  {| included := []; files_own := None |} h) as Hheap.
    unfold resolve in Hres. by rewrite Hres in Hheap. }
  rewrite Hh.
  apply wp_bind. eapply wp_mono; [by apply wp_load_loop_keys| |done].
  intros [[ls' orig] t'] h1 [Hinv1 Hkeys1]. simpl in *. rewrite drop_0 in Hkeys1.
  apply wp_bind. eapply wp_mono; [by apply wp_protect_keys| |done].
  intros [] h2 [Hinv2 Hkeys2].
  apply wp_bind, wp_expect_dict; [|done]. intros dt Hdt.
  apply wp_bind, wp_get_heap.
  apply wp_bind, wp_lift_fuel; [|done]. intros diffs _. apply wp_ret. simpl.
  split; [done|]. by exists ls0, st0.
Qed.


Lemma keys_between_app t lo hi h o :
  keys_between t lo hi h → keys_between t lo hi (h ++ [o]).
Proof. intros (dt & Hdt & ?). exists dt. split; [by apply dict_at_app|done]. Qed.

Lemma wp_walk_step_keys_target t key lo hi h :
  inv_weak h0 ev t h → ev !! key = None → keys_between t lo hi h →
  wp (walk_step t key)
     (λ l h', (inv_weak h0 ev t h' ∧ length h0 ≤ l ∧ l ≠ t ∧ length h ≤ length h') ∧
              keys_between t (lo ∪ {[key]}) (hi ∪ {[key]}) h')
     (λ _, True) h.
Proof.
  intros Hinv Hkey Hkeys. pose proof (inv_bounds _ _ _ _ Hinv) as [Hn0 Ht].
  apply wp_conj_True with (E := frozen h0); [by apply (wp_walk_step h0 c ev)|].
  unfold walk_step. apply wp_bind, wp_expect_dict; [|done]. intros d Hd.
  apply wp_bind, wp_get_heap.
  assert (Hcreate : wp (l ← new_obj (ODict ∅); h' ← get_heap;
                        put_heap (dict_set t key (VRef l) h');; mret l)
     (λ _ h', keys_between t (lo ∪ {[key]}) (hi ∪ {[key]}) h') (λ _, True) h).
  { apply wp_bind, wp_new_obj, wp_bind, wp_get_heap, wp_bind, wp_put_heap, wp_ret.
    by apply keys_between_set, keys_between_app. }
  destruct (d !! key) as [v|] eqn:Hv; simpl; [|exact Hcreate].
  destruct (get_dict h v) as [dv|] eqn:Hdv; [|exact Hcreate].
  destruct v as [| | | | | |l]; try exact Hcreate.
  apply wp_ret. destruct Hkeys as (dt & Hdt & Hlo & Hhi).
  rewrite Hd in Hdt. injection Hdt as <-. exists d. split; [done|]. split.
  - apply union_least; [done|]. apply singleton_subseteq_l. by apply elem_of_dom.
  - etrans; [done|apply union_subseteq_l].
Qed.

Lemma wp_walk_step_keys_other t cur key lo hi h :
  inv_weak h0 ev t h → length h0 ≤ cur → cur ≠ t → keys_between t lo hi h →
  wp (walk_step cur key)
     (λ l h', (inv_weak h0 ev t h' ∧ length h0 ≤ l ∧ l ≠ t ∧ length h ≤ length h') ∧
              keys_between t lo hi h')
     (λ _, True) h.
Proof.
  intros Hinv Hcur Hne Hkeys.
  apply wp_conj_True with (E := frozen h0); [by apply (wp_walk_step h0 c ev)|].
  unfold walk_step. apply wp_bind, wp_expect_dict; [|done]. intros d Hd.
  apply wp_bind, wp_get_heap.
  assert (Hcreate : wp (l ← new_obj (ODict ∅); h' ← get_heap;
                        put_heap (dict_set cur key (VRef l) h');; mret l)
     (λ _ h', keys_between t lo hi h') (λ _, True) h).
  { apply wp_bind, wp_new_obj, wp_bind, wp_get_heap, wp_bind, wp_put_heap, wp_ret.
    by apply keys_between_set_other, keys_between_app. }
  destruct (d !! key) as [v|] eqn:Hv; simpl; [|exact Hcreate].
  destruct (get_dict h v) as [dv|] eqn:Hdv; [|exact Hcreate].
  destruct v as [| | | | | |l]; try exact Hcreate.
  by apply wp_ret.
Qed.

Lemma wp_set_last_keys depth t cur k v n lo hi h :
  inv_weak h0 ev t h → length h0 ≤ cur → (cur = t → ev !! k = None) →
  good (length h0) t n v → n ≤ length h → keys_between t lo hi h →
  wp (d ← expect_dict cur; h1 ← get_heap;
      ne ← lift_fuel (py_ne depth h1 (default VNone (d !! k)) v);
      put_heap (dict_set cur k v h1);; mret ne)
     (λ _ h', inv_weak h0 ev t h' ∧
              if decide (cur = t) then keys_between t (lo ∪ {[k]}) (hi ∪ {[k]}) h'
              else keys_between t lo hi h')
     (λ _, True) h.
Proof.
  intros Hinv Hcur Hkey Hv Hn Hkeys.
  apply wp_conj_True with (E := frozen h0); [by eapply wp_set_last|].
  apply wp_bind, wp_expect_dict; [|done]. intros d Hd.
  apply wp_bind, wp_get_heap. apply wp_bind, wp_lift_fuel; [|done]. intros ne _.
  apply wp_bind, wp_put_heap, wp_ret.
  destruct (decide (cur = t)) as [->|Hne].
  - by apply keys_between_set.
  - by apply keys_between_set_other.
Qed.

Lemma wp_apply_literal_keys depth t k0 ks v lo hi h :
  inv_weak h0 ev t h → ev !! k0 = None → good (length h0) t (length h) v →
  keys_between t lo hi h →
  wp (apply_literal depth t (k0 :: ks) v)
     (λ _ h', inv_weak h0 ev t h' ∧ keys_between t (lo ∪ {[k0]}) (hi ∪ {[k0]}) h')
     (λ _, True) h.
Proof.
  intros Hinv Hk0 Hv Hkeys. pose proof (inv_bounds _ _ _ _ Hinv) as [Hn0 Ht].
  unfold apply_literal. destruct ks as [|k1 ks].
  - simpl. apply wp_bind, wp_ret.
    eapply wp_mono; [by apply (wp_set_last_keys depth t t k0 v (length h) lo hi)| |done].
    intros ne h1 [Hinv1 Hkeys1]. by rewrite decide_True in Hkeys1.
  - change (removelast (k0 :: k1 :: ks)) with (k0 :: removelast (k1 :: ks)).
    generalize (default "" (last (k0 :: k1 :: ks))). intros k.
    generalize (removelast (k1 :: ks)). intros rest.
    apply wp_bind. simpl. apply wp_bind.
    eapply wp_mono; [by apply wp_walk_step_keys_target| |done].
    intros l h1 [(Hinv1 & Hl & Hne & Hlen) Hkeys1].
    eapply wp_mono;
      [apply (wp_foldM (λ cur h', inv_weak h0 ev t h' ∧ length h0 ≤ cur ∧ cur ≠ t ∧
                                   length h ≤ length h' ∧
                                   keys_between t (lo ∪ {[k0]}) (hi ∪ {[k0]}) h'))| |done].
    + intros cur key h2 _ (Hinv2 & Hcur & Hcne & Hlen2 & Hkeys2).
      eapply wp_mono; [by apply wp_walk_step_keys_other| |done].
      intros l' h3 [(? & ? & ? & ?) ?]. split_and!; [done..|lia|done].
    + done.
    + intros cur h2 (Hinv2 & Hcur & Hcne & Hlen2 & Hkeys2).
      eapply wp_mono;
        [by apply (wp_set_last_keys depth t cur k v (length h) (lo ∪ {[k0]}) (hi ∪ {[k0]}))
        | |done].
      intros ne h3 [Hinv3 Hkeys3]. by rewrite decide_False in Hkeys3.
Qed.

Lemma wp_literal_item_keys depth t ch item ks h :
  inv_weak h0 ev t h → keys_between t ks ks h →
  wp (literal_item depth c t ch item)
     (λ _ h', inv_weak h0 ev t h' ∧
              keys_between t (ks ∪ literal_key ev item) (ks ∪ literal_key ev item) h')
     (λ _, True) h.
Proof.
  intros Hinv Hkeys. pose proof (inv_frozen _ _ _ _ Hinv) as Hf.
  pose proof (inv_bounds _ _ _ _ Hinv) as [Hn0 Ht].
  unfold literal_item, literal_key. destruct item as [s|l|m]; try by apply wp_raise.
  destruct (m !! "path") as [p|]; [|by apply wp_raise].
  destruct (m !! "value") as [v|]; [|by apply wp_raise].
  apply wp_bind, wp_get_heap.
  pose proof (alloc_tree_spec v h) as Ha.
  destruct (alloc_tree v h) as [new_value h1]. simpl in Ha.
  destruct (allocates_grows (length h0) t _ _ _ Ha) as [Hg Hnew]; [lia|done|].
  pose proof (inv_grows _ _ _ _ _ Hinv Hg) as Hinv1.
  pose proof (inv_frozen _ _ _ _ Hinv1) as Hf1.
  pose proof (keys_between_grows _ _ _ _ _ _ _ Hg Hkeys) as Hkeys1.
  apply wp_bind, wp_put_heap.
  destruct p as [[| | | | |path_str]| |]; try by apply wp_raise.
  destruct (split_dot path_str) as [|k0 ks']; [by apply wp_raise|].
  apply wp_bind, wp_expect_dict; [|done]. intros evd Hevd.
  pose proof (extra_vars_read h0 c ev Hxv Hev _ _ Hf1 Hevd) as ->.
  destruct (decide (k0 ∈ dom ev)) as [Hin|Hnin].
  { apply wp_bind, wp_emit. apply wp_ret. split; [done|]. by rewrite union_empty_r_L. }
  apply not_elem_of_dom in Hnin.
  apply wp_bind. eapply wp_mono; [by apply wp_seed_keys| |done].
  intros sv h2 [[Hinv2 Hlen2] Hkeys2].
  apply wp_bind. eapply wp_mono; [apply wp_apply_literal_keys; [done..| |done]| |done].
  - by eapply good_mono.
  - intros ne h3 [Hinv3 Hkeys3]. apply wp_ret. split; [done|].
    eapply keys_between_weaken; [done|reflexivity|].
    apply union_least; [reflexivity|apply union_subseteq_r].
Qed.

Lemma wp_literals_phase_keys depth t ch literals ks h :
  inv_weak h0 ev t h → keys_between t ks ks h →
  wp (literals_phase depth c t ch literals)
     (λ _ h', inv_weak h0 ev t h' ∧
              keys_between t (ks ∪ keys_of_literals ev (Some literals))
                             (ks ∪ keys_of_literals ev (Some literals)) h')
     (λ _, True) h.
Proof.
  intros Hinv Hkeys. unfold literals_phase, keys_of_literals.
  destruct literals as [s|items|m]; try by apply wp_raise.
  apply (wp_foldM_done _ _ _
           (λ done _ h', inv_weak h0 ev t h' ∧
              keys_between t (ks ∪ ⋃ (literal_key ev <$> done))
                             (ks ∪ ⋃ (literal_key ev <$> done)) h')).
  - intros done item rest ch' h1 _ [Hinv1 Hkeys1].
    eapply wp_mono; [by apply wp_literal_item_keys| |done].
    intros ch2 h2 [Hinv2 Hkeys2]. split; [done|].
    rewrite fmap_app, union_list_app_L. simpl. rewrite union_empty_r_L.
    by rewrite (assoc_L (∪)).
  - split; [done|]. simpl. by rewrite union_empty_r_L.
Qed.

(** The keys of the result, with the source list resolved from the heap
    that holds the new dict of line 124. *)
Lemma wp_run_keys fuel e o :
  wp (run fuel e o c)
     (λ r h',
        ∃ K, keys_between (ansible_facts r)
               (K ∪ keys_of_literals ev (opt_literals o))
               (K ∪ keys_of_literals ev (opt_literals o)) h' ∧
             match opt_files o with
             | Some sources =>
                 ∃ ls0 st0,
                   resolve e (opt_ignore_missing_files o) sources (h0 ++ [ODict ∅])
                   = (Done ls0, st0) ∧
                   K = keys_of_files e
                         (filter (λ f, Is_true (ext_allowed (opt_extensions o) f))
                                 (files_of ls0))
             | None => K = ∅
             end)
     (λ _, True) h0.
Proof.
  unfold run.
  destruct (decide (_ ≠ [])); [by apply wp_raise|].
  destruct (decide (_ ∧ _)); [by apply wp_raise|].
  apply wp_bind, wp_new_obj. pose proof (inv_init h0 Hwf0) as Hinv.
  assert (Hkeys : keys_between (length h0) ∅ ∅ (h0 ++ [ODict ∅])).
  { exists ∅. split; [apply dict_at_app_new|]. by rewrite dom_empty_L. }
  apply wp_bind.
  destruct (opt_files o) as [sources|].
  - apply wp_bind. eapply wp_mono; [by apply wp_files_phase_keys| |done].
    intros [[ls t'] ch] h1 [Hinv1 (ls0 & st0 & Hres & Hkeys1)]. apply wp_ret. simpl in *.
    rewrite union_empty_l_L in Hkeys1.
    apply wp_bind. destruct (opt_literals o) as [literals|].
    + eapply wp_mono; [by apply wp_literals_phase_keys| |done].
      intros ch2 h2 [Hinv2 Hkeys2]. apply wp_ret. simpl.
      eexists. split; [exact Hkeys2|]. by exists ls0, st0.
    + apply wp_ret, wp_ret. simpl. eexists. split; [|by exists ls0, st0].
      by rewrite union_empty_r_L.
  - apply wp_ret. simpl.
    assert (Hinv1 : inv_weak h0 ev (length h0) (h0 ++ [ODict ∅])).
    { apply inv_empty_target; [done|apply dict_at_app_new]. }
    apply wp_bind. destruct (opt_literals o) as [literals|].
    + eapply wp_mono; [by apply wp_literals_phase_keys| |done].
      intros ch2 h2 [Hinv2 Hkeys2]. apply wp_ret. simpl. by exists ∅.
    + apply wp_ret, wp_ret. simpl. exists ∅. split; [|done].
      by rewrite union_empty_r_L.
Qed.

End result_keys.

Lemma emits_run_no_files fuel e o c :
  opt_files o = None → emits no_load (run fuel e o c).
Proof.
  intros Hfiles. unfold run. destruct (decide _); [apply emits_raise|].
  destruct (decide _); [apply emits_raise|].
  apply emits_bind; [apply emits_new_obj|intros t0]. rewrite Hfiles.
  apply emits_bind; [apply emits_ret|]. intros [[inc t1] ch1].
  apply emits_bind; [|intros ch2; apply emits_ret].
  destruct (opt_literals o); [by apply emits_literals_phase|apply emits_ret].
Qed.

(** X13: the top-level keys of the dict that a run returns are exactly the
    top-level keys of the files it loaded together with the first path keys
    of its literals that extra-vars does not have.  No other key of
    [task_vars] or of extra-vars gets into the result, and no key of a loaded
    file or of an applied literal is lost. *)
Theorem result_keys fuel e o c h0 r ev :
  heap_wf h0 → task_vars c < length h0 → extra_vars c < length h0 →
  dict_at h0 (extra_vars c) = Some ev →
  (run fuel e o c h0).1 = Done r →
  ∃ dt, dict_at (st_heap (run fuel e o c h0).2) (ansible_facts r) = Some dt ∧
        dom dt = keys_of_files e (loaded (st_trace (run fuel e o c h0).2)) ∪
                 keys_of_literals ev (opt_literals o).
Proof.
  intros Hwf Htv Hxv Hev Hr.
  pose proof (wp_run_keys h0 c ev Hwf Htv Hxv ltac:(intros d Hd; congruence) fuel e o)
    as Hwp.
  unfold wp in Hwp. rewrite Hr in Hwp.
  destruct Hwp as (K & (dt & Hdt & Hlo & Hhi) & HK).
  exists dt. split; [done|].
  assert (HKeq : K = keys_of_files e (loaded (st_trace (run fuel e o c h0).2))).
  { apply run_done_eq in Hr. destruct (opt_files o) as [sources|] eqn:Hfiles.
    - destruct HK as (ls0 & st0 & Hres & ->).
      destruct (run_loaded _ _ _ _ _ _ _ _ Hr Hfiles) as (ls1 & st1 & Hres1 & Hl & _).
      rewrite Hres in Hres1. injection Hres1 as <- _. by rewrite Hl.
    - subst K. rewrite loaded_no_load; [done|]. by apply emits_run_no_files. }
  rewrite <- HKeq. apply set_eq. intros k. split; [apply Hhi|apply Hlo].
Qed.

Lemma result_keys_witness :
  ∃ dt, dict_at (st_heap (run 5 fs_example
                            {| opt_files := Some ["d1"];
                               opt_literals :=
                                 Some (Sequence [literal "b" (Scalar (SInt 1));
                                                 literal "c.d" (Scalar (SInt 1))]);
                               opt_ignore_missing_files := false;
                               opt_extensions := None; opt_other := [] |}
                            context_example heap_pinned_example).2) 10 = Some dt ∧
        dom dt = keys_of_files fs_example
                   (loaded (st_trace (run 5 fs_example
                            {| opt_files := Some ["d1"];
                               opt_literals :=
                                 Some (Sequence [literal "b" (Scalar (SInt 1));
                                                 literal "c.d" (Scalar (SInt 1))]);
                               opt_ignore_missing_files := false;
                               opt_extensions := None; opt_other := [] |}
                            context_example heap_pinned_example).2)) ∪
                 keys_of_literals {[ "b" := VInt 7 ]}
                   (opt_literals
                      {| opt_files := Some ["d1"];
                         opt_literals :=
                           Some (Sequence [literal "b" (Scalar (SInt 1));
                                           literal "c.d" (Scalar (SInt 1))]);
                         opt_ignore_missing_files := false;
                         opt_extensions := None; opt_other := [] |}).
Proof.
  apply (result_keys 5 fs_example _ context_example heap_pinned_example
           {| ansible_facts := 10; changed := true;
              ansible_included_var_files := Some ["d1/a.yml"; "d1/b.yml"] |}
           {[ "b" := VInt 7 ]});
    [apply heap_wf_pinned_example|simpl; lia|simpl; lia|reflexivity
    |vm_compute; reflexivity].
Defined.

(** ** Where the loaded files come from *)

Lemma dirfiles_listed e s f : f ∈ dirfiles e s → ∃ n, n ∈ listdir e s ∧ f = join s n.
Proof.
  unfold dirfiles. rewrite list_sort_perm. intros Hf.
  apply list_elem_of_filter in Hf as [_ Hf].
  apply list_elem_of_fmap in Hf as (n & -> & Hn). by exists n.
Qed.

Lemma resolve_source_from (R : string → Prop) e ign ls s h ls' st :
  (isfile e s = true → R s) →
  (isfile e s = false → isdir e s = true → ∀ f, f ∈ dirfiles e s → R f) →
  Forall R (included ls) → Forall R (files_of ls) →
  resolve_source e ign ls s h = (Done ls', st) →
  Forall R (included ls') ∧ Forall R (files_of ls').
Proof.
  intros Hfile Hdir Hinc Hf. unfold resolve_source.
  destruct (isfile e s) eqn:Hs.
  - intros [= <- _]. unfold files_of, files_append in *.
    destruct (files_own ls); simpl in *.
    + split; [done|]. apply Forall_app. split; [done|]. repeat constructor. by apply Hfile.
    + split; (apply Forall_app; split; [done|]; repeat constructor; by apply Hfile).
  - destruct (isdir e s) eqn:Hd.
    + intros [= <- _]. split; [done|]. simpl. apply Forall_app. split; [done|].
      apply Forall_forall. by apply Hdir.
    + destruct ign; simpl; [|done]. by intros [= <- _].
Qed.

Lemma resolve_from_sources e ign sources :
  ∀ (R : string → Prop) ls h ls' st,
    (∀ s, s ∈ sources → isfile e s = true → R s) →
    (∀ s f, s ∈ sources → isfile e s = false → isdir e s = true →
            f ∈ dirfiles e s → R f) →
    Forall R (included ls) → Forall R (files_of ls) →
    foldM (resolve_source e ign) ls sources h = (Done ls', st) →
    Forall R (included ls') ∧ Forall R (files_of ls').
Proof.
  induction sources as [|s r IH]; intros R ls h ls' st Hfile Hdir Hinc Hf H; simpl in H.
  { by injection H as <- _. }
  apply bind_done_inv in H as (ls1 & st1 & st2 & H1 & H2 & _).
  eapply resolve_source_from in H1 as [Hinc1 Hf1]; [| | |done|done].
  - eapply IH; [| |done|done|exact H2].
    + intros s' Hs'. apply Hfile. by right.
    + intros s' f Hs'. apply Hdir. by right.
  - apply Hfile. by left.
  - intros Hnf Hd f. apply Hdir; [by left|done..].
Qed.

Lemma emits_load_loop_from (R : string → Prop) (P : event → Prop) depth e exts c fuel :
  (∀ f, R f → P (EvLoad f)) → (∀ f, P (EvExtFiltered f)) →
  ∀ i ls orig t,
    Forall R (included ls) → Forall R (files_of ls) →
    emits P (load_loop depth fuel e exts c i ls orig t).
Proof.
  intros Hload Hfilt.
  induction fuel as [|f IH]; intros i ls orig t Hinc Hf; simpl; [apply emits_timeout|].
  destruct (files_of ls !! i) as [filename|] eqn:Hi; [|apply emits_ret].
  assert (Hfile : R filename).
  { rewrite Forall_forall in Hf. apply Hf. by eapply list_elem_of_lookup_2. }
  destruct (ext_allowed exts filename) eqn:Hext.
  - apply emits_bind; [by apply emits_load_file, Hload|]. intros [orig' t'].
    apply IH; unfold files_of, included_append in *; simpl.
    + apply Forall_app. split; [done|]. by repeat constructor.
    + destruct (files_own ls); simpl in *; [done|].
      apply Forall_app. split; [done|]. by repeat constructor.
  - apply emits_bind; [by apply emits_emit|]. intros _. by apply IH.
Qed.

Lemma emits_run_from fuel e o c sources :
  opt_files o = Some sources →
  emits (λ ev, match ev with EvLoad f => from_sources e sources f | _ => True end)
        (run fuel e o c).
Proof.
  intros Hfiles. unfold run. destruct (decide _); [apply emits_raise|].
  destruct (decide _); [apply emits_raise|].
  apply emits_bind; [apply emits_new_obj|intros t0]. rewrite Hfiles.
  apply emits_bind.
  { apply emits_bind; [|intros [[ls t'] ch]; apply emits_ret].
    unfold files_phase. apply emits_bind_res; [by apply emits_resolve|].
    intros h ls st Hres. unfold resolve in Hres.
    apply (resolve_from_sources _ _ _ (from_sources e sources)) in Hres as [Hinc Hf];
      [| | |done|done].
    - apply emits_bind; [by apply (emits_load_loop_from (from_sources e sources))|].
      intros [[ls' orig] t']. apply emits_bind; [by apply emits_protect|]. intros _.
      repeat emits_step.
    - intros s Hs _. by left.
    - intros s f Hs _ Hd Hf. right. apply dirfiles_listed in Hf as (nm & Hnm & ->).
      by exists s, nm. }
  intros [[inc t1] ch1].
  apply emits_bind; [|intros ch2; apply emits_ret].
  destruct (opt_literals o); [by apply emits_literals_phase|apply emits_ret].
Qed.

(** X14: a run loads nothing but what the source list names: every file
    that the run gave to the loader, however the run ends, is an entry of the
    source list itself or a name listed directly in a directory that is an
    entry of the source list.  Directories are not descended, and without a
    source list nothing is loaded. *)
Theorem loaded_files_come_from_sources fuel e o c h f :
  f ∈ loaded (st_trace (run fuel e o c h).2) →
  ∃ sources, opt_files o = Some sources ∧ from_sources e sources f.
Proof.
  intros Hin. apply elem_of_loaded in Hin.
  destruct (opt_files o) as [sources|] eqn:Hfiles.
  - exists sources. split; [done|].
    pose proof (emits_run_from fuel e o c sources Hfiles h) as Hall.
    rewrite Forall_forall in Hall. apply (Hall _ Hin).
  - pose proof (emits_run_no_files fuel e o c Hfiles h) as Hall.
    rewrite Forall_forall in Hall. destruct (Hall _ Hin).
Qed.

Lemma loaded_files_come_from_sources_witness :
  ∃ sources, opt_files (options_files ["d1"; "f1.yml"]) = Some sources ∧
             from_sources fs_example sources "d1/a.yml".
Proof.
  apply (loaded_files_come_from_sources 5 fs_example (options_files ["d1"; "f1.yml"])
           context_example heap_example).
  assert (H : loaded (st_trace (run 5 fs_example (options_files ["d1"; "f1.yml"])
                                    context_example heap_example).2)
              = ["d1/a.yml"; "d1/b.yml"; "f1.yml"]) by (vm_compute; reflexivity).
  rewrite H. by left.
Defined.

(** ** The context of a run *)

Lemma reify_mapping_dict f h l m :
  reify (S f) h (VRef l) = Some (Mapping m) → ∃ d, dict_at h l = Some d.
Proof.
  simpl. unfold dict_at, get_dict. destruct (h !! l) as [[d|xs|]|]; try done.
  - by eexists.
  - by intros (? & ? & ?)%fmap_Some.
Qed.

(** C1: in the tree of the result of a run, a top-level key of extra-vars
    has exactly the subtree that it has in extra-vars, whatever the files and
    the literals of the run say about that key. *)
Theorem protected_keys_win fuel e o c h0 r n (mr mv : gmap string Tree) k :
  heap_wf h0 → task_vars c < length h0 → extra_vars c < length h0 →
  (run fuel e o c h0).1 = Done r →
  reify n (st_heap (run fuel e o c h0).2) (VRef (ansible_facts r)) = Some (Mapping mr) →
  reify n h0 (VRef (extra_vars c)) = Some (Mapping mv) →
  k ∈ dom mv → k ∈ dom mr →
  mr !! k = mv !! k.
Proof.
  intros Hwf Htv Hxv Hr Hres Hext Hkv Hkr.
  destruct (run_invariant fuel e o c h0 Hwf Htv Hxv) as [Hf Hinv].
  destruct (Hinv r Hr) as (_ & _ & _ & _ & dt & Hdt & Hvals).
  destruct n as [|f]; [done|].
  destruct (reify_mapping_dict _ _ _ _ Hext) as [ev Hev].
  destruct (reify_dict _ _ _ _ _ Hres Hdt) as (m1 & [= <-] & Hm1).
  destruct (reify_dict _ _ _ _ _ Hext Hev) as (m2 & [= <-] & Hm2).
  rewrite Hev in Hvals. simpl in Hvals.
  apply elem_of_dom in Hkv as [tv Hktv]. apply elem_of_dom in Hkr as [tr Hktr].
  specialize (Hm1 k). specialize (Hm2 k). rewrite Hktr in Hm1. rewrite Hktv in Hm2.
  rewrite Hktr, Hktv. simpl in Hm1, Hm2.
  destruct (dt !! k) as [v|] eqn:Hv; [|done].
  destruct (ev !! k) as [p|] eqn:Hp; [|done]. simpl in Hm1, Hm2.
  specialize (Hvals k v Hv). simpl in Hvals. rewrite Hp in Hvals. subst v.
  rewrite (reify_frozen h0 _ Hwf Hf f p) in Hm1; [congruence|].
  apply dict_at_Some in Hev. apply (heap_wf_obj h0 _ _ Hwf Hev k p Hp).
Qed.

Lemma protected_keys_win_witness :
  (<[ "a" := Mapping (<[ "x" := Scalar (SInt 1) ]> {[ "y" := Scalar (SInt 2) ]}) ]>
     {[ "b" := Scalar (SInt 7) ]} : gmap string Tree) !! "b"
  = ({[ "b" := Scalar (SInt 7) ]} : gmap string Tree) !! "b".
Proof.
  apply (protected_keys_win 5 fs_example (options_files ["d1"]) context_example
           heap_pinned_example
           {| ansible_facts := 10; changed := true;
              ansible_included_var_files := Some ["d1/a.yml"; "d1/b.yml"] |} 3);
    [apply heap_wf_pinned_example|simpl; lia|simpl; lia|vm_compute; reflexivity
    |vm_compute; reflexivity|vm_compute; reflexivity
    |apply elem_of_dom; by eexists|apply elem_of_dom; by eexists].
Defined.

(** C9: a run never mutates what the context supplies.  However the run
    ends, every object that was there before it is as it was; [task_vars]
    and the extra-vars dict read as the same trees, and so does every value
    of [task_vars], which is what the snapshot for the diff holds (line
    156).  What a run that returns has put into its result under a key that
    extra-vars does not pin is a copy: no dict or list that was there before
    is reached from it, so that no change made through the result touches
    [task_vars]. *)
Theorem context_is_never_mutated fuel e o c h0 :
  heap_wf h0 → task_vars c < length h0 → extra_vars c < length h0 →
  (∀ l, l < length h0 → st_heap (run fuel e o c h0).2 !! l = h0 !! l) ∧
  (∀ n, reify n (st_heap (run fuel e o c h0).2) (VRef (task_vars c))
        = reify n h0 (VRef (task_vars c)) ∧
        reify n (st_heap (run fuel e o c h0).2) (VRef (extra_vars c))
        = reify n h0 (VRef (extra_vars c))) ∧
  (∀ tv k v n, dict_at h0 (task_vars c) = Some tv → tv !! k = Some v →
     reify n (st_heap (run fuel e o c h0).2) v = reify n h0 v) ∧
  (∀ r dt k v l,
     (run fuel e o c h0).1 = Done r →
     dict_at (st_heap (run fuel e o c h0).2) (ansible_facts r) = Some dt →
     dt !! k = Some v →
     (∀ ev, dict_at h0 (extra_vars c) = Some ev → ev !! k = None) →
     reaches (st_heap (run fuel e o c h0).2) v l → length h0 ≤ l).
Proof.
  intros Hwf Htv Hxv.
  destruct (run_invariant fuel e o c h0 Hwf Htv Hxv) as [Hf Hinv].
  split_and!; [done| | |].
  - intros n. split; apply reify_frozen; simpl; try done; lia.
  - intros tv k v n Htvd Hk. apply reify_frozen; [done..|].
    apply dict_at_Some in Htvd. apply (heap_wf_obj h0 _ _ Hwf Htvd k v Hk).
  - intros r dt k v l Hr Hdt Hk Hpin Hl.
    destruct (Hinv r Hr) as (_ & _ & Hc & _ & dt' & Hdt' & Hvals).
    rewrite Hdt in Hdt'. injection Hdt' as <-.
    specialize (Hvals k v Hk). simpl in Hvals.
    assert (Hnone : default ∅ (dict_at h0 (extra_vars c)) !! k = None).
    { destruct (dict_at h0 (extra_vars c)) as [ev|]; simpl; [by apply Hpin|].
      apply lookup_empty. }
    rewrite Hnone in Hvals.
    by destruct (reaches_good _ _ _ _ _ Hc Hvals Hl) as (? & _).
Qed.

Lemma context_is_never_mutated_witness :
  (∀ l, l < length heap_pinned_example →
     st_heap (run 5 fs_example (options_files ["d1"]) context_example
                  heap_pinned_example).2 !! l = heap_pinned_example !! l) ∧
  (∀ n, reify n (st_heap (run 5 fs_example (options_files ["d1"]) context_example
                              heap_pinned_example).2) (VRef (task_vars context_example))
        = reify n heap_pinned_example (VRef (task_vars context_example)) ∧
        reify n (st_heap (run 5 fs_example (options_files ["d1"]) context_example
                              heap_pinned_example).2) (VRef (extra_vars context_example))
        = reify n heap_pinned_example (VRef (extra_vars context_example))) ∧
  (∀ tv k v n, dict_at heap_pinned_example (task_vars context_example) = Some tv →
     tv !! k = Some v →
     reify n (st_heap (run 5 fs_example (options_files ["d1"]) context_example
                           heap_pinned_example).2) v = reify n heap_pinned_example v) ∧
  (∀ r dt k v l,
     (run 5 fs_example (options_files ["d1"]) context_example heap_pinned_example).1
       = Done r →
     dict_at (st_heap (run 5 fs_example (options_files ["d1"]) context_example
                           heap_pinned_example).2) (ansible_facts r) = Some dt →
     dt !! k = Some v →
     (∀ ev, dict_at heap_pinned_example (extra_vars context_example) = Some ev →
            ev !! k = None) →
     reaches (st_heap (run 5 fs_example (options_files ["d1"]) context_example
                           heap_pinned_example).2) v l →
     length heap_pinned_example ≤ l).
Proof.
  apply context_is_never_mutated; [apply heap_wf_pinned_example|simpl; lia..].
Defined.
